(** * quintans/streams: a push-based reactive stream library (Go)

    Shallow embedding of [stream.go] and [collect.go].

    - A Go closure is a Rocq function in a state-and-panic monad
      [St W A], [W] being the world it can read and write.
    - A variable that a callback captures and assigns ([i] in [Take],
      [numCompleted] in [Merge], [current] in [Reduce], [x] in
      [Collect], [outerCompleted] in [Flatten]) is a cell of a heap of
      first-order values, fresh for each activation.
    - A variable that holds a func value or a pointer to an Observer
      ([obs] in [Accept], [innerSub] in [Flatten], the callback of a
      listener) needs a store of closures.  Such a store is a layer on
      top of the world its closures run in: a Stream runs in a world
      [W], and the callbacks of the Observer it is given run in a world
      [C] that [W] extends.  A callback therefore cannot call back into
      the Stream that calls it.
    - A goroutine is run by the environment, one turn of its loop at a
      time; the model is sequential, and says nothing about data races
      or about time.

    [Pipe5] to [Pipe10] are used by no statement below and are left
    out. *)

From Stdlib Require Import ZArith Lia List Bool String.
From stdpp Require Import base option list gmap.
Import ListNotations.

Set Implicit Arguments.
Local Open Scope Z_scope.

(** ** Results and the state monad *)

(** A Go call either returns (with the new state) or panics: the
    panics of this library are calls through a nil func value and the
    closing of a closed channel. *)
Inductive Res (A : Type) : Type :=
| Ok (a : A)
| Panic.
Arguments Ok {A} a.
Arguments Panic {A}.

Definition St (W A : Type) : Type := W -> Res (A * W).

Definition ret {W A} (a : A) : St W A := fun w => Ok (a, w).

Definition bind {W A B} (m : St W A) (k : A -> St W B) : St W B :=
  fun w => match m w with
           | Ok (a, w') => k a w'
           | Panic => Panic
           end.

Definition panic {W A} : St W A := fun _ => Panic.

Notation "x <- m ; k" := (bind m (fun x => k))
  (at level 20, m at level 100, k at level 200, only parsing).
Notation "'do' m ; k" := (bind m (fun _ => k))
  (at level 20, m at level 100, k at level 200, only parsing).
Notation "' pat <- m ; k" := (bind m (fun x => match x with pat => k end))
  (at level 20, pat pattern, m at level 100, k at level 200, only parsing).

(** ** Values, events and the first-order world *)

(** Go [int] on a 64-bit platform. *)
Definition int_wrap (z : Z) : Z := (z + 2 ^ 63) mod 2 ^ 64 - 2 ^ 63.
Definition max_int : Z := 2 ^ 63 - 1.

#[warnings="-register-all"]
Inductive val : Type :=
| VInt (z : Z)
| VBool (b : bool)
| VFunc (h : option nat)          (* a func-typed variable: nil or a closure object *)
| VSlice (l : list val).

(** Types of values that captured variables hold; [zero] is the Go zero
    value of the type ([var x X]). *)
Class Storable (A : Type) : Type := {
  zero : A;
  to_val : A -> val;
  of_val : val -> A;
  of_to_val : forall a, of_val (to_val a) = a
}.

#[global, refine] Instance Storable_Z : Storable Z :=
  {| zero := 0; to_val := VInt; of_val := fun v => match v with VInt z => z | _ => 0 end |}.
Proof. reflexivity. Defined.

#[global, refine] Instance Storable_bool : Storable bool :=
  {| zero := false; to_val := VBool; of_val := fun v => match v with VBool b => b | _ => false end |}.
Proof. reflexivity. Defined.

#[global, refine] Instance Storable_func : Storable (option nat) :=
  {| zero := None; to_val := VFunc; of_val := fun v => match v with VFunc h => h | _ => None end |}.
Proof. reflexivity. Defined.

#[global, refine] Instance Storable_slice {A} `{Storable A} : Storable (list A) :=
  {| zero := [];
     to_val := fun l => VSlice (List.map to_val l);
     of_val := fun v => match v with VSlice l => List.map of_val l | _ => [] end |}.
Proof.
  intros l. rewrite List.map_map.
  induction l as [|a l IH]; simpl; [reflexivity|].
  now rewrite of_to_val, IH.
Defined.

(** What a terminal consumer can see. *)
Inductive event : Type :=
| EvNext (v : val) (continue : bool)   (* observer.Next(v) was called and answered *)
| EvError
| EvComplete                          (* observer.Complete() was called *)
| EvCompleted                         (* the [completed] callback given to Accept *)
| EvListen                            (* listener.Listen(cb) *)
| EvClose                             (* listener.Close() *)
| EvTickerStop                        (* ticker.Stop() *)
| EvActivate (id : nat)               (* a user-written Stream was activated *)
| EvCancel (id : nat).                (* the Subscription of a user-written Stream ran *)

Definition loc := nat.

Record Base : Type := mkBase {
  heap : gmap nat val;
  next_loc : nat;
  trace : list event
}.

Definition empty_base : Base := mkBase ∅ 0%nat [].

(** ** Worlds that extend one another *)

Class Lens (W C : Type) : Type := {
  view : W -> C;
  update : C -> W -> W
}.

#[global] Instance lens_refl (W : Type) : Lens W W :=
  {| view := fun w => w; update := fun c _ => c |}.

Definition lift {W C A} {L : Lens W C} (m : St C A) : St W A :=
  fun w => match m (view w) with
           | Ok (a, c) => Ok (a, update c w)
           | Panic => Panic
           end.

Section Heap.
Context {C : Type} `{LB : Lens C Base}.

(** A captured local variable: [x := v]. *)
Definition alloc (v : val) : St C loc :=
  lift (fun b : Base =>
          Ok (next_loc b,
              mkBase (<[next_loc b := v]> (heap b)) (S (next_loc b)) (trace b))).

(** Reading is total: a cell that was never declared reads as zero,
    which no run does. *)
Definition load (l : loc) : St C val :=
  lift (fun b : Base => Ok (default (VInt 0) (heap b !! l), b)).

Definition store (l : loc) (v : val) : St C unit :=
  lift (fun b : Base => Ok (tt, mkBase (<[l := v]> (heap b)) (next_loc b) (trace b))).

Definition new {A} `{Storable A} (a : A) : St C loc := alloc (to_val a).
Definition get {A} `{Storable A} (l : loc) : St C A := v <- load l; ret (of_val v).
Definition set {A} `{Storable A} (l : loc) (a : A) : St C unit := store l (to_val a).

Definition emit (e : event) : St C unit :=
  lift (fun b : Base => Ok (tt, mkBase (heap b) (next_loc b) (trace b ++ [e]))).
End Heap.

(** ** Closure stores

    A variable of func or pointer type is a slot of a closure store:
    empty when the variable is nil.  [Layer X C] adds a store of [X] on
    top of the world [C] the stored closures run in. *)
Record Layer (X C : Type) : Type := mkLayer {
  slots : gmap nat X;
  next_slot : nat;
  below : C
}.
Arguments mkLayer {X C} _ _ _.

Definition empty_layer {X C} (c : C) : Layer X C := mkLayer ∅ 0%nat c.

#[global] Instance lens_below (X C : Type) : Lens (Layer X C) C :=
  {| view := fun w => below w;
     update := fun c w => mkLayer (slots w) (next_slot w) c |}.

Definition lens_comp {A B D} (L1 : Lens A B) (L2 : Lens B D) : Lens A D :=
  {| view := fun a => view (view a);
     update := fun d a => update (update d (view a)) a |}.

Section Slots.
Context {X C : Type}.

(** [var x *X] / [var f func()] : a fresh, nil variable. *)
Definition slot_new : St (Layer X C) nat :=
  fun w => Ok (next_slot w, mkLayer (slots w) (S (next_slot w)) (below w)).

(** A fresh closure object. *)
Definition slot_alloc (x : X) : St (Layer X C) nat :=
  fun w => Ok (next_slot w,
               mkLayer (<[next_slot w := x]> (slots w)) (S (next_slot w)) (below w)).

Definition slot_get (k : nat) : St (Layer X C) (option X) :=
  fun w => Ok (slots w !! k, w).

Definition slot_set (k : nat) (x : option X) : St (Layer X C) unit :=
  fun w => Ok (tt, mkLayer (match x with
                            | Some x' => <[k := x']> (slots w)
                            | None => delete k (slots w)
                            end) (next_slot w) (below w)).
End Slots.

(** ** stream.go: Observer, Subscription, Stream *)

Definition error : Type := string.

(** [type Observer[T any] struct { Next; Error; Complete }]: three func
    fields, each of which may be nil. *)
Record Observer (C T : Type) : Type := mkObserver {
  Next : option (T -> St C bool);
  Error : option (error -> St C unit);
  Complete : option (St C unit)
}.

(** Calling a func-typed field: a nil func panics. *)
Definition call {W A} (f : option (St W A)) : St W A :=
  match f with Some g => g | None => panic end.

Definition call1 {W X A} (f : option (X -> St W A)) (x : X) : St W A :=
  match f with Some g => g x | None => panic end.

(** [if f != nil { f() }] *)
Definition call_if_not_nil {W} (f : option (St W unit)) : St W unit :=
  match f with Some g => g | None => ret tt end.

Definition Subscription (W : Type) : Type := St W unit.
Definition Stream (C W T : Type) : Type := Observer C T -> St W (Subscription W).

(** [func() {}] *)
Definition noop {W} : Subscription W := ret tt.

Section Producers.
Context {C W T : Type} `{L : Lens W C}.

(** The [for _, v := range args] loop of [From]. *)
Fixpoint From_loop (observer : Observer C T) (args : list T) : St C unit :=
  match args with
  | [] => ret tt
  | v :: rest =>
      ok <- call1 (Next observer) v;
      if negb ok then ret tt (* break *) else From_loop observer rest
  end.

Definition From (args : list T) : Stream C W T :=
  fun observer =>
    do lift (From_loop observer args);
    do lift (call_if_not_nil (Complete observer));
    ret noop.
End Producers.

(** [Periodic] starts a goroutine.  The variables of one activation
    ([observer], [i], [closeCh], [done]) are captured by the Subscription
    and by the goroutine only, never by a callback: they are kept
    together in one slot of a closure store, and that slot stands for
    the goroutine.  The scheduler is the environment: [tick g] lets
    goroutine [g] take the [<-ticker.C] case of its select once.  A
    goroutine that has seen [done] closed has returned, and a tick does
    nothing. *)
Record PeriodicVars (C : Type) : Type := mkPeriodicVars {
  p_observer : Observer C Z;
  p_i : Z;
  p_closeCh : bool;        (* the sync.Once has run its function *)
  p_done : bool            (* the channel is closed *)
}.
Arguments mkPeriodicVars {C} _ _ _ _.

Section Periodic.
Context {C W : Type} `{LB : Lens C Base} `{LG : Lens W (Layer (PeriodicVars C) C)}.

Definition lift_goroutine {A} (m : St C A) : St W A :=
  lift (L := lens_comp LG (lens_below _ _)) m.

Definition zero_vars : PeriodicVars C :=
  mkPeriodicVars (mkObserver None None None) 0 false false.

(** Reading and assigning one captured variable of activation [g]. *)
Definition var {A} (g : nat) (field : PeriodicVars C -> A) : St W A :=
  v <- lift (slot_get (X := PeriodicVars C) (C := C) g);
  ret (field (default zero_vars v)).

Definition assign (g : nat) (upd : PeriodicVars C -> PeriodicVars C) : St W unit :=
  v <- lift (slot_get (X := PeriodicVars C) (C := C) g);
  match v with
  | Some vars => lift (slot_set (C := C) g (Some (upd vars)))
  | None => ret tt
  end.

Definition set_i (z : Z) (v : PeriodicVars C) : PeriodicVars C :=
  mkPeriodicVars (p_observer v) z (p_closeCh v) (p_done v).
Definition set_closeCh (fired : bool) (v : PeriodicVars C) : PeriodicVars C :=
  mkPeriodicVars (p_observer v) (p_i v) fired (p_done v).
Definition set_done (closed : bool) (v : PeriodicVars C) : PeriodicVars C :=
  mkPeriodicVars (p_observer v) (p_i v) (p_closeCh v) closed.

(** [closeCh.Do(f)] *)
Definition Once_Do (g : nat) (f : St W unit) : St W unit :=
  fired <- var g (@p_closeCh C);
  if (fired : bool) then ret tt else (do f; assign g (set_closeCh true)).

(** [close(done)]: closing a closed channel panics. *)
Definition close_done (g : nat) : St W unit :=
  closed <- var g (@p_done C);
  if (closed : bool) then panic else assign g (set_done true).

Definition Periodic_unsub (observer : Observer C Z) (g : nat) : St W unit :=
  Once_Do g
    (do lift_goroutine (emit EvTickerStop);
     do close_done g;
     lift_goroutine (call_if_not_nil (Complete observer))).

(** One turn of [for { select { case <-done: ...; case <-ticker.C: ... } }]. *)
Definition Periodic_loop (observer : Observer C Z) (g : nat) : St W unit :=
  closed <- var g (@p_done C);
  if (closed : bool) then ret tt
  else
    i0 <- var g (@p_i C);
    ok <- lift_goroutine (call1 (Next observer) i0);
    do (if negb ok then Periodic_unsub observer g else ret tt);
    i1 <- var g (@p_i C);
    assign g (set_i (int_wrap (i1 + 1))).

Definition Periodic (interval : Z) : Stream C W Z :=
  fun observer =>
    g <- lift (slot_alloc (C := C) (mkPeriodicVars observer 0 false false));
    ret (Periodic_unsub observer g).

Definition tick (g : nat) : St W unit :=
  v <- lift (slot_get (X := PeriodicVars C) (C := C) g);
  match v with
  | Some vars => Periodic_loop (p_observer vars) g
  | None => ret tt
  end.
End Periodic.

(** [Accept]: [obs] is a slot holding the registered Observer. *)
Section Accept.
Context {C W T : Type} `{LA : Lens W (Layer (Observer C T) C)}.

Definition lift_accept {A} (m : St C A) : St W A :=
  lift (L := lens_comp LA (lens_below _ _)) m.

Definition Accept_push (obs : nat) (t : T) : St W bool :=
  o <- lift (slot_get (X := Observer C T) (C := C) obs);
  match o with
  | None => ret false
  | Some observer => lift_accept (call1 (Next observer) t)
  end.

Definition Accept_stream (completed : option (St C unit)) (obs : nat) : Stream C W T :=
  fun observer =>
    do lift (slot_set (C := C) obs (Some observer));
    ret (do lift (slot_set (X := Observer C T) (C := C) obs None);
         do lift_accept (call_if_not_nil (Complete observer));
         lift_accept (call_if_not_nil completed)).

Definition Accept (completed : option (St C unit))
  : St W ((T -> St W bool) * Stream C W T) :=
  obs <- lift (slot_new (X := Observer C T) (C := C));
  ret (Accept_push obs, Accept_stream completed obs).
End Accept.

(** [type Listener[T any] interface { Listen(func(T)); Close() }] *)
Record Listener (C W T : Type) : Type := mkListener {
  Listen : (T -> St C unit) -> St W unit;
  Close : St W unit
}.

Section FromListener.
Context {C W T : Type} `{L : Lens W C}.

Definition FromListener (listener : Listener C W T) : Stream C W T :=
  fun observer =>
    do Listen listener (fun e => _ <- call1 (Next observer) e; ret tt);
    ret (do Close listener;
         lift (call_if_not_nil (Complete observer))).
End FromListener.

(** The [Listenable] of stream_test.go, which also records [Listen] and
    [Close] in the trace. *)
Section Listenable.
Context {C W T : Type} `{LB : Lens C Base} `{LL : Lens W (Layer (T -> St C unit) C)}.

Definition lift_listener {A} (m : St C A) : St W A :=
  lift (L := lens_comp LL (lens_below _ _)) m.

Definition Listenable_Accept (l : nat) (t : T) : St W unit :=
  f <- lift (slot_get (X := T -> St C unit) (C := C) l);
  match f with
  | Some listener => lift_listener (listener t)
  | None => ret tt
  end.

Definition Listenable_Listen (l : nat) (f : T -> St C unit) : St W unit :=
  do lift_listener (emit EvListen);
  lift (slot_set (C := C) l (Some f)).

Definition Listenable_Close (l : nat) : St W unit :=
  do lift_listener (emit EvClose);
  lift (slot_set (X := T -> St C unit) (C := C) l None).

Definition Listenable (l : nat) : Listener C W T :=
  {| Listen := Listenable_Listen l; Close := Listenable_Close l |}.

Definition new_Listenable : St W nat :=
  lift (slot_new (X := T -> St C unit) (C := C)).
End Listenable.

(** The functions handed to [Map], [Filter] and [Reduce] are pure. *)
Section Operators.
Context {C W : Type} `{LB : Lens C Base} `{L : Lens W C}.

Definition Map {T U} (f : T -> U) (source : Stream C W T) : Stream C W U :=
  fun observer =>
    source {| Next := Some (fun data => call1 (Next observer) (f data));
              Error := Error observer;
              Complete := Complete observer |}.

Definition Filter {T} (f : T -> bool) (source : Stream C W T) : Stream C W T :=
  fun observer =>
    source {| Next := Some (fun data =>
                        if f data then call1 (Next observer) data else ret true);
              Error := Error observer;
              Complete := Complete observer |}.

(** The [Next] closure of [Take]; [i] is the captured counter. *)
Definition Take_next {T} (n : Z) (observer : Observer C T) (i : loc) (data : T)
  : St C bool :=
  ok <- call1 (Next observer) data;
  i0 <- get i;
  do set i (int_wrap (i0 + 1));
  i1 <- get i;
  if negb ok || (i1 =? n) then ret false else ret ok.

Definition Take {T} (n : Z) (source : Stream C W T) : Stream C W T :=
  fun observer =>
    i <- lift (new 0);
    source {| Next := Some (Take_next n observer i);
              Error := Error observer;
              Complete := Complete observer |}.

(** The [Complete] closure [Merge] hands to every source. *)
Definition Merge_complete {T} (len_streams : Z) (observer : Observer C T)
    (numCompleted : loc) : St C unit :=
  c0 <- get numCompleted;
  do set numCompleted (int_wrap (c0 + 1));
  c1 <- get numCompleted;
  if c1 =? len_streams then call_if_not_nil (Complete observer) else ret tt.

(** [for i, stream := range streams { unsubscribes[i] = stream(...) }] *)
Fixpoint Merge_subscribe {T} (inner : Observer C T) (streams : list (Stream C W T))
  : St W (list (Subscription W)) :=
  match streams with
  | [] => ret []
  | stream :: rest =>
      unsub <- stream inner;
      unsubs <- Merge_subscribe inner rest;
      ret (unsub :: unsubs)
  end.

(** [for _, unsub := range unsubscribes { unsub() }] *)
Fixpoint Merge_unsubscribe (unsubscribes : list (Subscription W)) : St W unit :=
  match unsubscribes with
  | [] => ret tt
  | unsub :: rest => do unsub; Merge_unsubscribe rest
  end.

Definition Merge {T} (streams : list (Stream C W T)) : Stream C W T :=
  fun observer =>
    numCompleted <- lift (new 0);
    unsubscribes <-
      Merge_subscribe
        {| Next := Next observer;
           Complete := Some (Merge_complete (Z.of_nat (length streams))
                                            observer numCompleted);
           Error := Error observer |} streams;
    ret (Merge_unsubscribe unsubscribes).

(** The [Next] closure of [Reduce]; [current] is the captured accumulator. *)
Definition Reduce_next {T U} `{Storable U} (f : U -> T -> U)
    (observer : Observer C U) (current : loc) (data : T) : St C bool :=
  c0 <- get current;
  do set current (f c0 data);
  c1 <- get current;
  call1 (Next observer) c1.

Definition Reduce {T U} `{Storable U} (initialValue : U) (f : U -> T -> U)
    (source : Stream C W T) : Stream C W U :=
  fun observer =>
    current <- lift (new initialValue);
    c <- lift (get current);
    ok <- lift (call1 (Next observer) c);
    if negb ok then ret noop
    else source {| Next := Some (Reduce_next f observer current);
                   Error := Error observer;
                   Complete := Complete observer |}.

Definition StartWith {T} (data : T) (source : Stream C W T) : Stream C W T :=
  fun observer =>
    ok <- lift (call1 (Next observer) data);
    if negb ok then ret noop else source observer.
End Operators.

(** [Flatten].  [innerSub] is a func-typed variable that the closures of
    both the inner and the outer Observer assign: the variable itself is
    a heap cell holding nil or a reference to a closure object, and the
    closure objects (the Subscriptions inner Streams return) are kept in
    a closure store above the world [W] the inner Streams run in. *)
Section Flatten.
Context {C W Wo T : Type} `{LB : Lens C Base} `{L : Lens W C}
        `{LO : Lens Wo (Layer (Subscription W) W)}.

Let F : Type := Layer (Subscription W) W.
Let LFC : Lens F C := lens_comp (lens_below _ _) L.
Let LOC : Lens Wo C := lens_comp LO LFC.

(** Calling the func value a variable holds; calling nil panics.  A
    reference always designates a closure object (objects are only ever
    allocated), and reading the store is total: the default, the empty
    closure, is never met in a run. *)
Definition call_closure (h : option nat) : St F unit :=
  match h with
  | None => panic
  | Some k =>
      sub <- slot_get (X := Subscription W) (C := W) k;
      lift (default noop sub)
  end.

(** The [Complete] closure handed to an inner Stream. *)
Definition Flatten_inner_complete (observer : Observer C T)
    (innerSub outerCompleted : loc) : St C unit :=
  do set innerSub (None : option nat);
  oc <- get outerCompleted;
  if (oc : bool) && bool_decide (is_Some (Complete observer))
  then call (Complete observer)
  else ret tt.

(** The [Next] closure handed to the outer Stream. *)
Definition Flatten_outer_next (observer : Observer C T)
    (innerSub outerCompleted : loc) (stream : Stream C W T) : St F bool :=
  h <- lift (L := LFC) (get innerSub);
  do (if bool_decide (is_Some h) then call_closure h else ret tt);
  unsub <- lift (stream
                   {| Next := Some (fun data => call1 (Next observer) data);
                      Error := Error observer;
                      Complete := Some (Flatten_inner_complete observer
                                          innerSub outerCompleted) |});
  k <- slot_alloc unsub;
  do lift (L := LFC) (set innerSub (Some k));
  ret true.

Definition Flatten (outer : Stream F Wo (Stream C W T)) : Stream C Wo T :=
  fun observer =>
    innerSub <- lift (L := LOC) (new (None : option nat));
    outerCompleted <- lift (L := LOC) (new false);
    unsubscribe <-
      outer {| Next := Some (Flatten_outer_next observer innerSub outerCompleted);
               Error := option_map (fun f e => lift (L := LFC) (f e)) (Error observer);
               Complete := Some (lift (L := LFC) (set outerCompleted true)) |};
    ret (do unsubscribe;
         h <- lift (L := LOC) (get innerSub);
         if bool_decide (is_Some h) then lift (call_closure h) else ret tt).
End Flatten.

Section Consumers.
Context {C W : Type} `{LB : Lens C Base} `{L : Lens W C}.

Definition Subscribe {T} (obs : Observer C T) (source : Stream C W T)
  : St W (Subscription W) := source obs.

Definition Observe {T} (f : option (T -> St C bool)) (source : Stream C W T)
  : St W (Subscription W) :=
  source {| Next := f; Error := None; Complete := None |}.

Definition ForEach {T} (f : option (T -> St C unit)) (source : Stream C W T)
  : St W (Subscription W) :=
  source {| Next := Some (fun t => do call1 f t; ret true);
            Error := None; Complete := None |}.

(** [Collect(fn)] declares [var x X] once; the function it returns
    activates the source and reads [x] back. *)
Definition Collect {T X} `{Storable X} (fn : T -> St C X)
  : St C (Stream C W T -> St W X) :=
  x <- new (zero : X);
  ret (fun source =>
         _ <- source {| Next := Some (fun t => r <- fn t; do set x r; ret true);
                        Error := None; Complete := None |};
         lift (get x)).

(** collect.go *)
Definition ToSlice {T} `{Storable T} : St C (T -> St C (list T)) :=
  a <- new (zero : list T);
  ret (fun t => a0 <- get a; do set a (a0 ++ [t]); get a).
End Consumers.

Definition Pipe2 {A B} (a : A) (fn1 : A -> B) : B := fn1 a.
Definition Pipe3 {A B D} (a : A) (fn1 : A -> B) (fn2 : B -> D) : D := fn2 (fn1 a).
Definition Pipe4 {A B D E} (a : A) (fn1 : A -> B) (fn2 : B -> D) (fn3 : D -> E) : E :=
  fn3 (fn2 (fn1 a)).

(** ** Recording observers

    A terminal consumer is observed through what it is told and what it
    answers: [probe pol e c] records every call in the trace and answers
    [Next v] with [pol history v]; [e] and [c] say whether its [Error]
    and [Complete] fields are set or nil. *)
Section Probe.
Context {C : Type} `{LB : Lens C Base}.

Definition history : St C (list event) :=
  lift (fun b : Base => Ok (trace b, b)).

Definition probe_next {T} `{Storable T} (pol : list event -> T -> bool) (v : T)
  : St C bool :=
  h <- history;
  do emit (EvNext (to_val v) (pol h v));
  ret (pol h v).

Definition probe {T} `{Storable T} (pol : list event -> T -> bool)
    (e c : bool) : Observer C T :=
  {| Next := Some (probe_next pol);
     Error := if e then Some (fun _ => emit EvError) else None;
     Complete := if c then Some (emit EvComplete) else None |}.
End Probe.

Definition accept_all {T} : list event -> T -> bool := fun _ _ => true.

(** The trace a run leaves, [None] if it panicked. *)
Definition trace_of {A W} `{Lens W Base} (r : Res (A * W)) : option (list event) :=
  match r with
  | Ok (_, w) => Some (trace (view w))
  | Panic => None
  end.

Definition result_of {A W} (r : Res (A * W)) : option A :=
  match r with
  | Ok (a, _) => Some a
  | Panic => None
  end.

Definition nexts (tr : list event) : list val :=
  flat_map (fun e => match e with EvNext v _ => [v] | _ => [] end) tr.

Definition completes (tr : list event) : nat :=
  length (List.filter (fun e => match e with EvComplete => true | _ => false end) tr).

(** * Observation and specification vocabulary *)


Definition add (acc i : Z) : Z := acc + i.

(** ** Worlds, written out *)

Definition log (es : list event) (w : Base) : Base :=
  mkBase (heap w) (next_loc w) (trace w ++ es).

Definition poke (l : loc) (v : val) (w : Base) : Base :=
  mkBase (<[l := v]> (heap w)) (next_loc w) (trace w).

Definition peek (l : loc) (w : Base) : val := default (VInt 0) (heap w !! l).

(** Running a computation of the lower world inside a layer. *)
Definition under {X C A} (w : Layer X C) (r : Res (A * C)) : Res (A * Layer X C) :=
  match r with
  | Ok (a, c) => Ok (a, mkLayer (slots w) (next_slot w) c)
  | Panic => Panic
  end.

(** ** What recording observers are told *)

(** What [From] tells a recording observer: the values in order, up to
    and including the first one that is refused. *)
Fixpoint served {T} `{Storable T} (pol : list event -> T -> bool)
    (h : list event) (args : list T) : list event :=
  match args with
  | [] => []
  | v :: rest =>
      EvNext (to_val v) (pol h v)
      :: (if pol h v
          then served pol (h ++ [EvNext (to_val v) (pol h v)]) rest
          else [])
  end.

Definition answer (e : event) : bool :=
  match e with EvNext _ b => b | _ => true end.

(** What a recording observer is told when every value of [vs] reaches
    it, whatever it answers. *)
Fixpoint forwarded {T} `{Storable T} (pol : list event -> T -> bool)
    (h : list event) (vs : list T) : list event :=
  match vs with
  | [] => []
  | v :: rest =>
      EvNext (to_val v) (pol h v)
      :: forwarded pol (h ++ [EvNext (to_val v) (pol h v)]) rest
  end.

(** What a recording observer is told by the Streams [From xs], for
    [xs] in [xss], activated one after the other. *)
Fixpoint served_each {T} `{Storable T} (pol : list event -> T -> bool)
    (h : list event) (xss : list (list T)) : list event :=
  match xss with
  | [] => []
  | xs :: rest => served pol h xs ++ served_each pol (h ++ served pol h xs) rest
  end.

(** [f(acc, v1), f(f(acc, v1), v2), ...] *)
Fixpoint scan {T U} (f : U -> T -> U) (acc : U) (args : list T) : list U :=
  match args with
  | [] => []
  | v :: rest => f acc v :: scan f (f acc v) rest
  end.

(** ** Drivers *)

(** The same call [n] times in a row. *)
Fixpoint times {W} (n : nat) (m : St W unit) : St W unit :=
  match n with
  | O => ret tt
  | S n' => do m; times n' m
  end.

(** [for _, x := range xs { f(x) }] *)
Fixpoint each {W A} (f : A -> St W unit) (xs : list A) : St W unit :=
  match xs with
  | [] => ret tt
  | x :: rest => do f x; each f rest
  end.

(** [for _, v := range vs { results = append(results, accept(v)) }] *)
Fixpoint pushes {W T} (accept : T -> St W bool) (vs : list T) : St W (list bool) :=
  match vs with
  | [] => ret []
  | v :: rest => r <- accept v; rs <- pushes accept rest; ret (r :: rs)
  end.

(** Activate, then call the Subscription [n] times. *)
Definition cancel_times {C W T} (n : nat) (s : Stream C W T) (o : Observer C T)
  : St W unit :=
  cancel <- s o;
  times n cancel.

(** A source that a test completes by hand: a user-written Stream that
    keeps the Observer it is activated with, and lets the environment
    call that Observer's [Complete] later (as a goroutine or an external
    caller would). *)
Section Manual.
Context {C W T : Type} `{LM : Lens W (Layer (Observer C T) C)}.

Definition Manual : Stream C W T :=
  fun observer =>
    _ <- lift (slot_alloc (C := C) observer);
    ret noop.

Definition Manual_complete (k : nat) : St W unit :=
  o <- lift (slot_get (X := Observer C T) (C := C) k);
  match o with
  | Some observer =>
      lift (L := lens_comp LM (lens_below _ _)) (call_if_not_nil (Complete observer))
  | None => ret tt
  end.
End Manual.


(** A user-written inner Stream that shows when it is activated and when
    its Subscription runs.  Like the Subscription of an Accept stream,
    the Subscription of [Spy id true] calls the observer's [Complete]. *)
Section Spy.
Context {C W T : Type} `{LB : Lens C Base} `{L : Lens W C}.

Definition Spy_cancel (id : nat) (finish : bool) (observer : Observer C T)
  : Subscription W :=
  do lift (emit (EvCancel id));
  if finish then lift (call_if_not_nil (Complete observer)) else ret tt.

Definition Spy (spy : nat * bool) : Stream C W T :=
  fun observer =>
    do lift (emit (EvActivate (fst spy)));
    ret (Spy_cancel (fst spy) (snd spy) observer).
End Spy.


(** The life of one Accept stream: values pushed before the Stream is
    activated, while it is active, and after its Subscription ran. *)
Definition Accept_life {T} `{Storable T} (completed : bool)
    (pol : list event -> T -> bool) (e c : bool) (before during after : list T)
  : St (Layer (Observer Base T) Base) (list bool * list bool * list bool) :=
  ' (accept, s) <- Accept (if completed then Some (emit EvCompleted) else None);
  r0 <- pushes accept before;
  cancel <- s (probe pol e c);
  r1 <- pushes accept during;
  do cancel;
  r2 <- pushes accept after;
  ret (r0, r1, r2).

Definition Accept_cancel_times {T} `{Storable T} (n : nat)
  : St (Layer (Observer Base T) Base) unit :=
  ' (_, s) <- Accept (T := T) (Some (emit EvCompleted));
  cancel_times n s (probe accept_all false true).

Definition FromListener_cancel_times {T} `{Storable T} (n : nat)
  : St (Layer (T -> St Base unit) Base) unit :=
  l <- new_Listenable (T := T);
  cancel_times n (FromListener (Listenable l)) (probe accept_all false true).

Definition Periodic_cancel_times (n : nat) : St (Layer (PeriodicVars Base) Base) unit :=
  cancel_times n (Periodic 500) (probe accept_all false true).

Local Abbreviation FW := (Layer (Subscription Base) Base).

(** Activate [Flatten] over [From] of the inner Streams, then call its
    Subscription [n] times. *)
Definition Flatten_From {T} `{Storable T} (inners : list (Stream Base Base T))
    (pol : list event -> T -> bool) (e c : bool) (n : nat) : St FW unit :=
  cancel_times n (Flatten (From inners)) (probe pol e c).

(** Two Accept streams flattened: [completed] shows which Subscription
    ran; a push tells whether the Stream is registered. *)
Definition Flatten_Accepts
  : St (Layer (Subscription (Layer (Observer Base Z) Base)) (Layer (Observer Base Z) Base))
       (list bool) :=
  ' (accept1, s1) <- lift (Accept (T := Z) (Some (emit (EvCancel 1))));
  ' (accept2, s2) <- lift (Accept (T := Z) (Some (emit (EvCancel 2))));
  cancel <- Flatten (From [s1; s2]) (probe accept_all false true);
  r1 <- lift (accept1 10);
  r2 <- lift (accept2 20);
  do cancel;
  r3 <- lift (accept2 30);
  ret [r1; r2; r3].

(** stream_test.go, with the ticker driven by hand. *)
Definition even (i : Z) : bool := i mod 2 =? 0.

Definition Periodic_Filter_Take_Map_Subscribe (ticks : nat)
  : St (Layer (PeriodicVars Base) Base) unit :=
  _ <- Pipe4 (Pipe2 (Periodic 500) (Filter even))
             (Take 5)
             (Map (fun i => i * 2))
             (Subscribe (probe accept_all false true));
  times ticks (tick 0).

Definition From_Periodic_Merge_Take_Map_ForEach (ticks : nat)
  : St (Layer (PeriodicVars Base) Base) unit :=
  _ <- Pipe4 (Merge [Periodic 500; From [10; 20]])
             (Take 5)
             (Map (fun i => i * 2))
             (ForEach (Some (fun i : Z => emit (EvNext (VInt i) true))));
  times ticks (tick 0).

Section NilNext.
Context {T : Type}.
Variable err : option (error -> St Base unit).
Variable comp : option (St Base unit).

Definition nil_Next : Observer Base T := mkObserver None err comp.

Definition Accept_push_first (v : T) : St (Layer (Observer Base T) Base) bool :=
  ' (accept, s) <- Accept None;
  _ <- s nil_Next;
  accept v.

Definition Listener_event_first (v : T) : St (Layer (T -> St Base unit) Base) unit :=
  l <- new_Listenable;
  _ <- FromListener (Listenable l) nil_Next;
  Listenable_Accept l v.
End NilNext.


Definition Periodic_tick_first (err : option (error -> St Base unit))
    (comp : option (St Base unit)) : St (Layer (PeriodicVars Base) Base) unit :=
  _ <- Periodic 500 (mkObserver None err comp);
  tick 0.

(** ** The observers the operators build, over a recording observer *)

Section Wrapped.
Context {T : Type} `{ST : Storable T}.
Variable pol : list event -> T -> bool.
Variables e c : bool.
Variables innerSub outerCompleted : loc.

Definition ToSlice_fn (a : loc) : T -> St Base (list T) :=
  fun t => a0 <- get a; do set a (a0 ++ [t]); get a.

Definition Collect_obs (a x : loc) : Observer Base T :=
  {| Next := Some (fun t => r <- ToSlice_fn a t; do set x r; ret true);
     Error := None; Complete := None |}.

Definition Take_obs (n : Z) (i : loc) : Observer Base T :=
  {| Next := Some (Take_next n (probe pol e c) i);
     Error := Error (probe pol e c);
     Complete := Complete (probe pol e c) |}.

Definition Flatten_inner_obs : Observer Base T :=
  {| Next := Some (fun data => call1 (Next (probe pol e c)) data);
     Error := Error (probe pol e c);
     Complete := Some (Flatten_inner_complete (probe pol e c) innerSub outerCompleted) |}.

Definition Flatten_outer_obs : Observer FW (Stream Base Base T) :=
  {| Next := Some (Flatten_outer_next (probe pol e c) innerSub outerCompleted);
     Error := option_map (fun f err =>
                            lift (L := lens_comp (lens_below _ _) (lens_refl _)) (f err))
                         (Error (probe pol e c));
     Complete := Some (lift (L := lens_comp (lens_below _ _) (lens_refl _))
                         (set outerCompleted true)) |}.

(** Between two values of the outer Stream: the outer Stream has not
    completed, and [innerSub] holds the Subscription of the inner Stream
    activated last, if any. *)
Definition switched (prev : option (nat * bool)) (w : FW) : Prop :=
  peek outerCompleted (below w) = VBool false /\
  match prev with
  | None => peek innerSub (below w) = VFunc None
  | Some p =>
      exists k, peek innerSub (below w) = VFunc (Some k) /\
                slots w !! k = Some (Spy_cancel (fst p) (snd p) Flatten_inner_obs)
  end.

(** Between two values of an outer Stream of [From] Streams: the outer
    Stream has not completed, and [innerSub] is nil or holds the no-op
    Subscription of the last one. *)
Definition synced (w : FW) : Prop :=
  peek outerCompleted (below w) = VBool false /\
  (peek innerSub (below w) = VFunc None \/
   exists k, peek innerSub (below w) = VFunc (Some k) /\ slots w !! k = Some noop).

(** The world after the two declarations that open an activation. *)
Definition Flatten_started (b : Base) : Base :=
  mkBase (<[S (next_loc b) := VBool false]> (<[next_loc b := VFunc None]> (heap b)))
         (S (S (next_loc b))) (trace b).

(** Slots [n .. n + k - 1] all hold [o]. *)
Fixpoint fill (o : Observer Base T) (n k : nat) (sl : gmap nat (Observer Base T))
  : gmap nat (Observer Base T) :=
  match k with
  | O => sl
  | S k' => fill o (S n) k' (<[n := o]> sl)
  end.
End Wrapped.

Section WrappedReduce.
Context {T U : Type} `{SU : Storable U}.
Variable f : U -> T -> U.
Variable pol : list event -> U -> bool.
Variables e c : bool.

Definition Reduce_obs (current : loc) : Observer Base T :=
  {| Next := Some (Reduce_next f (probe pol e c) current);
     Error := Error (probe pol e c);
     Complete := Complete (probe pol e c) |}.

(** The world after [current := initialValue] and the first [Next]. *)
Definition Reduce_started (initialValue : U) (w : Base) : Base :=
  log [EvNext (to_val initialValue) (pol (trace w) initialValue)]
      (mkBase (<[next_loc w := to_val initialValue]> (heap w)) (S (next_loc w)) (trace w)).
End WrappedReduce.

(** ** Traces of a switch *)

(** The trace of a switch from [prev] through the inner Streams [spies]:
    each one is activated after the previous one was cancelled. *)
Fixpoint switching (prev : option (nat * bool)) (spies : list (nat * bool)) : list event :=
  match spies with
  | [] => []
  | spy :: rest =>
      match prev with Some p => [EvCancel (fst p)] | None => [] end
      ++ EvActivate (fst spy) :: switching (Some spy) rest
  end.

(** The largest number of inner Streams active at the same time. *)
Fixpoint max_active (cur : nat) (tr : list event) : nat :=
  match tr with
  | [] => cur
  | EvActivate _ :: rest => Nat.max cur (max_active (S cur) rest)
  | EvCancel _ :: rest => Nat.max cur (max_active (Nat.pred cur) rest)
  | _ :: rest => max_active cur rest
  end.

(** ** Nil [Error] and [Complete] callbacks

    [safe I Q m]: from a world where [I] holds, [m] does not panic, its
    result satisfies [Q] and [I] holds again.  An Observer is fit when
    its [Next] is set and safe on the values it may be sent, and when
    each of [Error] and [Complete] is nil or safe.  A Stream is fit
    when, activated with a fit Observer, it does not panic and returns a
    Subscription that is safe to call at any later time. *)
Definition safe {W A} (I : W -> Prop) (Q : A -> Prop) (m : St W A) : Prop :=
  forall w, I w -> exists a w', m w = Ok (a, w') /\ I w' /\ Q a.

Definition anything {A} : A -> Prop := fun _ => True.

Definition fit_observer {C T} (J : C -> Prop) (P : T -> Prop) (o : Observer C T) : Prop :=
  (exists f, Next o = Some f /\ forall v, P v -> safe J anything (f v)) /\
  (forall g, Error o = Some g -> forall x, safe J anything (g x)) /\
  (forall g, Complete o = Some g -> safe J anything g).

Definition fit_stream {C W T} (I : W -> Prop) (J : C -> Prop) (P : T -> Prop)
    (s : Stream C W T) : Prop :=
  forall o, fit_observer J P o -> safe I (safe I anything) (s o).

(** The invariant [I] of a world is kept by what happens in the part of
    it that [L] shows, as long as [J] is kept there. *)
Class Extends {W C} (L : Lens W C) (I : W -> Prop) (J : C -> Prop) : Prop := {
  ext_view : forall w, I w -> J (view w);
  ext_update : forall w c, I w -> J c -> I (update c w)
}.

Definition any_base : Base -> Prop := fun _ => True.

(** The invariant of a closure store: every stored closure satisfies
    [S], and the world below satisfies [J]. *)
Definition layer_inv {X C} (S : X -> Prop) (J : C -> Prop) (w : Layer X C) : Prop :=
  (forall k x, slots w !! k = Some x -> S x) /\ J (below w).

(** A listener is fit when registering a safe callback and closing are
    safe. *)
Definition fit_listener {C W T} (I : W -> Prop) (J : C -> Prop) (P : T -> Prop)
    (l : Listener C W T) : Prop :=
  (forall f, (forall v, P v -> safe J anything (f v)) -> safe I anything (Listen l f)) /\
  safe I anything (Close l).

Definition listener_inv {C T} (J : C -> Prop) (P : T -> Prop)
  : Layer (T -> St C unit) C -> Prop :=
  layer_inv (fun f => forall v, P v -> safe J anything (f v)) J.

(** The channel is closed by the function of the [sync.Once] only. *)
Definition guarded {C} (J : C -> Prop) (v : PeriodicVars C) : Prop :=
  fit_observer J anything (p_observer v) /\ (p_closeCh v = false -> p_done v = false).

Definition periodic_inv {C} (J : C -> Prop) : Layer (PeriodicVars C) C -> Prop :=
  layer_inv (guarded J) J.

(** Every Subscription kept for [innerSub] is safe to call. *)
Definition flatten_inv {W} (I : W -> Prop) : Layer (Subscription W) W -> Prop :=
  layer_inv (safe I anything) I.

(** ** Drivers for the other producers and consumers *)

(** The life of one FromListener stream, seen through an operator [op]
    put in front of it: events of the listener before the Stream is
    activated, while it is active, and after its Subscription ran. *)
Definition Listener_life {T} `{Storable T}
    (op : Stream Base (Layer (T -> St Base unit) Base) T ->
          Stream Base (Layer (T -> St Base unit) Base) T)
    (pol : list event -> T -> bool) (e c : bool) (before during after : list T)
  : St (Layer (T -> St Base unit) Base) unit :=
  l <- new_Listenable;
  do each (Listenable_Accept l) before;
  cancel <- op (FromListener (Listenable l)) (probe pol e c);
  do each (Listenable_Accept l) during;
  do cancel;
  each (Listenable_Accept l) after.


Section WrappedMerge.
Context {T : Type} `{ST : Storable T}.
Variable pol : list event -> T -> bool.
Variables e c : bool.

(** The Observer [Merge] hands to each of its sources. *)
Definition Merge_obs (len_streams : Z) (numCompleted : loc) : Observer Base T :=
  {| Next := Next (probe pol e c);
     Complete := Some (Merge_complete len_streams (probe pol e c) numCompleted);
     Error := Error (probe pol e c) |}.
End WrappedMerge.


(** [Collect(ToSlice())] applied to an Accept stream, and values pushed
    once it has returned. *)
Definition Collect_Accept {T} `{Storable T} (vs : list T)
  : St (Layer (Observer Base T) Base) (list T * list bool) :=
  ' (accept, s) <- Accept None;
  fn <- lift ToSlice;
  collect <- lift (Collect fn);
  r <- collect s;
  answers <- pushes accept vs;
  ret (r, answers).


(** What [Periodic] tells a recording observer over [k] ticks, the
    counter being at [i]: the tick numbers in order up to the first one
    that is refused, after which the ticker is stopped and the observer
    completed. *)
Fixpoint ticked (pol : list event -> Z -> bool) (c : bool)
    (h : list event) (i : Z) (k : nat) : list event :=
  match k with
  | O => []
  | S k' =>
      if pol h i
      then EvNext (VInt i) true
           :: ticked pol c (h ++ [EvNext (VInt i) true]) (int_wrap (i + 1)) k'
      else EvNext (VInt i) false :: EvTickerStop :: (if c then [EvComplete] else [])
  end.

(** One activation of [Periodic]: ticks, then calls of the Subscription,
    then ticks again. *)
Definition Periodic_life (pol : list event -> Z -> bool) (e c : bool)
    (ticks cancels later : nat) : St (Layer (PeriodicVars Base) Base) unit :=
  cancel <- Periodic 500 (probe pol e c);
  do times ticks (tick 0);
  do times cancels cancel;
  times later (tick 0).


(** One Accept stream activated twice, the second time while the first
    observer is still registered; then the first Subscription is called. *)
Definition Accept_twice {T} `{Storable T}
    (pol1 pol2 : list event -> T -> bool) (c1 c2 : bool) (first second after : list T)
  : St (Layer (Observer Base T) Base) (list bool * list bool * list bool) :=
  ' (accept, s) <- Accept None;
  cancel1 <- s (probe pol1 false c1);
  r1 <- pushes accept first;
  _ <- s (probe pol2 false c2);
  r2 <- pushes accept second;
  do cancel1;
  r3 <- pushes accept after;
  ret (r1, r2, r3).


(** ** collect.go: ToSet

    A map value is modelled by its contents (a nil map reads as the
    empty map), in the way a slice is modelled by its elements; map keys
    are values of a countable type. *)
Definition map_entry {K} `{Storable K} (kv : K * bool) : val :=
  VSlice [to_val (fst kv); VBool (snd kv)].

Definition entry_of {K} `{Storable K} (v : val) : K * bool :=
  match v with
  | VSlice [k; VBool b] => (of_val k, b)
  | _ => (zero, false)
  end.

#[global, refine] Instance Storable_map {K} `{Storable K} `{Countable K}
  : Storable (gmap K bool) :=
  {| zero := ∅;
     to_val := fun m => VSlice (List.map map_entry (map_to_list m));
     of_val := fun v => match v with
                        | VSlice l => list_to_map (List.map entry_of l)
                        | _ => ∅
                        end |}.
Proof.
  intros m. rewrite List.map_map.
  rewrite (List.map_ext _ id).
  - rewrite List.map_id. apply list_to_map_to_list.
  - intros [k b]. unfold entry_of, map_entry; simpl. now rewrite of_to_val.
Defined.

Section ToSet.
Context {C T : Type} `{LB : Lens C Base} `{ST : Storable T} `{CT : Countable T}.

Definition ToSet : St C (T -> St C (gmap T bool)) :=
  m <- new (∅ : gmap T bool);
  ret (fun t => m0 <- get m; do set m (<[t := true]> m0); get m).
End ToSet.


(** [Take n] over [Periodic], then [ticks] ticks. *)
Definition Take_Periodic (n : Z) (e c : bool) (ticks : nat)
  : St (Layer (PeriodicVars Base) Base) unit :=
  _ <- Take n (Periodic 500) (probe accept_all e c);
  times ticks (tick 0).


(** A user-written source that fails at once: it reports [err] to the
    observer's [Error], when that is set, and sends nothing. *)
Section Failing.
Context {C W T : Type} `{L : Lens W C}.

Definition Failing (err : error) : Stream C W T :=
  fun observer =>
    do lift (match Error observer with Some f => f err | None => ret tt end);
    ret noop.
End Failing.

(** * Lemmas and theorems *)

Example test_From_Reduce_Observe :
  trace_of ((Reduce 10 add (From [1; 2; 3]) (probe accept_all false false)) empty_base)
  = Some [EvNext (VInt 10) true; EvNext (VInt 11) true;
          EvNext (VInt 13) true; EvNext (VInt 16) true].
Proof. vm_compute. reflexivity. Qed.

Example test_From_Take_Map_StartWith_ForEach :
  option_map (fun tr => length (nexts tr))
    (trace_of ((StartWith 10 (Map (fun i => i * 2) (Take 5 (From [1; 2; 3; 4; 5; 6])))
                 (probe accept_all false false)) empty_base))
  = Some 6%nat.
Proof. vm_compute. reflexivity. Qed.

Example test_From_CollectSlice :
  result_of ((fn <- ToSlice; collect <- Collect fn; collect (From [1; 2; 3])) empty_base)
  = Some [1; 2; 3].
Proof. vm_compute. reflexivity. Qed.

Example test_FromListener :
  trace_of (Listener_life (fun s => s) accept_all false false [] [0; 1; 2] []
              (empty_layer empty_base))
  = Some [EvListen; EvNext (VInt 0) true; EvNext (VInt 1) true; EvNext (VInt 2) true;
          EvClose].
Proof. vm_compute. reflexivity. Qed.

Example test_From_CollectSet :
  result_of ((fn <- ToSet; collect <- Collect fn; collect (From [1; 2; 3; 2])) empty_base)
  = Some (<[1 := true]> (<[2 := true]> (<[3 := true]> ∅))).
Proof. vm_compute. reflexivity. Qed.

Example test_Take_zero :
  trace_of ((Take 0 (From [1; 2; 3]) (probe accept_all false true)) empty_base)
  = Some [EvNext (VInt 1) true; EvNext (VInt 2) true; EvNext (VInt 3) true; EvComplete].
Proof. vm_compute. reflexivity. Qed.

Example test_From_Flatten_ForEach :
  trace_of (W := Layer (Subscription Base) Base) (H := lens_below _ _)
    ((Flatten (Map (fun x : Z => From (C := Base) (W := Base) [x]) (From [1; 3; 5]))
        (probe accept_all false true)) (empty_layer empty_base))
  = Some [EvNext (VInt 1) true; EvNext (VInt 3) true; EvNext (VInt 5) true].
Proof. vm_compute. reflexivity. Qed.

Example test_Periodic_Filter_Take_Map_Subscribe :
  trace_of (Periodic_Filter_Take_Map_Subscribe 12 (empty_layer empty_base))
  = Some [EvNext (VInt 0) true; EvNext (VInt 4) true; EvNext (VInt 8) true;
          EvNext (VInt 12) true; EvNext (VInt 16) true; EvTickerStop; EvComplete].
Proof. vm_compute. reflexivity. Qed.

Example test_From_Periodic_Merge_Take_Map_ForEach :
  trace_of (From_Periodic_Merge_Take_Map_ForEach 6 (empty_layer empty_base))
  = Some [EvNext (VInt 20) true; EvNext (VInt 40) true; EvNext (VInt 0) true;
          EvNext (VInt 2) true; EvNext (VInt 4) true; EvTickerStop].
Proof. vm_compute. reflexivity. Qed.

Example test_Flatten_Accepts :
  let r := Flatten_Accepts (empty_layer (empty_layer empty_base)) in
  result_of r = Some [false; true; false] /\
  trace_of (H := lens_comp (lens_below _ _) (lens_below _ _)) r
  = Some [EvCancel 1; EvNext (VInt 20) true; EvComplete; EvCancel 2].
Proof. vm_compute. split; reflexivity. Qed.

(** ** Running at the first-order world *)

Lemma log_nil w : log [] w = w.
Proof. destruct w; unfold log; simpl. now rewrite app_nil_r. Qed.

Lemma log_log es1 es2 w : log es2 (log es1 w) = log (es1 ++ es2) w.
Proof. unfold log; simpl. now rewrite app_assoc. Qed.

Lemma trace_log es w : trace (log es w) = trace w ++ es.
Proof. reflexivity. Qed.

Lemma peek_poke l v w : peek l (poke l v w) = v.
Proof. unfold peek, poke; simpl. now rewrite lookup_insert_eq. Qed.

Lemma peek_poke_ne l l' v w : l <> l' -> peek l' (poke l v w) = peek l' w.
Proof. intros. unfold peek, poke; simpl. now rewrite lookup_insert_ne. Qed.

Lemma peek_alloc l v h n tr : peek l (mkBase (<[l := v]> h) n tr) = v.
Proof. unfold peek; simpl. now rewrite lookup_insert_eq. Qed.

Lemma peek_log l es w : peek l (log es w) = peek l w.
Proof. reflexivity. Qed.

Lemma poke_log l v es w : poke l v (log es w) = log es (poke l v w).
Proof. reflexivity. Qed.

Lemma trace_poke l v w : trace (poke l v w) = trace w.
Proof. reflexivity. Qed.

Lemma bind_run {W A B} (m : St W A) (k : A -> St W B) w a w' :
  m w = Ok (a, w') -> bind m k w = k a w'.
Proof. unfold bind. now intros ->. Qed.

Lemma get_run {A} `{Storable A} l (w : Base) :
  get (A := A) l w = Ok (of_val (peek l w), w).
Proof. reflexivity. Qed.

Lemma set_run {A} `{Storable A} l (a : A) (w : Base) :
  set l a w = Ok (tt, poke l (to_val a) w).
Proof. reflexivity. Qed.

Lemma new_run {A} `{Storable A} (a : A) (w : Base) :
  new a w = Ok (next_loc w,
                mkBase (<[next_loc w := to_val a]> (heap w)) (S (next_loc w)) (trace w)).
Proof. reflexivity. Qed.

Lemma emit_run e (w : Base) : emit e w = Ok (tt, log [e] w).
Proof. reflexivity. Qed.

Lemma lift_run {A} (m : St Base A) (w : Base) : lift m w = m w.
Proof. unfold lift; simpl. destruct (m w) as [[a c]|]; reflexivity. Qed.

Lemma probe_next_run {T} `{Storable T} (pol : list event -> T -> bool) v (w : Base) :
  probe_next pol v w
  = Ok (pol (trace w) v, log [EvNext (to_val v) (pol (trace w) v)] w).
Proof. reflexivity. Qed.

Lemma probe_complete_run {T} `{Storable T} (pol : list event -> T -> bool) e c (w : Base) :
  call_if_not_nil (Complete (probe pol e c)) w
  = Ok (tt, log (if c then [EvComplete] else []) w).
Proof. destruct c; simpl; [reflexivity|]. unfold ret. now rewrite log_nil. Qed.

#[global] Opaque get set new emit probe_next.

(** ** From *)

Lemma From_loop_served {T} `{Storable T} (pol : list event -> T -> bool)
    (o : Observer Base T) args :
  (forall v w, call1 (Next o) v w = probe_next pol v w) ->
  forall w : Base,
    From_loop o args w = Ok (tt, log (served pol (trace w) args) w).
Proof.
  intros Ho. induction args as [|v rest IH]; intros w; simpl.
  - unfold ret. now rewrite log_nil.
  - erewrite bind_run by (rewrite Ho; apply probe_next_run).
    destruct (pol (trace w) v); simpl.
    + rewrite IH, log_log. reflexivity.
    + reflexivity.
Qed.

Lemma From_loop_probe {T} `{Storable T} (pol : list event -> T -> bool) e c args :
  forall w : Base,
    From_loop (probe pol e c) args w = Ok (tt, log (served pol (trace w) args) w).
Proof. apply From_loop_served. reflexivity. Qed.

Lemma From_probe {T} `{Storable T} (pol : list event -> T -> bool) e c args (w : Base) :
  From args (probe pol e c) w
  = Ok (noop, log (served pol (trace w) args ++ (if c then [EvComplete] else [])) w).
Proof.
  unfold From.
  erewrite bind_run by (rewrite lift_run; apply From_loop_probe).
  erewrite bind_run by (rewrite lift_run; apply probe_complete_run).
  unfold ret. now rewrite log_log.
Qed.

Lemma served_accept_all {T} `{Storable T} (args : list T) h :
  served accept_all h args = List.map (fun v => EvNext (to_val v) true) args.
Proof.
  revert h. induction args as [|v rest IH]; intros h; simpl; [reflexivity|].
  now rewrite IH.
Qed.

Lemma nexts_served_prefix {T} `{Storable T} (pol : list event -> T -> bool) args :
  forall h, exists k, nexts (served pol h args) = List.map to_val (firstn k args).
Proof.
  induction args as [|v rest IH]; intros h; simpl.
  - exists 0%nat. reflexivity.
  - destruct (pol h v).
    + destruct (IH (h ++ [EvNext (to_val v) true])) as [k Hk].
      exists (S k). simpl. now rewrite Hk.
    + exists 1%nat. reflexivity.
Qed.

(** Only the last value served can have been refused. *)
Lemma served_stops {T} `{Storable T} (pol : list event -> T -> bool) args :
  forall h pre e post,
    served pol h args = pre ++ e :: post -> post <> [] -> answer e = true.
Proof.
  induction args as [|v rest IH]; intros h pre e post Heq Hpost; simpl in Heq.
  - now destruct pre.
  - destruct pre as [|p pre]; simpl in Heq; injection Heq as Hp Hrest.
    + subst e. simpl. destruct (pol h v); [reflexivity|]. congruence.
    + destruct (pol h v); [|now destruct pre].
      eapply IH; eassumption.
Qed.

Lemma served_all_accepted {T} `{Storable T} (pol : list event -> T -> bool) args :
  forall h, forallb answer (served pol h args) = true ->
            nexts (served pol h args) = List.map to_val args.
Proof.
  induction args as [|v rest IH]; intros h Hall; simpl in *; [reflexivity|].
  apply andb_true_iff in Hall as [Hv Hrest]. rewrite Hv in *.
  now rewrite IH.
Qed.

Lemma completes_served {T} `{Storable T} (pol : list event -> T -> bool) args :
  forall h, completes (served pol h args) = 0%nat.
Proof.
  unfold completes.
  induction args as [|v rest IH]; intros h; simpl; [reflexivity|].
  destruct (pol h v); [apply IH | reflexivity].
Qed.

Lemma completes_app tr1 tr2 : completes (tr1 ++ tr2) = (completes tr1 + completes tr2)%nat.
Proof. unfold completes. now rewrite List.filter_app, length_app. Qed.

(** ** Collect with ToSlice *)

Section CollectSlice.
Context {T : Type} `{ST : Storable T}.

Lemma Collect_loop (a x : loc) (args : list T) :
  a <> x ->
  forall (w : Base) (acc : list T),
    of_val (peek a w) = acc ->
    exists w', From_loop (Collect_obs a x) args w = Ok (tt, w') /\
               of_val (peek a w') = acc ++ args /\
               (args = [] -> w' = w) /\
               (args <> [] -> of_val (peek x w') = acc ++ args).
Proof.
  intros Hax. induction args as [|t rest IH]; intros w acc Hacc.
  - exists w. simpl. rewrite app_nil_r. repeat split; try assumption. congruence.
  - cbn [From_loop Collect_obs Next call1]. unfold ToSlice_fn.
    set (w1 := poke a (to_val (acc ++ [t])) w).
    set (w2 := poke x (to_val (acc ++ [t])) w1).
    assert (Hstep : (r <- (a0 <- get a; do set a (a0 ++ [t]); get (A := list T) a);
                      do set x r; ret true) w = Ok (true, w2)).
    { erewrite bind_run; cycle 1.
      { erewrite bind_run by apply get_run.
        erewrite bind_run by apply set_run.
        rewrite get_run, Hacc. fold w1. unfold w1 at 1.
        rewrite peek_poke, of_to_val. reflexivity. }
      erewrite bind_run by apply set_run. reflexivity. }
    erewrite bind_run by exact Hstep. simpl.
    destruct (IH w2 (acc ++ [t])) as (w' & Hrun & Ha & _ & Hx).
    { unfold w2. rewrite peek_poke_ne by congruence.
      unfold w1. now rewrite peek_poke, of_to_val. }
    exists w'. rewrite Hrun, <- app_assoc in *.
    repeat split; try assumption; try congruence.
    intros _. destruct rest as [|t' rest'].
    + injection Hrun as <-.
      change (of_val (peek x w2) = acc ++ [t]).
      unfold w2. now rewrite peek_poke, of_to_val.
    + apply Hx. congruence.
Qed.
End CollectSlice.

Lemma Collect_ToSlice_From {T} `{Storable T} (args : list T) (w : Base) :
  result_of ((fn <- ToSlice; collect <- Collect fn; collect (From args)) w) = Some args.
Proof.
  unfold ToSlice, Collect.
  erewrite bind_run; cycle 1.
  { erewrite bind_run by apply new_run. reflexivity. }
  erewrite bind_run; cycle 1.
  { erewrite bind_run by apply new_run. reflexivity. }
  set (a := next_loc w).
  set (w1 := mkBase (<[a := to_val (zero : list T)]> (heap w)) (S a) (trace w)).
  set (w2 := mkBase (<[S a := to_val (zero : list T)]> (heap w1)) (S (S a)) (trace w1)).
  assert (Hax : a <> S a) by lia.
  destruct (Collect_loop (T := T) args Hax w2 (acc := [])) as (w' & Hrun & _ & Hnil & Hcons).
  { unfold peek, w2, w1; simpl.
    rewrite lookup_insert_ne by lia. now rewrite lookup_insert_eq. }
  unfold From.
  erewrite bind_run; cycle 1.
  { erewrite bind_run by (rewrite lift_run; exact Hrun).
    erewrite bind_run by (rewrite lift_run; reflexivity).
    reflexivity. }
  rewrite lift_run, get_run. simpl.
  destruct args as [|t rest].
  - rewrite Hnil by reflexivity.
    unfold peek, w2; simpl. now rewrite lookup_insert_eq.
  - f_equal. apply Hcons. congruence.
Qed.

(** C6.  Activated with a recording observer, [From args] calls [Next]
    on the values of [args] in order and stops after the first refusal
    (so what was delivered is a prefix of [args], only its last value can
    have been refused, and all of [args] is delivered when nothing is
    refused); then it calls [Complete] exactly once, at the end, when the
    callback is present, whether or not it stopped early; and
    [Collect(ToSlice())] over [From args] returns [args]. *)
Theorem From_replays_args_in_order {T} `{Storable T}
    (args : list T) (pol : list event -> T -> bool) (e c : bool) (w : Base) :
  let told := served pol (trace w) args in
  let done := if c then [EvComplete] else [] in
  From args (probe pol e c) w = Ok (noop, log (told ++ done) w)
  /\ (exists k, nexts told = List.map to_val (firstn k args))
  /\ (forall pre ev post, told = pre ++ ev :: post -> post <> [] -> answer ev = true)
  /\ (forallb answer told = true -> nexts told = List.map to_val args)
  /\ completes (told ++ done) = (if c then 1%nat else 0%nat)
  /\ result_of ((fn <- ToSlice; collect <- Collect fn; collect (From args)) w)
     = Some args.
Proof.
  intros told done. repeat split.
  - apply From_probe.
  - apply nexts_served_prefix.
  - apply served_stops.
  - apply served_all_accepted.
  - rewrite completes_app. unfold told. rewrite completes_served.
    unfold done. now destruct c.
  - apply Collect_ToSlice_From.
Qed.

Lemma From_replays_args_in_order_witness :
  nexts (served accept_all [] [1; 2; 3]) = [VInt 1; VInt 2; VInt 3]
  /\ answer (EvNext (VInt 1) true) = true.
Proof.
  destruct (From_replays_args_in_order [1; 2; 3] accept_all false true empty_base)
    as (_ & _ & Hstops & Hall & _).
  split.
  - apply Hall. reflexivity.
  - apply (Hstops [] (EvNext (VInt 1) true)
             [EvNext (VInt 2) true; EvNext (VInt 3) true]).
    + reflexivity.
    + discriminate.
Defined.

(** ** Take *)

Lemma int_wrap_small z : - 2 ^ 63 <= z <= max_int -> int_wrap z = z.
Proof.
  unfold int_wrap, max_int. intros Hz.
  rewrite Z.mod_small by lia. lia.
Qed.

Section TakeFrom.
Context {T : Type} `{ST : Storable T}.
Variable pol : list event -> T -> bool.
Variables e c : bool.

Lemma Take_next_probe n i v (w : Base) :
  let ev := EvNext (to_val v) (pol (trace w) v) in
  let i1 := int_wrap (of_val (peek i w) + 1) in
  Take_next n (probe pol e c) i v w
  = Ok (pol (trace w) v && negb (i1 =? n), poke i (VInt i1) (log [ev] w)).
Proof.
  intros ev i1. unfold Take_next.
  erewrite bind_run by apply probe_next_run.
  erewrite bind_run by apply get_run.
  erewrite bind_run by apply set_run.
  erewrite bind_run by apply get_run.
  rewrite peek_poke, peek_log. fold i1. fold ev.
  change (of_val (to_val i1)) with i1.
  destruct (pol (trace w) v), (i1 =? n); reflexivity.
Qed.

(** With [1 <= n], the counter meets [n] after exactly [n] values. *)
Lemma Take_loop_pos n i args :
  n <= max_int ->
  forall (w : Base) (i0 : Z),
    peek i w = VInt i0 -> 0 <= i0 < n ->
    exists w', From_loop (Take_obs pol e c n i) args w = Ok (tt, w') /\
               trace w' = trace w
                          ++ firstn (Z.to_nat (n - i0)) (served pol (trace w) args).
Proof.
  intros Hn. induction args as [|v rest IH]; intros w i0 Hi Hi0.
  - exists w. split; [reflexivity|]. rewrite firstn_nil. now rewrite app_nil_r.
  - cbn [From_loop Take_obs Next call1].
    erewrite bind_run by apply Take_next_probe.
    rewrite Hi. change (of_val (VInt i0)) with i0.
    rewrite int_wrap_small by (unfold max_int in *; lia).
    replace (Z.to_nat (n - i0)) with (S (Z.to_nat (n - (i0 + 1)))) by lia.
    cbn [served firstn].
    destruct (pol (trace w) v) eqn:Hpol; cbn [andb negb].
    + destruct (i0 + 1 =? n) eqn:Hlast; cbn [negb].
      * apply Z.eqb_eq in Hlast.
        eexists. split; [reflexivity|].
        replace (n - (i0 + 1)) with 0 by lia. reflexivity.
      * apply Z.eqb_neq in Hlast.
        edestruct (IH (poke i (VInt (i0 + 1)) (log [EvNext (to_val v) true] w)) (i0 + 1))
          as (w' & Hrun & Htr).
        { apply peek_poke. }
        { lia. }
        exists w'. split; [exact Hrun|].
        rewrite Htr, trace_poke, trace_log, <- app_assoc. reflexivity.
    + eexists. split; [reflexivity|].
      rewrite firstn_nil. reflexivity.
Qed.

(** With [n = 0] the counter is already past [n] at the first test,
    and never meets it. *)
Lemma Take_loop_zero i args :
  forall (w : Base) (i0 : Z),
    peek i w = VInt i0 -> 0 <= i0 -> i0 + Z.of_nat (length args) <= max_int ->
    exists w', From_loop (Take_obs pol e c 0 i) args w = Ok (tt, w') /\
               trace w' = trace w ++ served pol (trace w) args.
Proof.
  induction args as [|v rest IH]; intros w i0 Hi Hi0 Hlen.
  - exists w. split; [reflexivity|]. now rewrite app_nil_r.
  - cbn [From_loop Take_obs Next call1].
    erewrite bind_run by apply Take_next_probe.
    rewrite Hi. change (of_val (VInt i0)) with i0.
    cbn [length] in Hlen.
    rewrite int_wrap_small by (unfold max_int in *; lia).
    replace (i0 + 1 =? 0) with false by (symmetry; apply Z.eqb_neq; lia).
    cbn [served negb]. rewrite andb_true_r.
    destruct (pol (trace w) v) eqn:Hpol; cbn [negb].
    + edestruct (IH (poke i (VInt (i0 + 1)) (log [EvNext (to_val v) true] w)) (i0 + 1))
        as (w' & Hrun & Htr).
      { apply peek_poke. }
      { lia. }
      { lia. }
      exists w'. split; [exact Hrun|].
      rewrite Htr, trace_poke, trace_log, <- app_assoc. reflexivity.
    + eexists. split; reflexivity.
Qed.
End TakeFrom.

Section TakeFromRun.
Context {T : Type} `{ST : Storable T}.
Variable pol : list event -> T -> bool.
Variables e c : bool.

Lemma Take_From_pos n args (w : Base) :
  1 <= n <= max_int ->
  exists w',
    Take n (From args) (probe pol e c) w = Ok (noop, w') /\
    trace w' = trace w ++ firstn (Z.to_nat n) (served pol (trace w) args)
                       ++ (if c then [EvComplete] else []).
Proof.
  intros Hn. unfold Take.
  erewrite bind_run by (rewrite lift_run; apply new_run).
  set (w0 := mkBase _ _ _).
  destruct (Take_loop_pos pol e c (n := n) (next_loc w) args (proj2 Hn) w0 (i0 := 0))
    as (w1 & Hrun & Htr).
  { unfold peek, w0; simpl. now rewrite lookup_insert_eq. }
  { lia. }
  unfold From.
  erewrite bind_run by (rewrite lift_run; exact Hrun).
  erewrite bind_run
    by (rewrite lift_run; apply (probe_complete_run pol e c)).
  eexists. split; [reflexivity|].
  rewrite trace_log, Htr, Z.sub_0_r, <- app_assoc. reflexivity.
Qed.

Lemma Take_From_zero args (w : Base) :
  Z.of_nat (length args) <= max_int ->
  exists w',
    Take 0 (From args) (probe pol e c) w = Ok (noop, w') /\
    trace w' = trace w ++ served pol (trace w) args
                       ++ (if c then [EvComplete] else []).
Proof.
  intros Hlen. unfold Take.
  erewrite bind_run by (rewrite lift_run; apply new_run).
  set (w0 := mkBase _ _ _).
  destruct (Take_loop_zero pol e c (next_loc w) args w0 (i0 := 0))
    as (w1 & Hrun & Htr).
  { unfold peek, w0; simpl. now rewrite lookup_insert_eq. }
  { lia. }
  { lia. }
  unfold From.
  erewrite bind_run by (rewrite lift_run; exact Hrun).
  erewrite bind_run
    by (rewrite lift_run; apply (probe_complete_run pol e c)).
  eexists. split; [reflexivity|].
  rewrite trace_log, Htr, <- app_assoc. reflexivity.
Qed.

(** The call that brings the counter to [n] answers false whatever the
    downstream answered. *)
Lemma Take_next_nth n i v (w : Base) :
  1 <= n <= max_int -> peek i w = VInt (n - 1) ->
  result_of (Take_next n (probe pol e c) i v w) = Some false.
Proof.
  intros Hn Hi. rewrite Take_next_probe, Hi.
  change (of_val (VInt (n - 1))) with (n - 1).
  rewrite int_wrap_small by (unfold max_int in *; lia).
  replace (n - 1 + 1) with n by lia.
  rewrite Z.eqb_refl. simpl. now rewrite andb_false_r.
Qed.
End TakeFromRun.

Lemma nexts_length_le tr : (length (nexts tr) <= length tr)%nat.
Proof.
  induction tr as [|ev tr IH]; simpl; [lia|].
  destruct ev; simpl; lia.
Qed.

(** For [1 <= n], [Take n] over [From args] forwards at most [n] values
    and then completes. *)
Lemma Take_pos_forwards_at_most_n {T} `{Storable T}
    (pol : list event -> T -> bool) (e c : bool) n (args : list T) :
  1 <= n <= max_int ->
  exists tr, trace_of (Take n (From args) (probe pol e c) empty_base) = Some tr /\
             (length (nexts tr) <= Z.to_nat n)%nat /\
             completes tr = (if c then 1%nat else 0%nat).
Proof.
  intros Hn.
  destruct (Take_From_pos pol e c args empty_base Hn) as (w' & Hrun & Htr).
  rewrite Hrun. simpl in *. exists (trace w'). split; [reflexivity|].
  rewrite Htr. split.
  - unfold nexts. rewrite flat_map_app.
    rewrite length_app.
    assert (length (flat_map (fun e0 => match e0 with EvNext v _ => [v] | _ => [] end)
                      (if c then [EvComplete] else [])) = 0%nat) as -> by now destruct c.
    pose proof (nexts_length_le (firstn (Z.to_nat n) (served pol [] args))) as Hle.
    unfold nexts in Hle. rewrite length_firstn in Hle. lia.
  - rewrite completes_app.
    assert (completes (firstn (Z.to_nat n) (served pol [] args)) = 0%nat) as ->.
    { pose proof (completes_served pol args []) as Hs.
      rewrite <- (firstn_skipn (Z.to_nat n) (served pol [] args)), completes_app in Hs.
      lia. }
    now destruct c.
Qed.

(** C1.  [Take(0)] does not stop at the first value: applied to
    [From(1, 2, 3)] it forwards all three values to the downstream
    observer, and answers true to its source each time. *)
Theorem Take_zero_forwards_every_value :
  trace_of (Take 0 (From [1; 2; 3]) (probe accept_all false true) empty_base)
  = Some [EvNext (VInt 1) true; EvNext (VInt 2) true; EvNext (VInt 3) true; EvComplete]
  /\ result_of (Take_next 0 (probe accept_all false true) 0%nat 1
                  (mkBase {[0%nat := VInt 0]} 1%nat []))
     = Some true.
Proof. split; vm_compute; reflexivity. Qed.


(** ** Reduce *)

Lemma length_scan {T U} (f : U -> T -> U) args :
  forall acc, length (scan f acc args) = length args.
Proof. induction args as [|v rest IH]; intros acc; simpl; [reflexivity|]. now rewrite IH. Qed.

Section ReduceFrom.
Context {T U : Type} `{SU : Storable U}.
Variable f : U -> T -> U.
Variable pol : list event -> U -> bool.
Variables e c : bool.

Lemma Reduce_next_probe current v (w : Base) :
  let acc := f (of_val (peek current w)) v in
  let w1 := poke current (to_val acc) w in
  Reduce_next f (probe pol e c) current v w
  = Ok (pol (trace w) acc, log [EvNext (to_val acc) (pol (trace w) acc)] w1).
Proof.
  intros acc w1. unfold Reduce_next.
  erewrite bind_run by apply get_run.
  erewrite bind_run by apply set_run.
  erewrite bind_run by apply get_run.
  fold acc. fold w1. unfold w1 at 1. rewrite peek_poke, of_to_val.
  cbn [probe Next call1]. now rewrite probe_next_run.
Qed.

Lemma Reduce_loop current args :
  forall (w : Base) (acc : U),
    of_val (peek current w) = acc ->
    exists w', From_loop (Reduce_obs f pol e c current) args w = Ok (tt, w') /\
               trace w' = trace w ++ served pol (trace w) (scan f acc args).
Proof.
  induction args as [|v rest IH]; intros w acc Hacc.
  - exists w. split; [reflexivity|]. simpl. now rewrite app_nil_r.
  - cbn [From_loop Reduce_obs Next call1 scan served].
    erewrite bind_run by apply Reduce_next_probe.
    rewrite Hacc.
    destruct (pol (trace w) (f acc v)) eqn:Hpol; cbn [negb].
    + edestruct (IH (log [EvNext (to_val (f acc v)) true]
                       (poke current (to_val (f acc v)) w)) (f acc v))
        as (w' & Hrun & Htr).
      { now rewrite peek_log, peek_poke, of_to_val. }
      exists w'. split; [exact Hrun|].
      rewrite Htr, trace_log, trace_poke, <- app_assoc. reflexivity.
    + eexists. split; reflexivity.
Qed.

Lemma Reduce_run initialValue (source : Stream Base Base T) (w : Base) :
  Reduce initialValue f source (probe pol e c) w
  = if pol (trace w) initialValue
    then source (Reduce_obs f pol e c (next_loc w)) (Reduce_started pol initialValue w)
    else Ok (noop, Reduce_started pol initialValue w).
Proof.
  unfold Reduce.
  erewrite bind_run by (rewrite lift_run; apply new_run).
  erewrite bind_run by (rewrite lift_run; apply get_run).
  rewrite peek_alloc, of_to_val.
  erewrite bind_run by (rewrite lift_run; apply (probe_next_run pol)).
  cbn [trace]. unfold Reduce_started.
  destruct (pol (trace w) initialValue); reflexivity.
Qed.

Lemma Reduce_From initialValue args (w : Base) :
  exists w',
    Reduce initialValue f (From args) (probe pol e c) w = Ok (noop, w') /\
    trace w' = trace w ++ served pol (trace w) (initialValue :: scan f initialValue args)
                       ++ (if pol (trace w) initialValue && c then [EvComplete] else []).
Proof.
  rewrite Reduce_run. cbn [served].
  destruct (pol (trace w) initialValue) eqn:Hpol.
  - destruct (Reduce_loop (next_loc w) args (Reduce_started pol initialValue w)
                (acc := initialValue)) as (w1 & Hrun & Htr).
    { unfold Reduce_started. now rewrite peek_log, peek_alloc, of_to_val. }
    unfold From.
    erewrite bind_run by (rewrite lift_run; exact Hrun).
    erewrite bind_run by (rewrite lift_run; apply (probe_complete_run pol e c)).
    eexists. split; [reflexivity|].
    rewrite trace_log, Htr. unfold Reduce_started. rewrite trace_log. cbn [trace].
    rewrite Hpol, <- !app_assoc. reflexivity.
  - eexists. split; [reflexivity|].
    unfold Reduce_started. rewrite trace_log. cbn [trace andb].
    rewrite Hpol. reflexivity.
Qed.
End ReduceFrom.

(** C5.  Activated with a recording observer, [Reduce(initial, f)] over
    [From(v1..vk)] tells the observer [initial, f(initial, v1),
    f(f(initial, v1), v2), ...] in this order, as long as the observer
    accepts: [k + 1] values when it accepts them all.  When the observer
    refuses [initial], whatever the source, the Subscription returned is
    the no-op one and the world is the one left by the declaration of
    the accumulator and that single [Next] call: the source was not
    activated. *)
Theorem Reduce_emits_running_accumulations {T U} `{Storable U}
    (initialValue : U) (f : U -> T -> U) (args : list T)
    (pol : list event -> U -> bool) (e c : bool) (w : Base) :
  let told := served pol (trace w) (initialValue :: scan f initialValue args) in
  (exists w', Reduce initialValue f (From args) (probe pol e c) w = Ok (noop, w') /\
              trace w' = trace w ++ told
                         ++ (if pol (trace w) initialValue && c then [EvComplete] else []))
  /\ (forallb answer told = true ->
      nexts told = List.map to_val (initialValue :: scan f initialValue args) /\
      length (nexts told) = S (length args))
  /\ (pol (trace w) initialValue = false ->
      forall source : Stream Base Base T,
        Reduce initialValue f source (probe pol e c) w
        = Ok (noop, Reduce_started pol initialValue w) /\
        trace (Reduce_started pol initialValue w)
        = trace w ++ [EvNext (to_val initialValue) false]).
Proof.
  intros told. split; [apply Reduce_From|]. split.
  - intros Hall. pose proof (served_all_accepted _ _ _ Hall) as Hn.
    split; [exact Hn|].
    unfold told. rewrite Hn, length_map. simpl. now rewrite length_scan.
  - intros Hrej source. rewrite Reduce_run, Hrej. split; [reflexivity|].
    unfold Reduce_started. rewrite trace_log. cbn [trace]. now rewrite Hrej.
Qed.

Lemma Reduce_emits_running_accumulations_witness :
  nexts (served accept_all [] (10 :: scan add 10 [1; 2; 3]))
  = [VInt 10; VInt 11; VInt 13; VInt 16]
  /\ Reduce 10 add (From [1; 2; 3]) (probe (fun _ _ => false) false true) empty_base
     = Ok (noop, Reduce_started (fun _ _ => false) 10 empty_base).
Proof.
  split.
  - destruct (Reduce_emits_running_accumulations 10 add [1; 2; 3]
                accept_all false true empty_base) as (_ & Hall & _).
    apply Hall. reflexivity.
  - destruct (Reduce_emits_running_accumulations 10 add [1; 2; 3]
                (fun _ _ => false) false true empty_base) as (_ & _ & Hrefused).
    apply Hrefused. reflexivity.
Defined.

(** ** Merge *)

Ltac Zbool :=
  repeat match goal with
         | |- context [?a <? ?b] => destruct (Z.ltb_spec a b)
         | |- context [?a <=? ?b] => destruct (Z.leb_spec a b)
         | |- context [?a =? ?b] => destruct (Z.eqb_spec a b)
         end;
  cbn [andb orb negb]; try reflexivity; try lia.

Section MergeComplete.
Context {T : Type} `{ST : Storable T}.
Variable pol : list event -> T -> bool.
Variables e c : bool.

Lemma Merge_complete_run k l (w : Base) :
  let j1 := int_wrap (of_val (peek l w) + 1) in
  Merge_complete k (probe pol e c) l w
  = Ok (tt, log (if (j1 =? k) && c then [EvComplete] else []) (poke l (VInt j1) w)).
Proof.
  intros j1. unfold Merge_complete.
  erewrite bind_run by apply get_run.
  erewrite bind_run by apply set_run.
  erewrite bind_run by apply get_run.
  rewrite peek_poke. fold j1. change (of_val (to_val j1)) with j1.
  destruct (j1 =? k); cbn [andb].
  - apply (probe_complete_run pol).
  - unfold ret. now rewrite log_nil.
Qed.

(** From a counter at [j], [m] more source completions fire the
    downstream [Complete] once if the counter passes through [k], and not
    at all otherwise. *)
Lemma Merge_complete_times k l (m : nat) :
  forall (w : Base) (j : Z),
    peek l w = VInt j -> 0 <= j -> j + Z.of_nat m <= max_int ->
    exists w',
      times m (Merge_complete k (probe pol e c) l) w = Ok (tt, w') /\
      peek l w' = VInt (j + Z.of_nat m) /\
      trace w' = trace w
                 ++ (if (j <? k) && (k <=? j + Z.of_nat m) && c then [EvComplete] else []).
Proof.
  induction m as [|m IH]; intros w j Hj Hj0 Hmax.
  - exists w. split; [reflexivity|]. rewrite Z.add_0_r. split; [exact Hj|].
    replace ((j <? k) && (k <=? j)) with false by Zbool.
    now rewrite app_nil_r.
  - cbn [times].
    erewrite bind_run by apply Merge_complete_run.
    rewrite Hj. change (of_val (VInt j)) with j.
    rewrite int_wrap_small by (unfold max_int in *; lia).
    edestruct (IH (log (if (j + 1 =? k) && c then [EvComplete] else [])
                     (poke l (VInt (j + 1)) w)) (j + 1)) as (w' & Hrun & Hpeek & Htr).
    { now rewrite peek_log, peek_poke. }
    { lia. }
    { lia. }
    exists w'. split; [exact Hrun|]. split.
    + rewrite Hpeek. f_equal. lia.
    + rewrite Htr, trace_log, trace_poke, <- app_assoc. f_equal.
      replace (j + 1 + Z.of_nat m) with (j + Z.of_nat (S m)) by lia.
      destruct c; rewrite ?andb_false_r, ?andb_true_r; [|reflexivity].
      Zbool.
Qed.
End MergeComplete.

Section Layered.
Context {X C : Type}.

Lemma lift_below_run {A} (m : St C A) (w : Layer X C) :
  lift m w = under w (m (below w)).
Proof. reflexivity. Qed.

Lemma lift_comp_below_run {A} (m : St C A) (w : Layer X C) :
  lift (L := lens_comp (lens_refl _) (lens_below _ _)) m w = under w (m (below w)).
Proof. unfold lift, under; simpl. destruct (m (below w)) as [[a c]|]; reflexivity. Qed.

Lemma lift_refl_run {W A} (m : St W A) (w : W) : lift (L := lens_refl W) m w = m w.
Proof. unfold lift; simpl. destruct (m w) as [[a c]|]; reflexivity. Qed.
End Layered.

Section MergeManual.
Context {T : Type} `{ST : Storable T}.
Variable pol : list event -> T -> bool.
Variables e c : bool.

Local Abbreviation MW := (Layer (Observer Base T) Base).

Lemma lookup_fill (o : Observer Base T) k : forall n sl j,
  (n <= j < n + k)%nat -> fill o n k sl !! j = Some o.
Proof.
  induction k as [|k IH]; intros n sl j Hj; [lia|]. simpl.
  destruct (decide (j = n)) as [->|Hne].
  - clear IH Hj. assert (Hkeep : forall k m sl', (n < m)%nat -> sl' !! n = Some o ->
                               fill o m k sl' !! n = Some o).
    { clear. induction k as [|k IH]; intros m sl' Hm Hsl; simpl; [exact Hsl|].
      apply IH; [lia|]. rewrite lookup_insert_ne by lia. exact Hsl. }
    apply Hkeep; [lia|]. apply lookup_insert_eq.
  - apply IH. lia.
Qed.

Lemma Merge_subscribe_Manual (o : Observer Base T) k : forall (w : MW),
  Merge_subscribe o (repeat Manual k) w
  = Ok (repeat noop k,
        mkLayer (fill o (next_slot w) k (slots w)) (next_slot w + k) (below w)).
Proof.
  induction k as [|k IH]; intros w; simpl.
  - unfold ret. destruct w; simpl. now rewrite Nat.add_0_r.
  - unfold Manual at 1.
    erewrite bind_run; cycle 1.
    { erewrite bind_run by (rewrite lift_refl_run; reflexivity). reflexivity. }
    erewrite bind_run by apply IH. unfold ret. simpl.
    now replace (S (next_slot w + k)) with (next_slot w + S k)%nat by lia.
Qed.

Lemma each_Manual_complete (o : Observer Base T) (order : list nat) :
  forall w : MW,
    Forall (fun j => slots w !! j = Some o) order ->
    each Manual_complete order w
    = under w (times (length order) (call_if_not_nil (Complete o)) (below w)).
Proof.
  induction order as [|j rest IH]; intros w Hall; simpl; [now destruct w|].
  apply Forall_cons_iff in Hall as [Hj Hrest].
  assert (Hstep : Manual_complete j w
                  = under w (call_if_not_nil (Complete o) (below w))).
  { unfold Manual_complete.
    erewrite bind_run by (rewrite lift_refl_run; reflexivity).
    rewrite Hj. apply lift_comp_below_run. }
  unfold bind at 1. rewrite Hstep. unfold bind at 1.
  destruct (call_if_not_nil (Complete o) (below w)) as [[[] b]|]; simpl; [|reflexivity].
  rewrite IH by exact Hrest. reflexivity.
Qed.
End MergeManual.



Example test_Merge_From :
  trace_of (Merge [From [1; 2]; From [10]] (probe accept_all false true) empty_base)
  = Some [EvNext (VInt 1) true; EvNext (VInt 2) true; EvNext (VInt 10) true; EvComplete].
Proof. vm_compute. reflexivity. Qed.


(** ** Accept *)

Example test_Accept_Subscribe :
  let r := Accept_life true accept_all false true [7] [0; 1; 2] [8]
             (empty_layer empty_base) in
  result_of r = Some ([false], [true; true; true], [false]) /\
  trace_of r = Some [EvNext (VInt 0) true; EvNext (VInt 1) true; EvNext (VInt 2) true;
                     EvComplete; EvCompleted].
Proof. vm_compute. split; reflexivity. Qed.

Section AcceptRun.
Context {T : Type} `{ST : Storable T}.
Variable pol : list event -> T -> bool.
Variables e c : bool.

Local Abbreviation AW := (Layer (Observer Base T) Base).

Lemma Accept_push_nil (obs : nat) (v : T) (w : AW) :
  slots w !! obs = None -> Accept_push obs v w = Ok (false, w).
Proof.
  intros Hnil. unfold Accept_push.
  erewrite bind_run by (rewrite lift_refl_run; reflexivity).
  now rewrite Hnil.
Qed.

Lemma pushes_nil (obs : nat) (vs : list T) (w : AW) :
  slots w !! obs = None ->
  pushes (Accept_push obs) vs w = Ok (repeat false (length vs), w).
Proof.
  intros Hnil. induction vs as [|v rest IH]; simpl; [reflexivity|].
  erewrite bind_run by (apply Accept_push_nil; exact Hnil).
  erewrite bind_run by exact IH. reflexivity.
Qed.

Lemma Accept_push_active (obs : nat) (v : T) (w : AW) :
  slots w !! obs = Some (probe pol e c) ->
  Accept_push obs v w
  = Ok (pol (trace (below w)) v,
        mkLayer (slots w) (next_slot w)
                (log [EvNext (to_val v) (pol (trace (below w)) v)] (below w))).
Proof.
  intros Hobs. unfold Accept_push.
  erewrite bind_run by (rewrite lift_refl_run; reflexivity).
  rewrite Hobs. unfold lift_accept. rewrite lift_comp_below_run.
  cbn [probe Next call1]. now rewrite probe_next_run.
Qed.

Lemma pushes_active (obs : nat) (vs : list T) :
  forall w : AW,
    slots w !! obs = Some (probe pol e c) ->
    pushes (Accept_push obs) vs w
    = Ok (List.map answer (forwarded pol (trace (below w)) vs),
          mkLayer (slots w) (next_slot w)
                  (log (forwarded pol (trace (below w)) vs) (below w))).
Proof.
  induction vs as [|v rest IH]; intros w Hobs; simpl.
  - unfold ret. rewrite log_nil. now destruct w.
  - erewrite bind_run by (eapply Accept_push_active; exact Hobs).
    erewrite bind_run by (apply IH; exact Hobs).
    unfold ret. cbn [below slots next_slot]. now rewrite log_log, trace_log.
Qed.
End AcceptRun.


(** ** Cancelling more than once *)

(** The Subscription of [Periodic] is guarded by a [sync.Once]. *)
Example Periodic_cancel_twice :
  trace_of (Periodic_cancel_times 2 (empty_layer empty_base))
  = Some [EvTickerStop; EvComplete].
Proof. vm_compute. reflexivity. Qed.

(** C3.  The Subscriptions of [Accept] and [FromListener] have no
    one-shot guard: called twice, the Subscription of an Accept stream
    calls the observer's [Complete] twice and the [completed] callback
    twice, and the Subscription of a FromListener stream closes the
    listener twice and calls [Complete] twice. *)
Theorem Accept_cancel_twice_completes_twice :
  trace_of (Accept_cancel_times (T := Z) 2 (empty_layer empty_base))
  = Some [EvComplete; EvCompleted; EvComplete; EvCompleted]
  /\ trace_of (FromListener_cancel_times (T := Z) 2 (empty_layer empty_base))
     = Some [EvListen; EvClose; EvComplete; EvClose; EvComplete].
Proof. split; vm_compute; reflexivity. Qed.

(** ** Flatten *)

(** C2.  [Flatten] over [From(From(1))], observer with a [Complete]
    callback: the inner Stream completes, then the outer one, and the
    downstream [Complete] is never called, neither on activation nor
    when the Subscription is called afterwards.  It is called, once,
    only when an inner Stream completes after the outer one has: the
    inner Stream [Spy 7 true], and the second of two flattened Accept
    streams, complete when the Subscription of [Flatten] cancels them. *)
Theorem Flatten_inner_then_outer_never_completes :
  trace_of (Flatten_From [From [1]] accept_all false true 0 (empty_layer empty_base))
  = Some [EvNext (VInt 1) true]
  /\ trace_of (Flatten_From [From [1]] accept_all false true 2 (empty_layer empty_base))
     = Some [EvNext (VInt 1) true]
  /\ trace_of (Flatten_From (T := Z) [Spy (7%nat, true)] accept_all false true 2
                 (empty_layer empty_base))
     = Some [EvActivate 7; EvCancel 7; EvComplete]
  /\ trace_of (H := lens_comp (lens_below _ _) (lens_below _ _))
               (Flatten_Accepts (empty_layer (empty_layer empty_base)))
     = Some [EvCancel 1; EvNext (VInt 20) true; EvComplete; EvCancel 2].
Proof. repeat split; vm_compute; reflexivity. Qed.

Example Flatten_switches :
  trace_of (Flatten_From (T := Z)
              [Spy (1%nat, true); Spy (2%nat, false); From [5; 6]; Spy (3%nat, true)]
              accept_all false true 1 (empty_layer empty_base))
  = Some [EvActivate 1; EvCancel 1; EvActivate 2; EvCancel 2;
          EvNext (VInt 5) true; EvNext (VInt 6) true;
          EvActivate 3; EvCancel 3; EvComplete].
Proof. vm_compute. reflexivity. Qed.

Section LayeredLifts.
Context {X C : Type}.

Lemma lift_below_refl_run {A} (m : St C A) (w : Layer X C) :
  lift (L := lens_comp (lens_below _ _) (lens_refl _)) m w = under w (m (below w)).
Proof. unfold lift, under; simpl. destruct (m (below w)) as [[a c]|]; reflexivity. Qed.

Lemma lift_refl_below_refl_run {A} (m : St C A) (w : Layer X C) :
  lift (L := lens_comp (lens_refl _) (lens_comp (lens_below _ _) (lens_refl _))) m w
  = under w (m (below w)).
Proof. unfold lift, under; simpl. destruct (m (below w)) as [[a c]|]; reflexivity. Qed.

Lemma under_ok {A} (w : Layer X C) (r : Res (A * C)) a c :
  r = Ok (a, c) -> under w r = Ok (a, mkLayer (slots w) (next_slot w) c).
Proof. now intros ->. Qed.
End LayeredLifts.

Lemma max_active_switching spies : forall prev : option (nat * bool),
  (max_active (match prev with Some _ => 1 | None => 0 end) (switching prev spies) <= 1)%nat.
Proof.
  induction spies as [|spy rest IH]; intros prev.
  - destruct prev; simpl; lia.
  - destruct prev as [p|]; simpl.
    + pose proof (IH (Some spy)) as IH'. simpl in IH'. lia.
    + pose proof (IH (Some spy)) as IH'. simpl in IH'. lia.
Qed.

Section FlattenSpies.
Context {T : Type} `{ST : Storable T}.
Variable pol : list event -> T -> bool.
Variables e c : bool.
Variables innerSub outerCompleted : loc.
Hypothesis cells_differ : innerSub <> outerCompleted.

Lemma Flatten_inner_complete_early (b : Base) :
  peek outerCompleted b = VBool false ->
  Flatten_inner_complete (probe pol e c) innerSub outerCompleted b
  = Ok (tt, poke innerSub (VFunc None) b).
Proof.
  intros Hoc. unfold Flatten_inner_complete.
  erewrite bind_run by apply set_run.
  erewrite bind_run by apply get_run.
  rewrite peek_poke_ne by exact cells_differ. rewrite Hoc. reflexivity.
Qed.

Lemma Spy_cancel_early (p : nat * bool) (b : Base) :
  peek outerCompleted b = VBool false ->
  exists b', Spy_cancel (fst p) (snd p) (Flatten_inner_obs pol e c innerSub outerCompleted) b = Ok (tt, b') /\
             trace b' = trace b ++ [EvCancel (fst p)] /\
             peek outerCompleted b' = VBool false.
Proof.
  intros Hoc. unfold Spy_cancel.
  erewrite bind_run by (rewrite lift_refl_run; apply emit_run).
  destruct (snd p).
  - rewrite lift_refl_run. cbn [Flatten_inner_obs Complete call_if_not_nil].
    rewrite Flatten_inner_complete_early by (now rewrite peek_log).
    eexists. split; [reflexivity|]. split; [reflexivity|].
    rewrite peek_poke_ne by exact cells_differ. now rewrite peek_log.
  - eexists. split; [reflexivity|]. split; [reflexivity|]. now rewrite peek_log.
Qed.

Lemma Flatten_outer_next_Spy prev spy (w : FW) :
  switched pol e c innerSub outerCompleted prev w ->
  exists w',
    Flatten_outer_next (probe pol e c) innerSub outerCompleted (Spy spy) w = Ok (true, w') /\
    switched pol e c innerSub outerCompleted (Some spy) w' /\
    trace (below w') = trace (below w) ++ switching prev [spy].
Proof.
  intros [Hoc Hprev]. destruct w as [sl n b]. cbn [below slots next_slot] in *.
  unfold Flatten_outer_next.
  erewrite bind_run by (rewrite lift_below_refl_run, get_run; reflexivity).
  cbn [below slots next_slot].
  assert (Hcancel : exists b',
             (if bool_decide (is_Some (of_val (A := option nat) (peek innerSub b)))
              then call_closure (of_val (peek innerSub b))
              else ret tt) (mkLayer sl n b) = Ok (tt, mkLayer sl n b') /\
             trace b' = trace b
                        ++ match prev with Some p => [EvCancel (fst p)] | None => [] end /\
             peek outerCompleted b' = VBool false).
  { destruct prev as [p|].
    - destruct Hprev as (k & Hk & Hslot). rewrite Hk.
      change (of_val (VFunc (Some k))) with (Some k).
      rewrite bool_decide_eq_true_2 by (now eexists).
      unfold call_closure.
      erewrite bind_run by reflexivity. cbn [slots]. rewrite Hslot. cbn [default from_option id].
      destruct (Spy_cancel_early p b Hoc) as (b' & Hrun & Htr & Hoc').
      exists b'. rewrite lift_below_run. erewrite under_ok by exact Hrun.
      repeat split; assumption.
    - rewrite Hprev. change (of_val (VFunc None)) with (@None nat).
      rewrite bool_decide_eq_false_2 by (intros [? ?]; discriminate).
      exists b. unfold ret. rewrite app_nil_r. repeat split; assumption. }
  destruct Hcancel as (b1 & Hrun1 & Htr1 & Hoc1).
  erewrite bind_run by exact Hrun1.
  erewrite bind_run; cycle 1.
  { rewrite lift_below_run. cbn [below]. unfold Spy.
    erewrite under_ok; [reflexivity|].
    erewrite bind_run by (rewrite lift_refl_run; apply emit_run).
    reflexivity. }
  erewrite bind_run by reflexivity.
  erewrite bind_run by (rewrite lift_below_refl_run, set_run; reflexivity).
  eexists. split; [reflexivity|].
  split; [split|]; cbn [below slots next_slot].
  - rewrite peek_poke_ne by exact cells_differ. now rewrite peek_log.
  - exists n. split.
    + apply peek_poke.
    + apply lookup_insert_eq.
  - rewrite trace_poke, trace_log, Htr1. cbn [switching].
    now rewrite <- app_assoc.
Qed.

Lemma switching_app prev spy rest :
  switching prev (spy :: rest) = switching prev [spy] ++ switching (Some spy) rest.
Proof. cbn [switching]. now rewrite <- app_assoc. Qed.

Lemma Flatten_outer_loop_Spies spies : forall prev (w : FW),
  switched pol e c innerSub outerCompleted prev w ->
  exists w',
    From_loop (Flatten_outer_obs pol e c innerSub outerCompleted) (List.map Spy spies) w = Ok (tt, w') /\
    switched pol e c innerSub outerCompleted (match spies with [] => prev | _ => List.last (List.map Some spies) None end) w' /\
    trace (below w') = trace (below w) ++ switching prev spies.
Proof.
  induction spies as [|spy rest IH]; intros prev w Hsw.
  - exists w. split; [reflexivity|]. split; [exact Hsw|]. simpl. now rewrite app_nil_r.
  - cbn [List.map From_loop Flatten_outer_obs Next call1].
    destruct (Flatten_outer_next_Spy spy Hsw) as (w1 & Hrun & Hsw1 & Htr1).
    erewrite bind_run by exact Hrun. cbn [negb].
    destruct (IH (Some spy) w1 Hsw1) as (w' & Hrun' & Hsw' & Htr').
    exists w'. split; [exact Hrun'|]. split.
    + destruct rest as [|spy' rest']; [exact Hsw'|].
      cbn [List.map List.last] in *. exact Hsw'.
    + rewrite (switching_app prev spy rest), Htr', Htr1, <- app_assoc. reflexivity.
Qed.
End FlattenSpies.

Section FlattenRun.
Context {T : Type} `{ST : Storable T}.
Variable pol : list event -> T -> bool.
Variables e c : bool.

Lemma Flatten_started_switched (b : Base) :
  switched pol e c (next_loc b) (S (next_loc b)) None
           (mkLayer ∅ 0%nat (Flatten_started b)).
Proof.
  split; cbn [below]; unfold Flatten_started, peek; cbn [heap].
  - now rewrite lookup_insert_eq.
  - rewrite lookup_insert_ne by lia. now rewrite lookup_insert_eq.
Qed.

Lemma Flatten_Spies_activation (spies : list (nat * bool)) (b : Base) :
  exists cancel w',
    Flatten (From (List.map Spy spies)) (probe pol e c) (empty_layer b) = Ok (cancel, w') /\
    trace (below w') = trace b ++ switching None spies.
Proof.
  unfold Flatten.
  erewrite bind_run by (rewrite lift_refl_below_refl_run, new_run; reflexivity).
  erewrite bind_run by (rewrite lift_refl_below_refl_run, new_run; reflexivity).
  cbn [empty_layer slots next_slot below next_loc heap trace].
  change (mkBase _ _ _) with (Flatten_started b).
  assert (Hcells : next_loc b <> S (next_loc b)) by lia.
  destruct (Flatten_outer_loop_Spies Hcells spies (Flatten_started_switched b))
    as (w1 & Hrun & _ & Htr).
  erewrite bind_run; cycle 1.
  { unfold From.
    erewrite bind_run by (rewrite lift_refl_run; exact Hrun).
    erewrite bind_run; cycle 1.
    { rewrite lift_refl_run. cbn [call_if_not_nil Complete].
      rewrite lift_below_refl_run, set_run. reflexivity. }
    reflexivity. }
  eexists. eexists. split; [reflexivity|].
  cbn [below]. rewrite trace_poke. exact Htr.
Qed.
End FlattenRun.

(** Whatever the inner Stream that arrives and whatever the Subscription
    [innerSub] holds at that time: the Subscription is called first, and
    the new inner Stream is activated after it. *)
Lemma Flatten_outer_next_cancels_first {T} (o : Observer Base T)
    (stream : Stream Base Base T) (prev : Subscription Base)
    (innerSub outerCompleted : loc) (k n : nat) (sl : gmap nat (Subscription Base))
    (b : Base) :
  let w := mkLayer (<[k := prev]> sl) n (poke innerSub (VFunc (Some k)) b) in
  Flatten_outer_next o innerSub outerCompleted stream w
  = (do lift (L := lens_below _ _) prev;
     unsub <- lift (L := lens_below _ _)
                (stream {| Next := Some (fun data => call1 (Next o) data);
                           Error := Error o;
                           Complete := Some (Flatten_inner_complete o innerSub
                                               outerCompleted) |});
     k' <- slot_alloc unsub;
     do lift (L := lens_comp (lens_below _ _) (lens_refl _)) (set innerSub (Some k'));
     ret true) w.
Proof.
  intros w. subst w. unfold Flatten_outer_next.
  erewrite bind_run by (rewrite lift_below_refl_run, get_run; reflexivity).
  cbn [below slots next_slot]. rewrite peek_poke.
  change (of_val (VFunc (Some k))) with (Some k).
  rewrite bool_decide_eq_true_2 by (now eexists).
  unfold call_closure, bind, slot_get. cbn [slots].
  rewrite lookup_insert_eq. reflexivity.
Qed.

(** C8.  [Flatten] over [From] of any list of inner Streams that show
    their activation and their cancellation: every inner Stream but the
    first is activated right after the Subscription of the previous one
    was called, so that no two of them are ever active together.  And
    for every inner Stream that arrives while [innerSub] holds a
    Subscription, the [Next] closure of the outer Observer calls that
    Subscription before it activates the new inner Stream. *)
Theorem Flatten_switches_one_inner_at_a_time {T} `{Storable T}
    (pol : list event -> T -> bool) (e c : bool) (spies : list (nat * bool)) (b : Base) :
  trace_of (Flatten (From (List.map Spy spies)) (probe pol e c) (empty_layer b))
  = Some (trace b ++ switching None spies)
  /\ (max_active 0 (switching None spies) <= 1)%nat
  /\ (forall (o : Observer Base T) (stream : Stream Base Base T) (prev : Subscription Base)
             (innerSub outerCompleted : loc) (k n : nat)
             (sl : gmap nat (Subscription Base)) (b0 : Base),
         let w := mkLayer (<[k := prev]> sl) n (poke innerSub (VFunc (Some k)) b0) in
         Flatten_outer_next o innerSub outerCompleted stream w
         = (do lift (L := lens_below _ _) prev;
            unsub <- lift (L := lens_below _ _)
                       (stream {| Next := Some (fun data => call1 (Next o) data);
                                  Error := Error o;
                                  Complete := Some (Flatten_inner_complete o innerSub
                                                      outerCompleted) |});
            k' <- slot_alloc unsub;
            do lift (L := lens_comp (lens_below _ _) (lens_refl _)) (set innerSub (Some k'));
            ret true) w).
Proof.
  destruct (Flatten_Spies_activation pol e c spies b) as (cancel & w' & Hrun & Htr).
  rewrite Hrun. cbn [trace_of view lens_below]. split; [now rewrite Htr|].
  split; [apply (max_active_switching spies None)|].
  intros. apply Flatten_outer_next_cancels_first.
Qed.

(** ** A nil [Next] *)

(** C10.  With an Observer whose [Next] is nil, whatever its [Error] and
    [Complete]: [From] panics as soon as it has a value to deliver, a
    push into an activated Accept stream panics, an event of the
    listener of an activated FromListener stream panics, and the first
    tick of an activated [Periodic] panics.  Nothing panics before a
    value is delivered: activation alone succeeds for the three pushed
    sources, and [From] of no value only completes. *)
Theorem nil_Next_panics_on_first_value {T}
    (err : option (error -> St Base unit)) (comp : option (St Base unit))
    (v : T) (rest : list T) (b : Base) :
  From (v :: rest) (nil_Next err comp) b = Panic
  /\ Accept_push_first err comp v (empty_layer b) = Panic
  /\ Listener_event_first err comp v (empty_layer b) = Panic
  /\ Periodic_tick_first err comp (empty_layer b) = Panic
  /\ From [] (nil_Next (T := T) err None) b = Ok (noop, b)
  /\ (exists r, (' (accept, s) <- Accept (T := T) None; s (nil_Next err comp))
                  (empty_layer b) = Ok r)
  /\ (exists r, (l <- new_Listenable (T := T); FromListener (Listenable l) (nil_Next err comp))
                  (empty_layer b) = Ok r)
  /\ (exists r, Periodic 500 (mkObserver None err comp)
                  (empty_layer (X := PeriodicVars Base) b) = Ok r).
Proof.
  repeat split; try reflexivity; eexists; reflexivity.
Qed.

(** ** Nil [Error] and [Complete] callbacks *)

#[global] Instance Extends_refl {W} (I : W -> Prop) : Extends (lens_refl W) I I.
Proof. split; simpl; auto. Qed.

Lemma Extends_comp {A B D} (L1 : Lens A B) (L2 : Lens B D) IA IB ID :
  Extends L1 IA IB -> Extends L2 IB ID -> Extends (lens_comp L1 L2) IA ID.
Proof.
  intros [v1 u1] [v2 u2]. split; simpl.
  - intros a Ha. apply v2, v1, Ha.
  - intros a d Ha Hd. apply u1; [exact Ha|]. apply u2; [|exact Hd]. apply v1, Ha.
Qed.

Section SafeMonad.
Context {W : Type} (I : W -> Prop).

Lemma safe_ret {A} (Q : A -> Prop) (a : A) : Q a -> safe I Q (ret a).
Proof. intros HQ w Hw. exists a, w. auto. Qed.

Lemma safe_bind {A B} (Q : A -> Prop) (R : B -> Prop) (m : St W A) (k : A -> St W B) :
  safe I Q m -> (forall a, Q a -> safe I R (k a)) -> safe I R (bind m k).
Proof.
  intros Hm Hk w Hw. destruct (Hm w Hw) as (a & w1 & Hrun & Hw1 & Ha).
  unfold bind. rewrite Hrun. exact (Hk a Ha w1 Hw1).
Qed.

Lemma safe_weaken {A} (Q R : A -> Prop) (m : St W A) :
  (forall a, Q a -> R a) -> safe I Q m -> safe I R m.
Proof.
  intros HQR Hm w Hw. destruct (Hm w Hw) as (a & w1 & Hrun & Hw1 & Ha).
  exists a, w1. auto.
Qed.

Lemma safe_if {A} (Q : A -> Prop) (b : bool) (m1 m2 : St W A) :
  safe I Q m1 -> safe I Q m2 -> safe I Q (if b then m1 else m2).
Proof. now destruct b. Qed.

Lemma safe_lift {C A} (L : Lens W C) (J : C -> Prop) `{!Extends L I J}
    (Q : A -> Prop) (m : St C A) :
  safe J Q m -> safe I Q (lift m).
Proof.
  intros Hm w Hw. destruct (Hm (view w) (ext_view w Hw)) as (a & c & Hrun & Hc & Ha).
  unfold lift. rewrite Hrun. exists a, (update c w). split; [reflexivity|].
  split; [apply ext_update; assumption | exact Ha].
Qed.

(** [if f != nil { f() }] never panics on a nil [f]. *)
Lemma safe_call_if_not_nil (f : option (St W unit)) :
  (forall g, f = Some g -> safe I anything g) -> safe I anything (call_if_not_nil f).
Proof.
  intros Hf. destruct f as [g|]; simpl.
  - apply Hf. reflexivity.
  - apply safe_ret. exact Logic.I.
Qed.
End SafeMonad.

Section SafeHeap.
Context {C : Type} {LB : Lens C Base} (J : C -> Prop) `{!Extends LB J any_base}.

#[local] Transparent get set new emit.

Lemma safe_total {A} (f : Base -> A * Base) :
  safe J anything (lift (fun b => Ok (f b))).
Proof.
  apply (safe_lift (L := LB) (J := any_base)).
  intros b _. exists (fst (f b)), (snd (f b)).
  split; [cbv beta; now destruct (f b) | split; exact Logic.I].
Qed.

Lemma safe_get {A} `{Storable A} l : safe J anything (get (A := A) l).
Proof.
  unfold get. eapply safe_bind; [apply (safe_total (fun b => (_, b)))|].
  intros v _. apply safe_ret. exact Logic.I.
Qed.

Lemma safe_set {A} `{Storable A} l (a : A) : safe J anything (set l a).
Proof. apply (safe_total (fun b => (tt, _))). Qed.

Lemma safe_new {A} `{Storable A} (a : A) : safe J anything (new a).
Proof. apply (safe_total (fun b => (_, _))). Qed.

Lemma safe_emit ev : safe J anything (emit ev).
Proof. apply (safe_total (fun b => (tt, _))). Qed.
End SafeHeap.

Section SafeOperators.
Context {C W : Type} {LB : Lens C Base} {L : Lens W C}.
Context (I : W -> Prop) (J : C -> Prop).
Context `{!Extends LB J any_base} `{!Extends L I J}.

Lemma safe_call_next {T} (P : T -> Prop) (o : Observer C T) (v : T) :
  fit_observer J P o -> P v -> safe J anything (call1 (Next o) v).
Proof.
  intros ((f & Hf & Hsafe) & _) Hv. rewrite Hf. simpl. apply Hsafe, Hv.
Qed.

Lemma safe_complete {T} (P : T -> Prop) (o : Observer C T) :
  fit_observer J P o -> safe J anything (call_if_not_nil (Complete o)).
Proof. intros (_ & _ & Hc). apply safe_call_if_not_nil. exact Hc. Qed.

(** An Observer that replaces [Next] and hands [Error] and [Complete]
    on, nil or not. *)
Lemma fit_wrapper {T U} (P : T -> Prop) (Q : U -> Prop) (o : Observer C U)
    (next : T -> St C bool) :
  fit_observer J Q o ->
  (forall v, P v -> safe J anything (next v)) ->
  fit_observer J P {| Next := Some next; Error := Error o; Complete := Complete o |}.
Proof.
  intros (_ & He & Hc) Hnext. split; [|split]; simpl.
  - exists next. split; [reflexivity | exact Hnext].
  - exact He.
  - exact Hc.
Qed.

Lemma safe_noop : safe I anything (noop (W := W)).
Proof. apply safe_ret. exact Logic.I. Qed.

Lemma safe_From_loop {T} (P : T -> Prop) (o : Observer C T) (args : list T) :
  fit_observer J P o -> Forall P args -> safe J anything (From_loop o args).
Proof.
  intros Ho Hargs. induction Hargs as [|v rest Hv _ IH]; simpl.
  - apply safe_ret. exact Logic.I.
  - eapply safe_bind; [eapply safe_call_next; eassumption|].
    intros ok _. apply safe_if; [apply safe_ret; exact Logic.I | exact IH].
Qed.

Lemma From_fit {T} (P : T -> Prop) (args : list T) :
  Forall P args -> fit_stream I J P (From args).
Proof.
  intros Hargs o Ho. unfold From.
  eapply safe_bind; [eapply safe_lift, safe_From_loop; eassumption|].
  intros _ _.
  eapply safe_bind; [eapply safe_lift, safe_complete; eassumption|].
  intros _ _. apply safe_ret, safe_noop.
Qed.

Lemma Map_fit {T U} (P : T -> Prop) (Q : U -> Prop) (f : T -> U) (source : Stream C W T) :
  (forall x, P x -> Q (f x)) -> fit_stream I J P source -> fit_stream I J Q (Map f source).
Proof.
  intros Hf Hsource o Ho. unfold Map. apply Hsource.
  eapply fit_wrapper; [exact Ho|].
  intros v Hv. eapply safe_call_next; [exact Ho | apply Hf, Hv].
Qed.

Lemma Filter_fit {T} (P : T -> Prop) (f : T -> bool) (source : Stream C W T) :
  fit_stream I J P source -> fit_stream I J P (Filter f source).
Proof.
  intros Hsource o Ho. unfold Filter. apply Hsource.
  eapply fit_wrapper; [exact Ho|].
  intros v Hv. apply safe_if.
  - eapply safe_call_next; eassumption.
  - apply safe_ret. exact Logic.I.
Qed.

Lemma safe_Take_next {T} (P : T -> Prop) n (o : Observer C T) i v :
  fit_observer J P o -> P v -> safe J anything (Take_next n o i v).
Proof.
  intros Ho Hv. unfold Take_next.
  eapply safe_bind; [eapply safe_call_next; eassumption|]. intros ok _.
  eapply safe_bind; [apply safe_get; exact _|]. intros i0 _.
  eapply safe_bind; [apply safe_set; exact _|]. intros _ _.
  eapply safe_bind; [apply safe_get; exact _|]. intros i1 _.
  apply safe_if; apply safe_ret; exact Logic.I.
Qed.

Lemma Take_fit {T} (P : T -> Prop) n (source : Stream C W T) :
  fit_stream I J P source -> fit_stream I J P (Take n source).
Proof.
  intros Hsource o Ho. unfold Take.
  eapply safe_bind; [eapply safe_lift, safe_new; exact _|]. intros i _.
  apply Hsource. eapply fit_wrapper; [exact Ho|].
  intros v Hv. eapply safe_Take_next; eassumption.
Qed.

Lemma StartWith_fit {T} (P : T -> Prop) (data : T) (source : Stream C W T) :
  P data -> fit_stream I J P source -> fit_stream I J P (StartWith data source).
Proof.
  intros Hdata Hsource o Ho. unfold StartWith.
  eapply safe_bind; [eapply safe_lift, safe_call_next; eassumption|]. intros ok _.
  apply safe_if; [apply safe_ret, safe_noop | apply Hsource, Ho].
Qed.

(** [Reduce] reads the value it forwards back from its accumulator: the
    downstream must take any value. *)
Lemma Reduce_fit {T U} `{Storable U} (P : T -> Prop) (initialValue : U) (f : U -> T -> U)
    (source : Stream C W T) :
  fit_stream I J P source -> fit_stream I J anything (Reduce initialValue f source).
Proof.
  intros Hsource o Ho. unfold Reduce.
  eapply safe_bind; [eapply safe_lift, safe_new; exact _|]. intros current _.
  eapply safe_bind; [eapply safe_lift, safe_get; exact _|]. intros c0 _.
  eapply safe_bind; [eapply safe_lift, safe_call_next; [exact _ | exact Ho | exact Logic.I]|].
  intros ok _.
  apply safe_if; [apply safe_ret, safe_noop|].
  apply Hsource. eapply fit_wrapper; [exact Ho|].
  intros v _. unfold Reduce_next.
  eapply safe_bind; [apply safe_get; exact _|]. intros a0 _.
  eapply safe_bind; [apply safe_set; exact _|]. intros _ _.
  eapply safe_bind; [apply safe_get; exact _|]. intros a1 _.
  eapply safe_call_next; [exact Ho | exact Logic.I].
Qed.

Lemma safe_Merge_complete {T} (P : T -> Prop) n (o : Observer C T) numCompleted :
  fit_observer J P o -> safe J anything (Merge_complete n o numCompleted).
Proof.
  intros Ho. unfold Merge_complete.
  eapply safe_bind; [apply safe_get; exact _|]. intros c0 _.
  eapply safe_bind; [apply safe_set; exact _|]. intros _ _.
  eapply safe_bind; [apply safe_get; exact _|]. intros c1 _.
  apply safe_if; [eapply safe_complete; exact Ho | apply safe_ret; exact Logic.I].
Qed.

Lemma safe_Merge_unsubscribe (unsubscribes : list (Subscription W)) :
  Forall (safe I anything) unsubscribes -> safe I anything (Merge_unsubscribe unsubscribes).
Proof.
  induction 1 as [|unsub rest Hunsub _ IH]; simpl.
  - apply safe_ret. exact Logic.I.
  - eapply safe_bind; [exact Hunsub|]. intros _ _. exact IH.
Qed.

Lemma safe_Merge_subscribe {T} (P : T -> Prop) (inner : Observer C T)
    (streams : list (Stream C W T)) :
  fit_observer J P inner -> Forall (fit_stream I J P) streams ->
  safe I (Forall (safe I anything)) (Merge_subscribe inner streams).
Proof.
  intros Hinner. induction 1 as [|stream rest Hstream _ IH]; simpl.
  - apply safe_ret. constructor.
  - eapply safe_bind; [apply Hstream, Hinner|]. intros unsub Hunsub.
    eapply safe_bind; [exact IH|]. intros unsubs Hunsubs.
    apply safe_ret. now constructor.
Qed.

Lemma Merge_fit {T} (P : T -> Prop) (streams : list (Stream C W T)) :
  Forall (fit_stream I J P) streams -> fit_stream I J P (Merge streams).
Proof.
  intros Hstreams o Ho. unfold Merge.
  eapply safe_bind; [eapply safe_lift, safe_new; exact _|]. intros numCompleted _.
  eapply safe_bind.
  - eapply safe_Merge_subscribe; [|exact Hstreams].
    destruct Ho as ((f & Hf & Hnext) & He & Hc). split; [|split]; simpl.
    + exists f. split; assumption.
    + exact He.
    + intros g [= <-]. eapply safe_Merge_complete.
      split; [exists f; split; eassumption | split; assumption].
  - intros unsubs Hunsubs. apply safe_ret, safe_Merge_unsubscribe, Hunsubs.
Qed.
End SafeOperators.

#[global] Instance Extends_below {X C} (S : X -> Prop) (J : C -> Prop) :
  Extends (lens_below X C) (layer_inv S J) J.
Proof.
  split.
  - intros w [_ HJ]. exact HJ.
  - intros w c [HS _] Hc. split; [exact HS | exact Hc].
Qed.

Section SafeSlots.
Context {X C : Type} (S : X -> Prop) (J : C -> Prop).

Lemma safe_slot_get k :
  safe (layer_inv S J) (fun ox => forall x, ox = Some x -> S x) (slot_get (X := X) (C := C) k).
Proof.
  intros w [HS HJ]. exists (slots w !! k), w. split; [reflexivity|].
  split; [split; assumption|]. intros x Hx. eapply HS, Hx.
Qed.

Lemma safe_slot_set k (ox : option X) :
  (forall x, ox = Some x -> S x) -> safe (layer_inv S J) anything (slot_set (C := C) k ox).
Proof.
  intros Hox w [HS HJ]. eexists tt, _. split; [reflexivity|].
  split; [|exact Logic.I]. split; [|exact HJ]. cbn [slots].
  intros k' x'. destruct ox as [x|].
  - rewrite lookup_insert. case_decide.
    + intros [= <-]. now apply Hox.
    + apply HS.
  - rewrite lookup_delete. case_decide; [discriminate | apply HS].
Qed.

Lemma safe_slot_new : safe (layer_inv S J) anything (slot_new (X := X) (C := C)).
Proof.
  intros w [HS HJ]. eexists _, _. split; [reflexivity|].
  split; [|exact Logic.I]. split; assumption.
Qed.

Lemma safe_slot_alloc (x : X) : S x -> safe (layer_inv S J) anything (slot_alloc (C := C) x).
Proof.
  intros Hx w [HS HJ]. eexists _, _. split; [reflexivity|].
  split; [|exact Logic.I]. split; [|exact HJ]. cbn [slots].
  intros k' x'. rewrite lookup_insert. case_decide.
  - now intros [= <-].
  - apply HS.
Qed.
End SafeSlots.

Section SafeAccept.
Context {C W T : Type} {LA : Lens W (Layer (Observer C T) C)}.
Context (I : W -> Prop) (J : C -> Prop) (P : T -> Prop).
Context `{!Extends LA I (layer_inv (fit_observer J P) J)}.

#[local] Instance Extends_accept : Extends (lens_comp LA (lens_below _ _)) I J.
Proof. eapply Extends_comp; [eassumption | apply Extends_below]. Qed.

Lemma Accept_push_safe (obs : nat) (t : T) :
  P t -> safe I anything (Accept_push obs t).
Proof.
  intros Ht. unfold Accept_push.
  eapply safe_bind; [eapply safe_lift; [eassumption | apply safe_slot_get]|].
  intros [observer|] Ho.
  - unfold lift_accept. eapply safe_lift; [exact _|].
    destruct (Ho observer eq_refl) as ((f & Hf & Hnext) & _).
    rewrite Hf. apply Hnext, Ht.
  - apply safe_ret. exact Logic.I.
Qed.

Lemma Accept_stream_fit (completed : option (St C unit)) (obs : nat) :
  (forall g, completed = Some g -> safe J anything g) ->
  fit_stream I J P (Accept_stream completed obs).
Proof.
  intros Hcompleted o Ho. unfold Accept_stream.
  eapply safe_bind.
  { eapply safe_lift; [eassumption|]. apply safe_slot_set. now intros x [= <-]. }
  intros _ _. apply safe_ret.
  eapply safe_bind.
  { eapply safe_lift; [eassumption|]. apply safe_slot_set. discriminate. }
  intros _ _. unfold lift_accept.
  eapply safe_bind.
  { eapply safe_lift; [exact _|]. apply safe_call_if_not_nil, Ho. }
  intros _ _. eapply safe_lift; [exact _|]. apply safe_call_if_not_nil, Hcompleted.
Qed.

Lemma Accept_fit (completed : option (St C unit)) :
  (forall g, completed = Some g -> safe J anything g) ->
  safe I (fun r => (forall t, P t -> safe I anything (fst r t)) /\ fit_stream I J P (snd r))
       (Accept completed).
Proof.
  intros Hcompleted. unfold Accept.
  eapply safe_bind; [eapply safe_lift; [eassumption | apply safe_slot_new]|].
  intros obs _. apply safe_ret. split.
  - intros t Ht. now apply Accept_push_safe.
  - now apply Accept_stream_fit.
Qed.
End SafeAccept.

Section SafeListener.
Context {C W T : Type} {L : Lens W C}.
Context (I : W -> Prop) (J : C -> Prop) (P : T -> Prop).
Context `{!Extends L I J}.

Lemma FromListener_fit (listener : Listener C W T) :
  fit_listener I J P listener -> fit_stream I J P (FromListener listener).
Proof.
  intros [Hlisten Hclose] o Ho. unfold FromListener.
  eapply safe_bind.
  { apply Hlisten. intros v Hv.
    destruct Ho as ((f & Hf & Hnext) & _). rewrite Hf. simpl.
    eapply safe_bind; [apply Hnext, Hv|]. intros _ _. apply safe_ret. exact Logic.I. }
  intros _ _. apply safe_ret.
  eapply safe_bind; [exact Hclose|]. intros _ _.
  eapply safe_lift; [exact _|]. apply safe_call_if_not_nil, Ho.
Qed.
End SafeListener.

Section SafeListenable.
Context {C T : Type} {LB : Lens C Base}.
Context (J : C -> Prop) (P : T -> Prop).
Context `{!Extends LB J any_base}.

Local Abbreviation LW := (Layer (T -> St C unit) C).

#[local] Instance Extends_listener :
  Extends (lens_comp (lens_refl LW) (lens_below _ _)) (listener_inv J P) J.
Proof. eapply Extends_comp; [apply Extends_refl | apply Extends_below]. Qed.

Lemma Listenable_fit (l : nat) : fit_listener (listener_inv J P) J P (Listenable l).
Proof.
  split; cbn [Listenable Listen Close].
  - intros f Hf. unfold Listenable_Listen.
    eapply safe_bind.
    { unfold lift_listener. eapply safe_lift; [exact _|]. apply safe_emit; exact _. }
    intros _ _. eapply safe_lift; [apply Extends_refl|].
    apply safe_slot_set. now intros x [= <-].
  - unfold Listenable_Close.
    eapply safe_bind.
    { unfold lift_listener. eapply safe_lift; [exact _|]. apply safe_emit; exact _. }
    intros _ _. eapply safe_lift; [apply Extends_refl|].
    apply safe_slot_set. discriminate.
Qed.

Lemma Listenable_Accept_safe (l : nat) (v : T) :
  P v -> safe (listener_inv J P) anything (Listenable_Accept l v).
Proof.
  intros Hv. unfold Listenable_Accept.
  eapply safe_bind; [eapply safe_lift; [apply Extends_refl | apply safe_slot_get]|].
  intros [f|] Hf.
  - unfold lift_listener. eapply safe_lift; [exact _|]. now apply (Hf f).
  - apply safe_ret. exact Logic.I.
Qed.
End SafeListenable.

Section SafePeriodic.
Context {C : Type} {LB : Lens C Base}.
Context (J : C -> Prop).
Context `{!Extends LB J any_base}.

Local Abbreviation PW := (Layer (PeriodicVars C) C).

#[local] Instance Extends_goroutine :
  Extends (lens_comp (lens_refl PW) (lens_below _ _)) (periodic_inv J) J.
Proof. eapply Extends_comp; [apply Extends_refl | apply Extends_below]. Qed.

Lemma var_run {A} (g : nat) (field : PeriodicVars C -> A) (w : PW) :
  var g field w = Ok (field (default zero_vars (slots w !! g)), w).
Proof. unfold var. erewrite bind_run by (rewrite lift_refl_run; reflexivity). reflexivity. Qed.

Lemma assign_run (g : nat) upd (w : PW) :
  assign g upd w
  = Ok (tt, match slots w !! g with
            | Some v => mkLayer (<[g := upd v]> (slots w)) (next_slot w) (below w)
            | None => w
            end).
Proof.
  unfold assign. erewrite bind_run by (rewrite lift_refl_run; reflexivity).
  destruct (slots w !! g); [rewrite lift_refl_run|]; reflexivity.
Qed.

Lemma safe_var {A} (g : nat) (field : PeriodicVars C -> A) :
  safe (periodic_inv J) anything (var g field).
Proof.
  intros w Hw. rewrite var_run. eexists _, w.
  split; [reflexivity|]. split; [exact Hw | exact Logic.I].
Qed.

Lemma safe_assign (g : nat) upd :
  (forall v, guarded J v -> guarded J (upd v)) -> safe (periodic_inv J) anything (assign g upd).
Proof.
  intros Hupd w [HS HJ]. rewrite assign_run. eexists _, _. split; [reflexivity|].
  split; [|exact Logic.I]. destruct (slots w !! g) as [v|] eqn:Hg.
  - split; [|exact HJ]. cbn [slots]. intros k x. rewrite lookup_insert. case_decide.
    + intros [= <-]. eapply Hupd, HS, Hg.
    + apply HS.
  - split; assumption.
Qed.

Lemma Periodic_unsub_safe (observer : Observer C Z) (g : nat) :
  fit_observer J anything observer ->
  safe (periodic_inv J) anything (Periodic_unsub observer g).
Proof.
  intros Ho [sl n b] [HS HJ]. cbn [slots below] in HS, HJ.
  unfold Periodic_unsub, Once_Do.
  erewrite bind_run by apply var_run. cbn [slots].
  destruct (p_closeCh (default zero_vars (sl !! g))) eqn:Hfired.
  { eexists tt, _. split; [reflexivity|]. split; [split; assumption | exact Logic.I]. }
  pose proof (safe_emit (J := J) EvTickerStop) as Hemit.
  destruct (Hemit b HJ) as ([] & c1 & Hrun1 & HJ1 & _).
  pose proof (safe_complete (J := J) Ho) as Hcomplete.
  destruct (Hcomplete c1 HJ1) as ([] & c2 & Hrun2 & HJ2 & _).
  assert (Hdone : p_done (default zero_vars (sl !! g)) = false).
  { destruct (sl !! g) as [v|] eqn:Hg; [|reflexivity].
    apply (HS g v Hg). exact Hfired. }
  erewrite bind_run; cycle 1.
  { erewrite bind_run; cycle 1.
    { unfold lift_goroutine. rewrite lift_comp_below_run.
      apply under_ok. exact Hrun1. }
    cbn [slots next_slot].
    erewrite bind_run; cycle 1.
    { unfold close_done. erewrite bind_run by apply var_run. cbn [slots].
      rewrite Hdone. rewrite assign_run. cbn [slots next_slot below]. reflexivity. }
    unfold lift_goroutine. rewrite lift_comp_below_run.
    apply under_ok.
    instantiate (1 := c2). destruct (sl !! g); cbn [below]; exact Hrun2. }
  rewrite assign_run.
  eexists tt, _. split; [reflexivity|]. split; [|exact Logic.I].
  destruct (sl !! g) as [v|] eqn:Hg; cbn [slots next_slot below].
  - rewrite lookup_insert_eq. split; [|exact HJ2]. cbn [slots].
    intros k x. rewrite !lookup_insert. case_decide.
    + intros [= <-]. split; [apply (HS g v Hg) | discriminate].
    + apply HS.
  - rewrite Hg. split; assumption.
Qed.

Lemma Periodic_loop_safe (observer : Observer C Z) (g : nat) :
  fit_observer J anything observer ->
  safe (periodic_inv J) anything (Periodic_loop observer g).
Proof.
  intros Ho. unfold Periodic_loop.
  eapply safe_bind; [apply safe_var|]. intros closed _.
  apply safe_if; [apply safe_ret; exact Logic.I|].
  eapply safe_bind; [apply safe_var|]. intros i0 _.
  eapply safe_bind.
  { unfold lift_goroutine. eapply safe_lift; [exact _|].
    eapply safe_call_next; [exact Ho | exact Logic.I]. }
  intros ok _.
  eapply safe_bind.
  { apply safe_if; [now apply Periodic_unsub_safe | apply safe_ret; exact Logic.I]. }
  intros _ _.
  eapply safe_bind; [apply safe_var|]. intros i1 _.
  apply safe_assign. intros v Hv. exact Hv.
Qed.

Lemma tick_safe (g : nat) : safe (periodic_inv J) anything (tick g).
Proof.
  unfold tick.
  eapply safe_bind; [eapply safe_lift; [apply Extends_refl | apply safe_slot_get]|].
  intros [vars|] Hvars.
  - apply Periodic_loop_safe. now apply (Hvars vars).
  - apply safe_ret. exact Logic.I.
Qed.

Lemma Periodic_fit (interval : Z) :
  fit_stream (periodic_inv J) J anything (Periodic interval).
Proof.
  intros o Ho. unfold Periodic.
  eapply safe_bind.
  { eapply safe_lift; [apply Extends_refl|]. apply safe_slot_alloc.
    split; [exact Ho | reflexivity]. }
  intros g _. apply safe_ret. now apply Periodic_unsub_safe.
Qed.
End SafePeriodic.

Section SafeFlatten.
Context {C W Wo T : Type} {LB : Lens C Base} {L : Lens W C}
        {LO : Lens Wo (Layer (Subscription W) W)}.
Context (Io : Wo -> Prop) (I : W -> Prop) (J : C -> Prop) (P : T -> Prop).
Context `{!Extends LB J any_base} `{!Extends L I J}.

Context `{!Extends LO Io (flatten_inv I)}.

#[local] Instance Extends_flatten_inner :
  Extends (lens_comp (lens_below (Subscription W) W) L) (flatten_inv I) J.
Proof. eapply Extends_comp; [apply Extends_below | eassumption]. Qed.

#[local] Instance Extends_flatten_outer :
  Extends (lens_comp LO (lens_comp (lens_below (Subscription W) W) L)) Io J.
Proof. eapply Extends_comp; [eassumption | apply Extends_flatten_inner]. Qed.

Lemma safe_Flatten_inner_complete (o : Observer C T) (innerSub outerCompleted : loc) :
  fit_observer J P o ->
  safe J anything (Flatten_inner_complete o innerSub outerCompleted).
Proof.
  intros (_ & _ & Hc). unfold Flatten_inner_complete.
  eapply safe_bind; [apply safe_set; exact _|]. intros _ _.
  eapply safe_bind; [apply safe_get; exact _|]. intros oc _.
  destruct (Complete o) as [g|] eqn:Hg.
  - apply safe_if; [now apply Hc | apply safe_ret; exact Logic.I].
  - rewrite bool_decide_eq_false_2 by (intros [? ?]; discriminate).
    rewrite andb_false_r. apply safe_ret. exact Logic.I.
Qed.

(** [if innerSub != nil { innerSub() }] *)
Lemma safe_call_closure_if_not_nil (h : option nat) :
  safe (flatten_inv I) anything
       (if bool_decide (is_Some h) then call_closure (W := W) h else ret tt).
Proof.
  destruct h as [k|].
  - rewrite bool_decide_eq_true_2 by (now eexists). unfold call_closure.
    eapply safe_bind; [apply safe_slot_get|]. intros [unsub|] Hunsub.
    + eapply safe_lift; [apply Extends_below|]. now apply Hunsub.
    + eapply safe_lift; [apply Extends_below|]. apply safe_noop.
  - rewrite bool_decide_eq_false_2 by (intros [? ?]; discriminate).
    apply safe_ret. exact Logic.I.
Qed.

Lemma safe_Flatten_outer_next (o : Observer C T) (innerSub outerCompleted : loc)
    (stream : Stream C W T) :
  fit_observer J P o -> fit_stream I J P stream ->
  safe (flatten_inv I) anything (Flatten_outer_next o innerSub outerCompleted stream).
Proof.
  intros Ho Hstream. unfold Flatten_outer_next.
  eapply safe_bind.
  { eapply safe_lift; [apply Extends_flatten_inner|]. apply safe_get; exact _. }
  intros h _.
  eapply safe_bind; [apply safe_call_closure_if_not_nil|]. intros _ _.
  eapply safe_bind.
  { eapply safe_lift; [apply Extends_below|]. apply Hstream.
    destruct Ho as ((f & Hf & Hnext) & He & Hc). split; [|split]; simpl.
    - eexists. split; [reflexivity|]. intros v Hv. rewrite Hf. simpl. apply Hnext, Hv.
    - exact He.
    - intros g [= <-]. apply safe_Flatten_inner_complete.
      split; [exists f; split; assumption | split; assumption]. }
  intros unsub Hunsub.
  eapply safe_bind; [apply safe_slot_alloc, Hunsub|]. intros k _.
  eapply safe_bind.
  { eapply safe_lift; [apply Extends_flatten_inner|]. apply safe_set; exact _. }
  intros _ _. apply safe_ret. exact Logic.I.
Qed.

Lemma Flatten_fit (outer : Stream (Layer (Subscription W) W) Wo (Stream C W T)) :
  fit_stream Io (flatten_inv I) (fit_stream I J P) outer ->
  fit_stream Io J P (Flatten outer).
Proof.
  intros Houter o Ho. unfold Flatten. cbv zeta.
  eapply safe_bind.
  { eapply safe_lift; [apply Extends_flatten_outer|]. apply safe_new; exact _. }
  intros innerSub _.
  eapply safe_bind.
  { eapply safe_lift; [apply Extends_flatten_outer|]. apply safe_new; exact _. }
  intros outerCompleted _.
  eapply safe_bind.
  { apply Houter. split; [|split]; simpl.
    - eexists. split; [reflexivity|]. intros stream Hstream.
      now apply safe_Flatten_outer_next.
    - intros g Hg x. destruct Ho as (_ & He & _).
      destruct (Error o) as [f|]; [|discriminate]. injection Hg as <-.
      eapply safe_lift; [apply Extends_flatten_inner|]. now apply He.
    - intros g [= <-].
      eapply safe_lift; [apply Extends_flatten_inner|]. apply safe_set; exact _. }
  intros unsubscribe Hunsubscribe. apply safe_ret.
  eapply safe_bind; [exact Hunsubscribe|]. intros _ _.
  eapply safe_bind.
  { eapply safe_lift; [apply Extends_flatten_outer|]. apply safe_get; exact _. }
  intros h _.
  destruct h as [k|].
  - rewrite bool_decide_eq_true_2 by (now eexists).
    eapply safe_lift; [eassumption|].
    pose proof (safe_call_closure_if_not_nil (Some k)) as Hcall.
    rewrite bool_decide_eq_true_2 in Hcall by (now eexists). exact Hcall.
  - rewrite bool_decide_eq_false_2 by (intros [? ?]; discriminate).
    apply safe_ret. exact Logic.I.
Qed.
End SafeFlatten.

(** An Observer with a safe [Next] and nothing else is fit. *)
Lemma fit_observer_nil {C T} (J : C -> Prop) (P : T -> Prop) (next : T -> St C bool) :
  (forall v, P v -> safe J anything (next v)) ->
  fit_observer J P {| Next := Some next; Error := None; Complete := None |}.
Proof.
  intros Hnext. split; [|split]; simpl; try discriminate.
  exists next. split; [reflexivity | exact Hnext].
Qed.

Section SafeConsumers.
Context {C W T : Type} {LB : Lens C Base} {L : Lens W C}.
Context (I : W -> Prop) (J : C -> Prop) (P : T -> Prop).
Context `{!Extends LB J any_base} `{!Extends L I J}.

(** [Observe] and [ForEach] hand the source an Observer with nil [Error]
    and nil [Complete]. *)
Lemma Observe_safe (f : T -> St C bool) (source : Stream C W T) :
  (forall v, P v -> safe J anything (f v)) -> fit_stream I J P source ->
  safe I (safe I anything) (Observe (Some f) source).
Proof. intros Hf Hsource. apply Hsource, fit_observer_nil, Hf. Qed.

Lemma ForEach_safe (f : T -> St C unit) (source : Stream C W T) :
  (forall v, P v -> safe J anything (f v)) -> fit_stream I J P source ->
  safe I (safe I anything) (ForEach (Some f) source).
Proof.
  intros Hf Hsource. apply Hsource, fit_observer_nil. intros v Hv. simpl.
  eapply safe_bind; [apply Hf, Hv|]. intros _ _. apply safe_ret. exact Logic.I.
Qed.
End SafeConsumers.


Lemma probe_next_safe {T} `{Storable T} (pol : list event -> T -> bool) (v : T) :
  safe any_base anything (probe_next pol v).
Proof.
  intros w _. rewrite probe_next_run. eexists _, _.
  split; [reflexivity|]. split; exact Logic.I.
Qed.


(** ** Cancelling more than once, for any number of calls *)

Lemma Accept_cancel_run {T} `{Storable T} (pol : list event -> T -> bool) (e c : bool)
    (obs : nat) (w : Layer (Observer Base T) Base) :
  (do lift (slot_set (X := Observer Base T) (C := Base) obs None);
   do lift_accept (call_if_not_nil (Complete (probe pol e c)));
   lift_accept (call_if_not_nil (Some (emit EvCompleted)))) w
  = Ok (tt, mkLayer (delete obs (slots w)) (next_slot w)
                    (log ((if c then [EvComplete] else []) ++ [EvCompleted]) (below w))).
Proof.
  erewrite bind_run by (rewrite lift_refl_run; reflexivity).
  erewrite bind_run; cycle 1.
  { unfold lift_accept. rewrite lift_comp_below_run. cbn [below].
    rewrite (probe_complete_run pol). reflexivity. }
  unfold lift_accept. rewrite lift_comp_below_run. cbn [below slots next_slot call_if_not_nil].
  rewrite emit_run, log_log. reflexivity.
Qed.

(** Every call of the Subscription of an Accept stream completes the
    observer again. *)
Lemma Accept_cancel_every_time {T} `{Storable T} (n : nat) (b : Base) :
  trace_of (Accept_cancel_times (T := T) n (empty_layer b))
  = Some (trace b ++ concat (repeat [EvComplete; EvCompleted] n)).
Proof.
  unfold Accept_cancel_times, Accept, cancel_times.
  erewrite bind_run; cycle 1.
  { erewrite bind_run by (rewrite lift_refl_run; reflexivity). reflexivity. }
  unfold Accept_stream at 1.
  erewrite bind_run; cycle 1.
  { erewrite bind_run by (rewrite lift_refl_run; reflexivity). reflexivity. }
  cbn [empty_layer slots next_slot below].
  set (w0 := mkLayer _ _ _).
  change (trace b) with (trace (below w0)). generalize w0. clear w0.
  induction n as [|n IH]; intros w.
  - simpl. now rewrite app_nil_r.
  - cbn [times].
    erewrite bind_run by apply (Accept_cancel_run accept_all false true).
    rewrite IH. cbn [below]. rewrite trace_log. cbn [repeat concat].
    now rewrite <- app_assoc.
Qed.

Lemma Periodic_unsub_fired (observer : Observer Base Z) (g : nat)
    (w : Layer (PeriodicVars Base) Base) :
  p_closeCh (default zero_vars (slots w !! g)) = true ->
  Periodic_unsub observer g w = Ok (tt, w).
Proof.
  intros Hfired. unfold Periodic_unsub, Once_Do.
  erewrite bind_run by apply var_run. now rewrite Hfired.
Qed.

(** The Subscription of [Periodic] stops the ticker, closes the channel
    and completes the observer on its first call only. *)
Lemma Periodic_cancel_once (n : nat) (b : Base) :
  trace_of (Periodic_cancel_times (S n) (empty_layer b))
  = Some (trace b ++ [EvTickerStop; EvComplete]).
Proof.
  unfold Periodic_cancel_times, cancel_times, Periodic.
  erewrite bind_run; cycle 1.
  { erewrite bind_run by (rewrite lift_refl_run; reflexivity). reflexivity. }
  cbn [empty_layer slots next_slot below times].
  erewrite bind_run; cycle 1.
  { unfold Periodic_unsub, Once_Do.
    erewrite bind_run by apply var_run.
    cbn [slots]. rewrite lookup_insert_eq. cbn [default from_option id p_closeCh].
    erewrite bind_run; cycle 1.
    { erewrite bind_run; cycle 1.
      { unfold lift_goroutine. rewrite lift_comp_below_run. cbn [below].
        rewrite emit_run. reflexivity. }
      cbn [slots next_slot].
      erewrite bind_run; cycle 1.
      { unfold close_done. erewrite bind_run by apply var_run.
        cbn [slots]. rewrite lookup_insert_eq. cbn [default from_option id p_done].
        rewrite assign_run. cbn [slots]. rewrite lookup_insert_eq. reflexivity. }
      unfold lift_goroutine. rewrite lift_comp_below_run. cbn [below slots next_slot].
      rewrite (probe_complete_run accept_all). reflexivity. }
    rewrite assign_run. cbn [slots]. rewrite lookup_insert_eq. reflexivity. }
  cbn [slots next_slot below].
  set (w1 := mkLayer _ _ _).
  assert (Hfired : p_closeCh (default zero_vars (slots w1 !! 0%nat)) = true).
  { unfold w1. cbn [slots]. now rewrite lookup_insert_eq. }
  assert (Hrest : times n (Periodic_unsub (probe accept_all false true) 0) w1 = Ok (tt, w1)).
  { induction n as [|n IH]; [reflexivity|]. cbn [times].
    erewrite bind_run by (apply Periodic_unsub_fired; exact Hfired). exact IH. }
  rewrite Hrest. cbn [trace_of view lens_below]. unfold w1. cbn [below].
  rewrite !trace_log, <- app_assoc. reflexivity.
Qed.

(** ** Flatten over inner Streams that complete at once *)

Lemma completes_served_each {T} `{Storable T} (pol : list event -> T -> bool) xss :
  forall h, completes (served_each pol h xss) = 0%nat.
Proof.
  induction xss as [|xs rest IH]; intros h; simpl; [reflexivity|].
  now rewrite completes_app, completes_served, IH.
Qed.

Section FlattenFroms.
Context {T : Type} `{ST : Storable T}.
Variable pol : list event -> T -> bool.
Variables e c : bool.
Variables innerSub outerCompleted : loc.
Hypothesis cells_differ : innerSub <> outerCompleted.

Lemma call_innerSub_synced (w : FW) :
  synced innerSub outerCompleted w ->
  (if bool_decide (is_Some (of_val (A := option nat) (peek innerSub (below w))))
   then call_closure (of_val (peek innerSub (below w)))
   else ret tt) w = Ok (tt, w).
Proof.
  intros [_ [Hnil | (k & Hk & Hslot)]].
  - rewrite Hnil. reflexivity.
  - rewrite Hk. change (of_val (VFunc (Some k))) with (Some k).
    rewrite bool_decide_eq_true_2 by (now eexists).
    unfold call_closure. erewrite bind_run by reflexivity.
    rewrite Hslot. destruct w. reflexivity.
Qed.

Lemma Flatten_outer_next_From (args : list T) (w : FW) :
  synced innerSub outerCompleted w ->
  exists w',
    Flatten_outer_next (probe pol e c) innerSub outerCompleted (From args) w = Ok (true, w') /\
    synced innerSub outerCompleted w' /\
    trace (below w') = trace (below w) ++ served pol (trace (below w)) args.
Proof.
  intros Hsync. pose proof Hsync as [Hoc _].
  destruct w as [sl n b]. cbn [below] in *.
  unfold Flatten_outer_next.
  erewrite bind_run by (rewrite lift_below_refl_run, get_run; reflexivity).
  cbn [below slots next_slot].
  erewrite bind_run by (apply (call_innerSub_synced Hsync)).
  erewrite bind_run; cycle 1.
  { rewrite lift_below_run. cbn [below]. apply under_ok. unfold From.
    erewrite bind_run; cycle 1.
    { rewrite lift_run. apply (From_loop_served (pol := pol)). reflexivity. }
    erewrite bind_run; cycle 1.
    { rewrite lift_run. cbn [Complete call_if_not_nil].
      apply Flatten_inner_complete_early; [exact cells_differ|].
      rewrite peek_log. exact Hoc. }
    reflexivity. }
  erewrite bind_run by reflexivity.
  erewrite bind_run by (rewrite lift_below_refl_run, set_run; reflexivity).
  eexists. split; [reflexivity|]. split; [split|]; cbn [below slots next_slot].
  - rewrite !peek_poke_ne by exact cells_differ. now rewrite peek_log.
  - right. exists n. split; [apply peek_poke | apply lookup_insert_eq].
  - rewrite !trace_poke, trace_log. reflexivity.
Qed.

Lemma Flatten_outer_loop_Froms (xss : list (list T)) : forall w : FW,
  synced innerSub outerCompleted w ->
  exists w',
    From_loop (Flatten_outer_obs pol e c innerSub outerCompleted) (List.map From xss) w
    = Ok (tt, w') /\
    synced innerSub outerCompleted w' /\
    trace (below w') = trace (below w) ++ served_each pol (trace (below w)) xss.
Proof.
  induction xss as [|xs rest IH]; intros w Hsync.
  - exists w. split; [reflexivity|]. split; [exact Hsync|]. simpl. now rewrite app_nil_r.
  - cbn [List.map From_loop Flatten_outer_obs Next call1].
    destruct (Flatten_outer_next_From xs Hsync) as (w1 & Hrun & Hsync1 & Htr1).
    erewrite bind_run by exact Hrun. cbn [negb].
    destruct (IH w1 Hsync1) as (w' & Hrun' & Hsync' & Htr').
    exists w'. split; [exact Hrun'|]. split; [exact Hsync'|].
    rewrite Htr', Htr1. cbn [served_each]. now rewrite <- app_assoc.
Qed.
End FlattenFroms.

(** After the outer Stream has completed, [innerSub] still holds a no-op
    Subscription: the Subscription of [Flatten] delivers nothing. *)
Lemma Flatten_cancel_noop (innerSub : loc) (k : nat) (w : FW) :
  peek innerSub (below w) = VFunc (Some k) \/ peek innerSub (below w) = VFunc None ->
  slots w !! k = Some noop ->
  (do noop;
   h <- lift (L := lens_comp (lens_refl FW) (lens_comp (lens_below _ _) (lens_refl _)))
          (get innerSub);
   if bool_decide (is_Some (h : option nat))
   then lift (L := lens_refl FW) (call_closure h) else ret tt) w
  = Ok (tt, w).
Proof.
  intros Hh Hslot. destruct w as [sl n b]. cbn [below slots] in *.
  erewrite bind_run by reflexivity.
  erewrite bind_run by (rewrite lift_refl_below_refl_run, get_run; reflexivity).
  cbn [below]. destruct Hh as [-> | ->].
  - change (of_val (VFunc (Some k))) with (Some k).
    rewrite bool_decide_eq_true_2 by (now eexists).
    rewrite lift_refl_run. unfold call_closure.
    erewrite bind_run by reflexivity. cbn [slots]. now rewrite Hslot.
  - reflexivity.
Qed.

(** X20.  Over inner Streams built by [From], [Flatten] over [From] forwards
    their values and never completes, however many times its Subscription
    is called afterwards. *)
Lemma Flatten_Froms_never_complete {T} `{Storable T}
    (pol : list event -> T -> bool) (e c : bool) (xss : list (list T)) (n : nat) (b : Base) :
  trace_of (Flatten_From (List.map From xss) pol e c n (empty_layer b))
  = Some (trace b ++ served_each pol (trace b) xss)
  /\ completes (served_each pol (trace b) xss) = 0%nat.
Proof.
  split; [|apply completes_served_each].
  assert (Hcells : next_loc b <> S (next_loc b)) by lia.
  assert (Hsync : synced (next_loc b) (S (next_loc b)) (mkLayer ∅ 0%nat (Flatten_started b))).
  { split; cbn [below]; unfold Flatten_started, peek; cbn [heap].
    - now rewrite lookup_insert_eq.
    - left. rewrite lookup_insert_ne by lia. now rewrite lookup_insert_eq. }
  destruct (Flatten_outer_loop_Froms pol e c Hcells xss Hsync)
    as (w1 & Hrun & [Hoc1 Hsub1] & Htr).
  unfold Flatten_From, cancel_times, Flatten.
  erewrite bind_run; cycle 1.
  { erewrite bind_run by (rewrite lift_refl_below_refl_run, new_run; reflexivity).
    erewrite bind_run by (rewrite lift_refl_below_refl_run, new_run; reflexivity).
    cbn [empty_layer slots next_slot below next_loc heap trace].
    change (mkBase _ _ _) with (Flatten_started b).
    erewrite bind_run; cycle 1.
    { unfold From.
      erewrite bind_run by (rewrite lift_refl_run; exact Hrun).
      erewrite bind_run; cycle 1.
      { rewrite lift_refl_run. cbn [call_if_not_nil Complete].
        rewrite lift_below_refl_run, set_run. reflexivity. }
      reflexivity. }
    reflexivity. }
  cbn [below slots next_slot].
  set (w2 := mkLayer _ _ _).
  assert (Htr2 : trace (below w2) = trace b ++ served_each pol (trace b) xss).
  { unfold w2. cbn [below]. rewrite trace_poke. exact Htr. }
  assert (Hnoop : forall w : FW,
             (peek (next_loc b) (below w) = VFunc None \/
              exists k, peek (next_loc b) (below w) = VFunc (Some k) /\
                        slots w !! k = Some noop) ->
             (do noop;
              h <- lift (L := lens_comp (lens_refl FW)
                                 (lens_comp (lens_below _ _) (lens_refl _)))
                     (get (next_loc b));
              if bool_decide (is_Some (h : option nat))
              then lift (L := lens_refl FW) (call_closure h) else ret tt) w
             = Ok (tt, w)).
  { intros w [Hnil | (k & Hk & Hslot)].
    - destruct w as [sl m b']. cbn [below] in Hnil.
      erewrite bind_run by reflexivity.
      erewrite bind_run by (rewrite lift_refl_below_refl_run, get_run; reflexivity).
      cbn [below]. rewrite Hnil. reflexivity.
    - eapply Flatten_cancel_noop; [left; exact Hk | exact Hslot]. }
  assert (Hsub2 : peek (next_loc b) (below w2) = VFunc None \/
                  exists k, peek (next_loc b) (below w2) = VFunc (Some k) /\
                            slots w2 !! k = Some noop).
  { unfold w2. cbn [below slots]. rewrite peek_poke_ne by lia. exact Hsub1. }
  assert (Htimes : forall m, times m
             (do noop;
              h <- lift (L := lens_comp (lens_refl FW)
                                 (lens_comp (lens_below _ _) (lens_refl _)))
                     (get (next_loc b));
              if bool_decide (is_Some (h : option nat))
              then lift (L := lens_refl FW) (call_closure h) else ret tt) w2
             = Ok (tt, w2)).
  { induction m as [|m IH]; [reflexivity|]. cbn [times].
    erewrite bind_run by (apply Hnoop; exact Hsub2). exact IH. }
  rewrite Htimes. cbn [trace_of view lens_below]. now rewrite Htr2.
Qed.

(** * Further properties of the operators *)

(** ** Map and Filter over From *)

Section MapFilterFrom.
Context {C W : Type} {L : Lens W C}.

Lemma From_loop_Map {T U} (f : T -> U) (observer : Observer C U) (args : list T) :
  forall c : C,
    From_loop {| Next := Some (fun data => call1 (Next observer) (f data));
                 Error := Error observer;
                 Complete := Complete observer |} args c
    = From_loop observer (List.map f args) c.
Proof.
  induction args as [|v rest IH]; intros c; [reflexivity|].
  cbn [From_loop List.map Next call1]. unfold bind.
  destruct (call1 (Next observer) (f v) c) as [[ok c']|]; [|reflexivity].
  destruct ok; cbn [negb]; [apply IH | reflexivity].
Qed.

Lemma From_loop_Filter {T} (f : T -> bool) (observer : Observer C T) (args : list T) :
  forall c : C,
    From_loop {| Next := Some (fun data =>
                                 if f data then call1 (Next observer) data else ret true);
                 Error := Error observer;
                 Complete := Complete observer |} args c
    = From_loop observer (List.filter f args) c.
Proof.
  induction args as [|v rest IH]; intros c; [reflexivity|].
  cbn [From_loop List.filter Next call1]. destruct (f v).
  - cbn [From_loop]. unfold bind.
    destruct (call1 (Next observer) v c) as [[ok c']|]; [|reflexivity].
    destruct ok; cbn [negb]; [apply IH | reflexivity].
  - unfold bind, ret. cbn [negb]. apply IH.
Qed.

(** X1.  [Map f] over [From args] is [From] of the mapped values: for every
    Observer (nil fields included) and in every world, the two
    activations give the same result. *)
Theorem Map_From_is_From_map {T U} (f : T -> U) (args : list T)
    (observer : Observer C U) (w : W) :
  Map f (From args) observer w = From (List.map f args) observer w.
Proof.
  unfold Map, From, bind, lift. cbn [Complete].
  now rewrite From_loop_Map.
Qed.

(** X2.  [Filter f] over [From args] is [From] of the values that pass [f]:
    a value that is dropped is not shown to the Observer and does not
    stop the source. *)
Theorem Filter_From_is_From_filter {T} (f : T -> bool) (args : list T)
    (observer : Observer C T) (w : W) :
  Filter f (From args) observer w = From (List.filter f args) observer w.
Proof.
  unfold Filter, From, bind, lift. cbn [Complete].
  now rewrite From_loop_Filter.
Qed.
End MapFilterFrom.

(** ** Take over From *)

Lemma served_firstn {T} `{Storable T} (pol : list event -> T -> bool) (n : nat) :
  forall (args : list T) h,
    served pol h (firstn n args) = firstn n (served pol h args).
Proof.
  induction n as [|n IH]; intros args h; [reflexivity|].
  destruct args as [|v rest]; [reflexivity|].
  cbn [firstn served]. f_equal.
  destruct (pol h v); [apply IH | now rewrite firstn_nil].
Qed.

(** X3.  For [1 <= n], [Take n] over [From args] shows a recording observer
    what [From] of the first [n] values shows it, completion included. *)
Theorem Take_From_is_From_firstn {T} `{Storable T}
    (pol : list event -> T -> bool) (e c : bool) (n : Z) (args : list T) (w : Base) :
  1 <= n <= max_int ->
  trace_of (Take n (From args) (probe pol e c) w)
  = trace_of (From (firstn (Z.to_nat n) args) (probe pol e c) w).
Proof.
  intros Hn.
  destruct (Take_From_pos pol e c args w Hn) as (w' & Hrun & Htr).
  rewrite Hrun, From_probe. cbn [trace_of view lens_refl].
  now rewrite Htr, trace_log, served_firstn.
Qed.

Lemma Take_From_is_From_firstn_witness :
  trace_of (Take 2 (From [5; 6; 7]) (probe accept_all false true) empty_base)
  = trace_of (From [5; 6] (probe accept_all false true) empty_base).
Proof.
  apply (Take_From_is_From_firstn accept_all false true (n := 2) [5; 6; 7] empty_base).
  unfold max_int. lia.
Defined.

(** An operator applied to two sources that behave alike behaves alike. *)
Lemma Take_ext {C W T} {LB : Lens C Base} {L : Lens W C} (n : Z)
    (s1 s2 : Stream C W T) (observer : Observer C T) (w : W) :
  (forall o w', s1 o w' = s2 o w') ->
  Take n s1 observer w = Take n s2 observer w.
Proof.
  intros Hs. unfold Take, bind.
  destruct (lift (new 0) w) as [[i w']|]; [apply Hs | reflexivity].
Qed.

(** X4.  The values [Filter] drops do not count for a [Take] behind it:
    [Take n] over [Filter f] over [From args] shows the first [n] values
    that pass [f]. *)
Theorem Take_Filter_From_counts_passed_values {T} `{Storable T}
    (pol : list event -> T -> bool) (e c : bool) (n : Z) (f : T -> bool)
    (args : list T) (w : Base) :
  1 <= n <= max_int ->
  trace_of (Take n (Filter f (From args)) (probe pol e c) w)
  = trace_of (From (firstn (Z.to_nat n) (List.filter f args)) (probe pol e c) w).
Proof.
  intros Hn.
  rewrite (Take_ext n (Filter f (From args)) (From (List.filter f args))); cycle 1.
  { intros o w'. unfold Filter, From, bind, lift. cbn [Complete].
    now rewrite From_loop_Filter. }
  destruct (Take_From_pos pol e c (List.filter f args) w Hn) as (w' & Hrun & Htr).
  rewrite Hrun, From_probe. cbn [trace_of view lens_refl].
  now rewrite Htr, trace_log, served_firstn.
Qed.

Lemma Take_Filter_From_counts_passed_values_witness :
  trace_of (Take 2 (Filter even (From [1; 2; 3; 4; 5; 6])) (probe accept_all false true)
              empty_base)
  = trace_of (From [2; 4] (probe accept_all false true) empty_base).
Proof.
  apply (Take_Filter_From_counts_passed_values accept_all false true (n := 2) even
           [1; 2; 3; 4; 5; 6] empty_base).
  unfold max_int. lia.
Defined.

Section TakeNonPositive.
Context {T : Type} `{ST : Storable T}.
Variable pol : list event -> T -> bool.
Variables e c : bool.

Lemma Take_loop_nonpos n i args :
  n <= 0 ->
  forall (w : Base) (i0 : Z),
    peek i w = VInt i0 -> 0 <= i0 -> i0 + Z.of_nat (length args) <= max_int ->
    exists w', From_loop (Take_obs pol e c n i) args w = Ok (tt, w') /\
               trace w' = trace w ++ served pol (trace w) args.
Proof.
  intros Hn. induction args as [|v rest IH]; intros w i0 Hi Hi0 Hlen.
  - exists w. split; [reflexivity|]. now rewrite app_nil_r.
  - cbn [From_loop Take_obs Next call1].
    erewrite bind_run by apply Take_next_probe.
    rewrite Hi. change (of_val (VInt i0)) with i0.
    cbn [length] in Hlen.
    rewrite int_wrap_small by (unfold max_int in *; lia).
    replace (i0 + 1 =? n) with false by (symmetry; apply Z.eqb_neq; lia).
    cbn [served negb]. rewrite andb_true_r.
    destruct (pol (trace w) v) eqn:Hpol; cbn [negb].
    + edestruct (IH (poke i (VInt (i0 + 1)) (log [EvNext (to_val v) true] w)) (i0 + 1))
        as (w' & Hrun & Htr).
      { apply peek_poke. }
      { lia. }
      { lia. }
      exists w'. split; [exact Hrun|].
      rewrite Htr, trace_poke, trace_log, <- app_assoc. reflexivity.
    + eexists. split; reflexivity.
Qed.
End TakeNonPositive.

(** X5.  For [n <= 0] the counter of [Take] never meets [n]: over a [From]
    source, [Take n] shows a recording observer exactly what the source
    alone shows it. *)
Theorem Take_nonpositive_is_identity {T} `{Storable T}
    (pol : list event -> T -> bool) (e c : bool) (n : Z) (args : list T) (w : Base) :
  n <= 0 -> Z.of_nat (length args) <= max_int ->
  trace_of (Take n (From args) (probe pol e c) w)
  = trace_of (From args (probe pol e c) w).
Proof.
  intros Hn Hlen. unfold Take.
  erewrite bind_run by (rewrite lift_run; apply new_run).
  set (w0 := mkBase _ _ _).
  destruct (Take_loop_nonpos pol e c (next_loc w) args Hn w0 (i0 := 0))
    as (w1 & Hrun & Htr).
  { apply peek_alloc. }
  { lia. }
  { lia. }
  unfold From at 1.
  erewrite bind_run by (rewrite lift_run; exact Hrun).
  erewrite bind_run by (rewrite lift_run; apply (probe_complete_run pol e c)).
  rewrite From_probe. cbn [ret trace_of view lens_refl].
  rewrite !trace_log, Htr. unfold w0. cbn [trace]. now rewrite <- app_assoc.
Qed.

Lemma Take_nonpositive_is_identity_witness :
  trace_of (Take (-1) (From [5; 6; 7]) (probe accept_all false true) empty_base)
  = trace_of (From [5; 6; 7] (probe accept_all false true) empty_base).
Proof.
  apply (Take_nonpositive_is_identity accept_all false true (n := -1) [5; 6; 7] empty_base).
  - lia.
  - vm_compute. discriminate.
Defined.

(** ** FromListener *)

Section ListenerRun.
Context {T : Type} `{ST : Storable T}.
Variable pol : list event -> T -> bool.

Local Abbreviation LW := (Layer (T -> St Base unit) Base).

Lemma each_Listenable_Accept_nil (l : nat) (vs : list T) (w : LW) :
  slots w !! l = None -> each (Listenable_Accept l) vs w = Ok (tt, w).
Proof.
  intros Hnil. induction vs as [|v rest IH]; [reflexivity|]. cbn [each].
  erewrite bind_run; [exact IH|].
  unfold Listenable_Accept.
  erewrite bind_run by (rewrite lift_refl_run; reflexivity).
  now rewrite Hnil.
Qed.

(** While a callback that forwards to a recording observer is
    registered, every event reaches the observer, whatever it answers. *)
Lemma each_Listenable_Accept_active (l : nat) (cb : T -> St Base unit) (vs : list T) :
  (forall v b, exists b', cb v b = Ok (tt, b') /\
                          trace b' = trace b ++ [EvNext (to_val v) (pol (trace b) v)]) ->
  forall w : LW,
    slots w !! l = Some cb ->
    exists b', each (Listenable_Accept l) vs w
               = Ok (tt, mkLayer (slots w) (next_slot w) b') /\
               trace b' = trace (below w) ++ forwarded pol (trace (below w)) vs.
Proof.
  intros Hcb. induction vs as [|v rest IH]; intros w Hl.
  - exists (below w). split; [now destruct w|]. simpl. now rewrite app_nil_r.
  - destruct (Hcb v (below w)) as (b1 & Hrun1 & Htr1).
    destruct (IH (mkLayer (slots w) (next_slot w) b1) Hl) as (b' & Hrun & Htr).
    exists b'. cbn [each]. split.
    + erewrite bind_run; [exact Hrun|].
      unfold Listenable_Accept.
      erewrite bind_run by (rewrite lift_refl_run; reflexivity).
      rewrite Hl. unfold lift_listener. rewrite lift_comp_below_run.
      apply under_ok. exact Hrun1.
    + rewrite Htr. cbn [below forwarded]. rewrite Htr1, <- app_assoc. reflexivity.
Qed.

(** What the two Subscriptions below have in common: close the listener,
    then complete the observer when it can be. *)
Lemma Listener_cancel_run (l : nat) (e c : bool) (w : LW) :
  (do Close (Listenable (C := Base) (T := T) l);
   lift (call_if_not_nil (Complete (probe pol e c)))) w
  = Ok (tt, mkLayer (delete l (slots w)) (next_slot w)
                    (log ([EvClose] ++ (if c then [EvComplete] else [])) (below w))).
Proof.
  cbn [Listenable Close]. unfold Listenable_Close.
  erewrite bind_run; cycle 1.
  { erewrite bind_run; cycle 1.
    { unfold lift_listener. rewrite lift_comp_below_run, emit_run. reflexivity. }
    rewrite lift_refl_run. reflexivity. }
  rewrite lift_below_run. cbn [below slots next_slot].
  rewrite (probe_complete_run pol), log_log. reflexivity.
Qed.
End ListenerRun.

(** X6.  Over a [Listenable], a FromListener stream registers its callback
    on activation; every event that comes while it is registered
    reaches [Next], whatever [Next] answers; the Subscription closes the
    listener and then calls [Complete] when it is set; events that come
    before activation or after cancellation reach nobody. *)
Theorem FromListener_forwards_while_registered {T} `{Storable T}
    (pol : list event -> T -> bool) (e c : bool) (before during after : list T) (b : Base) :
  trace_of (Listener_life (fun s => s) pol e c before during after (empty_layer b))
  = Some (trace b ++ [EvListen]
          ++ forwarded pol (trace b ++ [EvListen]) during
          ++ [EvClose] ++ (if c then [EvComplete] else [])).
Proof.
  unfold Listener_life, new_Listenable.
  erewrite bind_run by (rewrite lift_refl_run; reflexivity).
  cbn [empty_layer slots next_slot below].
  erewrite bind_run by (apply each_Listenable_Accept_nil; apply lookup_empty).
  unfold FromListener at 1.
  erewrite bind_run; cycle 1.
  { erewrite bind_run; cycle 1.
    { cbn [Listenable Listen]. unfold Listenable_Listen.
      erewrite bind_run; cycle 1.
      { unfold lift_listener. rewrite lift_comp_below_run, emit_run. reflexivity. }
      rewrite lift_refl_run. reflexivity. }
    reflexivity. }
  cbn [slots next_slot below].
  edestruct (@each_Listenable_Accept_active T _ pol 0%nat
               (fun v : T => _ <- call1 (Next (probe pol e c)) v; ret tt) during)
    as (b1 & Hrun1 & Htr1); cycle 2.
  { erewrite bind_run by exact Hrun1. cbn [slots next_slot below].
    erewrite bind_run by apply (Listener_cancel_run pol).
    rewrite each_Listenable_Accept_nil by (cbn [slots]; apply lookup_delete_eq).
    cbn [trace_of view lens_below below].
    rewrite trace_log, Htr1. cbn [below]. rewrite trace_log, <- !app_assoc. reflexivity. }
  { intros v b0. cbn [probe Next call1].
    erewrite bind_run by apply probe_next_run. eexists. split; reflexivity. }
  { apply lookup_insert_eq. }
Qed.

(** X7.  [Take] asks its source to stop and drops nothing itself: over a
    FromListener stream, which does not look at the answer of [Next],
    every event reaches the observer, whatever [n] is. *)
Theorem Take_FromListener_forwards_every_event {T} `{Storable T} (n : Z)
    (pol : list event -> T -> bool) (e c : bool) (before during after : list T) (b : Base) :
  trace_of (Listener_life (Take n) pol e c before during after (empty_layer b))
  = Some (trace b ++ [EvListen]
          ++ forwarded pol (trace b ++ [EvListen]) during
          ++ [EvClose] ++ (if c then [EvComplete] else [])).
Proof.
  unfold Listener_life, new_Listenable.
  erewrite bind_run by (rewrite lift_refl_run; reflexivity).
  cbn [empty_layer slots next_slot below].
  erewrite bind_run by (apply each_Listenable_Accept_nil; apply lookup_empty).
  unfold Take at 1, FromListener at 1.
  erewrite bind_run; cycle 1.
  { erewrite bind_run by (rewrite lift_below_run, new_run; reflexivity).
    cbn [slots next_slot below].
    erewrite bind_run; cycle 1.
    { cbn [Listenable Listen]. unfold Listenable_Listen.
      erewrite bind_run; cycle 1.
      { unfold lift_listener. rewrite lift_comp_below_run, emit_run. reflexivity. }
      rewrite lift_refl_run. reflexivity. }
    reflexivity. }
  cbn [slots next_slot below Complete].
  edestruct (@each_Listenable_Accept_active T _ pol 0%nat
               (fun v : T => _ <- Take_next n (probe pol e c) (next_loc b) v; ret tt) during)
    as (b1 & Hrun1 & Htr1); cycle 2.
  { erewrite bind_run by exact Hrun1. cbn [slots next_slot below].
    erewrite bind_run by apply (Listener_cancel_run pol).
    rewrite each_Listenable_Accept_nil by (cbn [slots]; apply lookup_delete_eq).
    cbn [trace_of view lens_below below].
    rewrite trace_log, Htr1. cbn [below]. rewrite trace_log. cbn [trace].
    rewrite <- !app_assoc. reflexivity. }
  { intros v b0.
    erewrite bind_run by apply Take_next_probe. eexists. split; reflexivity. }
  { apply lookup_insert_eq. }
Qed.

(** ** StartWith *)

(** X8.  [StartWith data] calls [Next] on [data] before it looks at the
    source.  When [data] is accepted the source is activated with the
    same observer, so that over [From args] the run is the run of
    [From (data :: args)]; when [data] is refused the source, whatever
    it is, is not activated, the Subscription is the no-op one, and
    (unlike a [From] that is refused a value) nothing calls [Complete]. *)
Theorem StartWith_is_From_cons_unless_refused {T} `{Storable T} (data : T)
    (pol : list event -> T -> bool) (e c : bool) (w : Base) :
  (forall source : Stream Base Base T,
      StartWith data source (probe pol e c) w
      = if pol (trace w) data
        then source (probe pol e c) (log [EvNext (to_val data) true] w)
        else Ok (noop, log [EvNext (to_val data) false] w))
  /\ (forall args : list T,
         StartWith data (From args) (probe pol e c) w
         = if pol (trace w) data
           then From (data :: args) (probe pol e c) w
           else Ok (noop, log [EvNext (to_val data) false] w)).
Proof.
  assert (Hgen : forall source : Stream Base Base T,
             StartWith data source (probe pol e c) w
             = if pol (trace w) data
               then source (probe pol e c) (log [EvNext (to_val data) true] w)
               else Ok (noop, log [EvNext (to_val data) false] w)).
  { intros source. unfold StartWith.
    erewrite bind_run by (rewrite lift_run; apply probe_next_run).
    destruct (pol (trace w) data); reflexivity. }
  split; [exact Hgen|].
  intros args. rewrite Hgen.
  destruct (pol (trace w) data) eqn:Hok; [|reflexivity].
  rewrite !From_probe. cbn [served]. rewrite Hok, log_log, trace_log.
  reflexivity.
Qed.

(** ** Merge over sources that replay lists *)

Section MergeFroms.
Context {T : Type} `{ST : Storable T}.
Variable pol : list event -> T -> bool.
Variables e c : bool.

Lemma Merge_subscribe_Froms (k : Z) (l : loc) (argss : list (list T)) :
  forall (w : Base) (j : Z),
    peek l w = VInt j -> 0 <= j -> j + Z.of_nat (length argss) = k -> k <= max_int ->
    exists w',
      Merge_subscribe {| Next := Next (probe pol e c);
                         Complete := Some (Merge_complete k (probe pol e c) l);
                         Error := Error (probe pol e c) |}
                      (List.map From argss) w
      = Ok (repeat noop (length argss), w') /\
      trace w' = trace w ++ served_each pol (trace w) argss
                 ++ (match argss with [] => [] | _ => if c then [EvComplete] else [] end).
Proof.
  induction argss as [|args rest IH]; intros w j Hj Hj0 Hk Hmax.
  - exists w. split; [reflexivity|]. simpl. now rewrite app_nil_r.
  - cbn [List.map Merge_subscribe length repeat]. cbn [length] in Hk.
    set (inner := {| Next := _; Complete := _; Error := _ |}).
    set (j1 := j + 1).
    set (w1 := log (served pol (trace w) args) w).
    set (w2 := log (if (j1 =? k) && c then [EvComplete] else []) (poke l (VInt j1) w1)).
    assert (Hfrom : From args inner w = Ok (noop, w2)).
    { unfold From.
      erewrite bind_run; cycle 1.
      { rewrite lift_run. apply From_loop_served with (pol := pol). reflexivity. }
      erewrite bind_run; cycle 1.
      { rewrite lift_run. cbn [inner Complete call_if_not_nil].
        rewrite Merge_complete_run. rewrite peek_log, Hj.
        change (of_val (VInt j)) with j.
        rewrite int_wrap_small by (unfold max_int in *; lia). reflexivity. }
      reflexivity. }
    erewrite bind_run by exact Hfrom.
    destruct (IH w2 j1) as (w' & Hrun & Htr).
    { unfold w2. now rewrite peek_log, peek_poke. }
    { unfold j1. lia. }
    { unfold j1. cbn [length] in Hk. lia. }
    { exact Hmax. }
    erewrite bind_run by exact Hrun.
    exists w'. split; [reflexivity|].
    rewrite Htr. unfold w2. rewrite !trace_log, trace_poke. unfold w1. rewrite trace_log.
    cbn [served_each length] in *.
    destruct rest as [|args' rest'].
    + cbn [served_each length] in *. rewrite !app_nil_r.
      replace (j1 =? k) with true by (unfold j1; Zbool).
      cbn [andb]. now rewrite <- app_assoc.
    + replace (j1 =? k) with false by (unfold j1; cbn [length] in Hk; Zbool).
      cbn [andb]. rewrite app_nil_r, <- !app_assoc. reflexivity.
Qed.

Lemma Merge_unsubscribe_noops (k : nat) (w : Base) :
  Merge_unsubscribe (repeat noop k) w = Ok (tt, w).
Proof. induction k as [|k IH]; [reflexivity|]. cbn [repeat Merge_unsubscribe]. exact IH. Qed.
End MergeFroms.

(** X9.  [Merge] over [From] sources activates them one after the other:
    the observer is told the values of the first source, then those of
    the second, and so on; a refusal ends the source it was answered to
    and no other; [Complete] is called once, after the last source, when
    there is at least one source, and never for [Merge()] of no source;
    and the Subscription does nothing, however often it is called. *)
Theorem Merge_Froms_serves_each_then_completes {T} `{Storable T}
    (pol : list event -> T -> bool) (e c : bool) (argss : list (list T)) (n : nat)
    (w : Base) :
  Z.of_nat (length argss) <= max_int ->
  trace_of (cancel_times n (Merge (List.map From argss)) (probe pol e c) w)
  = Some (trace w ++ served_each pol (trace w) argss
          ++ (match argss with [] => [] | _ => if c then [EvComplete] else [] end)).
Proof.
  intros Hmax. unfold cancel_times, Merge.
  destruct (Merge_subscribe_Froms pol e c (k := Z.of_nat (length argss)) (next_loc w)
              argss (mkBase (<[next_loc w := to_val 0]> (heap w)) (S (next_loc w)) (trace w))
              (j := 0)) as (w' & Hrun & Htr).
  { apply peek_alloc. }
  { lia. }
  { lia. }
  { exact Hmax. }
  erewrite bind_run; cycle 1.
  { erewrite bind_run by (rewrite lift_run, new_run; reflexivity).
    rewrite length_map. erewrite bind_run by exact Hrun. reflexivity. }
  assert (Htimes : forall m, times m (Merge_unsubscribe (repeat noop (length argss))) w'
                             = Ok (tt, w')).
  { induction m as [|m IH]; [reflexivity|]. cbn [times].
    erewrite bind_run by apply Merge_unsubscribe_noops. exact IH. }
  rewrite Htimes. cbn [trace_of view lens_refl]. rewrite Htr. reflexivity.
Qed.

Lemma Merge_Froms_serves_each_then_completes_witness :
  trace_of (cancel_times 2 (Merge (List.map From [[1; 2]; []; [3]]))
              (probe (fun _ v => negb (v =? 1)) false true) empty_base)
  = Some [EvNext (VInt 1) false; EvNext (VInt 3) true; EvComplete].
Proof.
  refine (eq_trans (Merge_Froms_serves_each_then_completes
                      (fun _ v => negb (v =? 1)) false true [[1; 2]; []; [3]] 2
                      empty_base _) _).
  - vm_compute. discriminate.
  - reflexivity.
Defined.

(** ** The Subscription of Merge *)

Section MergeSpies.
Context {T : Type} `{ST : Storable T}.
Variable pol : list event -> T -> bool.
Variables e c : bool.
Variable k : Z.
Variable l : loc.

Local Abbreviation inner := (Merge_obs pol e c k l).

Lemma Merge_subscribe_Spies (spies : list (nat * bool)) : forall w : Base,
  Merge_subscribe inner (List.map Spy spies) w
  = Ok (List.map (fun spy => Spy_cancel (fst spy) (snd spy) inner) spies,
        log (List.map (fun spy => EvActivate (fst spy)) spies) w).
Proof.
  induction spies as [|spy rest IH]; intros w.
  - cbn [List.map Merge_subscribe]. unfold ret. now rewrite log_nil.
  - cbn [List.map Merge_subscribe].
    erewrite bind_run; cycle 1.
    { unfold Spy. erewrite bind_run by (rewrite lift_run; apply emit_run). reflexivity. }
    erewrite bind_run by apply IH.
    unfold ret. now rewrite log_log.
Qed.

Lemma Merge_unsubscribe_Spies (spies : list (nat * bool)) : forall (w : Base) (j seen : Z),
  peek l w = VInt j -> 0 <= j <= seen -> seen + Z.of_nat (length spies) = k ->
  k <= max_int ->
  exists w',
    Merge_unsubscribe
      (List.map (fun spy => Spy_cancel (fst spy) (snd spy) inner) spies) w = Ok (tt, w') /\
    trace w' = trace w ++ List.map (fun spy => EvCancel (fst spy)) spies
               ++ (match spies with
                   | [] => []
                   | _ => if (j =? seen) && forallb snd spies && c then [EvComplete] else []
                   end).
Proof.
  induction spies as [|[id fin] rest IH]; intros w j seen Hj Hjs Hk Hmax.
  - exists w. split; [reflexivity|]. simpl. now rewrite app_nil_r.
  - cbn [List.map Merge_unsubscribe fst snd length] in *.
    set (j1 := if fin then j + 1 else j).
    assert (Hcancel : exists w1,
               Spy_cancel id fin inner w = Ok (tt, w1) /\
               peek l w1 = VInt j1 /\
               trace w1 = trace w ++ [EvCancel id]
                          ++ (if fin && (j + 1 =? k) && c then [EvComplete] else [])).
    { unfold Spy_cancel.
      erewrite bind_run by (rewrite lift_run; apply emit_run).
      destruct fin; cbn [andb].
      - rewrite lift_run. cbn [Merge_obs Complete call_if_not_nil].
        rewrite Merge_complete_run, peek_log, Hj. change (of_val (VInt j)) with j.
        rewrite int_wrap_small by (unfold max_int in *; lia).
        eexists. split; [reflexivity|]. split.
        + now rewrite peek_log, peek_poke.
        + now rewrite trace_log, trace_poke, trace_log, <- app_assoc.
      - eexists. split; [reflexivity|]. split.
        + now rewrite peek_log.
        + now rewrite trace_log. }
    destruct Hcancel as (w1 & Hrun1 & Hpeek1 & Htr1).
    erewrite bind_run by exact Hrun1.
    destruct (IH w1 j1 (seen + 1)) as (w' & Hrun & Htr).
    { exact Hpeek1. }
    { unfold j1. destruct fin; lia. }
    { lia. }
    { exact Hmax. }
    exists w'. split; [exact Hrun|].
    rewrite Htr, Htr1, <- !app_assoc. f_equal. cbn [app]. f_equal.
    destruct rest as [|spy' rest'].
    + cbn [List.map app forallb length snd] in *. rewrite app_nil_r, andb_true_r.
      destruct fin; cbn [andb]; [|now rewrite andb_false_r].
      replace (j + 1 =? k) with (j =? seen) by Zbool.
      now rewrite andb_true_r.
    + cbn [length] in Hk. cbn [forallb snd].
      replace (j + 1 =? k) with false by Zbool.
      rewrite andb_false_r. cbn [andb app]. f_equal.
      unfold j1. destruct fin; cbn [andb].
      * replace (j + 1 =? seen + 1) with (j =? seen) by Zbool. reflexivity.
      * replace (j =? seen + 1) with false by Zbool. now rewrite andb_false_r.
Qed.
End MergeSpies.

(** X10.  The Subscription of [Merge] calls the Subscription of every source,
    in the order the sources were given, after all of them were
    activated in that order.  When cancelling completes every source
    the downstream [Complete] is called once, after the last source was
    cancelled; when one source does not complete on cancellation it is
    not called. *)
Theorem Merge_cancel_reaches_every_source {T} `{Storable T}
    (pol : list event -> T -> bool) (e c : bool) (spies : list (nat * bool)) (w : Base) :
  Z.of_nat (length spies) <= max_int ->
  trace_of (cancel_times 1 (Merge (List.map Spy spies)) (probe pol e c) w)
  = Some (trace w
          ++ List.map (fun spy => EvActivate (fst spy)) spies
          ++ List.map (fun spy => EvCancel (fst spy)) spies
          ++ (match spies with
              | [] => []
              | _ => if forallb snd spies && c then [EvComplete] else []
              end)).
Proof.
  intros Hmax. unfold cancel_times, Merge.
  erewrite bind_run; cycle 1.
  { erewrite bind_run by (rewrite lift_run, new_run; reflexivity).
    rewrite length_map.
    erewrite bind_run by apply Merge_subscribe_Spies. reflexivity. }
  cbn [times].
  edestruct (@Merge_unsubscribe_Spies T _ pol e c (Z.of_nat (length spies)) (next_loc w)
               spies
               (log (List.map (fun spy => EvActivate (fst spy)) spies)
                    (mkBase (<[next_loc w := to_val 0]> (heap w)) (S (next_loc w)) (trace w)))
               0 0) as (w' & Hrun & Htr); cycle 4.
  { erewrite bind_run by exact Hrun. unfold ret.
    cbn [trace_of view lens_refl]. rewrite Htr, trace_log. cbn [trace].
    rewrite <- !app_assoc. reflexivity. }
  { rewrite peek_log. apply peek_alloc. }
  { lia. }
  { lia. }
  { exact Hmax. }
Qed.

Lemma Merge_cancel_reaches_every_source_witness :
  trace_of (cancel_times 1 (Merge (List.map Spy [(1, true); (2, true)]%nat))
              (probe (T := Z) accept_all false true) empty_base)
  = Some [EvActivate 1; EvActivate 2; EvCancel 1; EvCancel 2; EvComplete].
Proof.
  refine (eq_trans (Merge_cancel_reaches_every_source (T := Z) accept_all false true
                      [(1, true); (2, true)]%nat empty_base _) _).
  - vm_compute. discriminate.
  - reflexivity.
Defined.

(** ** Consumers *)

Lemma bind_assoc_run {W A B D} (m : St W A) (k1 : A -> St W B) (k2 : B -> St W D) (w : W) :
  bind (bind m k1) k2 w = bind m (fun a => bind (k1 a) k2) w.
Proof. unfold bind. destruct (m w) as [[a w1]|]; reflexivity. Qed.

Lemma bind_ext_run {W A B} (m : St W A) (k k' : A -> St W B) (w : W) :
  (forall a w1, k a w1 = k' a w1) -> bind m k w = bind m k' w.
Proof. intros Hk. unfold bind. destruct (m w) as [[a w1]|]; [apply Hk | reflexivity]. Qed.

Lemma From_loop_ForEach {T} (f : option (T -> St Base unit)) (args : list T) :
  forall w : Base,
    From_loop {| Next := Some (fun t => do call1 f t; ret true);
                 Error := None; Complete := None |} args w
    = each (call1 f) args w.
Proof.
  induction args as [|v rest IH]; intros w; [reflexivity|].
  cbn [From_loop each Next]. change (call1 (Some ?g) v) with (g v). cbv beta.
  rewrite bind_assoc_run. apply bind_ext_run. intros [] w1. apply IH.
Qed.

(** X11.  [ForEach f] over [From args] is the loop
    [for _, v := range args { f(v) }]: [f] is called on every value in
    order, since the observer [ForEach] builds always answers true, and
    nothing else happens, the observer having no [Complete]; with a nil
    [f] the first value panics and no value does not. *)
Theorem ForEach_From_is_range_loop {T} (f : option (T -> St Base unit)) (args : list T)
    (w : Base) :
  ForEach f (From args) w = (do each (call1 f) args; ret noop) w.
Proof.
  unfold ForEach, From.
  unfold bind at 1. rewrite lift_run, From_loop_ForEach.
  unfold bind. destruct (each (call1 f) args w) as [[[] w1]|]; reflexivity.
Qed.

Lemma last_cons_default {A} (l : list A) : forall a d : A,
  List.last (a :: l) d = List.last l a.
Proof.
  induction l as [|b l IH]; intros a d; [reflexivity|].
  change (List.last (a :: b :: l) d) with (List.last (b :: l) d).
  now rewrite !IH.
Qed.

Section CollectPure.
Context {T X : Type} `{SX : Storable X}.
Variable f : T -> X.

Lemma Collect_pure_loop (x : loc) (args : list T) : forall (w : Base),
  exists w',
    From_loop {| Next := Some (fun t => r <- ret (f t); do set x r; ret true);
                 Error := None; Complete := None |} args w = Ok (tt, w') /\
    of_val (peek x w') = List.last (List.map f args) (of_val (peek x w)).
Proof.
  induction args as [|t rest IH]; intros w.
  - exists w. split; reflexivity.
  - cbn [From_loop Next call1].
    erewrite bind_run; cycle 1.
    { erewrite bind_run by reflexivity.
      erewrite bind_run by apply set_run. reflexivity. }
    cbn [negb].
    destruct (IH (poke x (to_val (f t)) w)) as (w' & Hrun & Hx).
    exists w'. split; [exact Hrun|].
    rewrite Hx, peek_poke, of_to_val. cbn [List.map].
    now rewrite last_cons_default.
Qed.
End CollectPure.

(** X12.  [Collect(fn)] over [From args], for a function [fn] without side
    effect, returns [fn] of the last value, and the zero value of the
    result type when there is no value. *)
Theorem Collect_From_returns_last_result {T X} `{Storable X} (f : T -> X)
    (args : list T) (w : Base) :
  result_of ((collect <- Collect (fun t => ret (f t)); collect (From args)) w)
  = Some (List.last (List.map f args) zero).
Proof.
  unfold Collect.
  erewrite bind_run; cycle 1.
  { erewrite bind_run by apply new_run. reflexivity. }
  set (w0 := mkBase _ _ _).
  destruct (Collect_pure_loop f (next_loc w) args w0) as (w' & Hrun & Hx).
  unfold From.
  erewrite bind_run; cycle 1.
  { erewrite bind_run by (rewrite lift_run; exact Hrun).
    erewrite bind_run by (rewrite lift_run; reflexivity).
    reflexivity. }
  rewrite lift_run, get_run. cbn [result_of]. rewrite Hx.
  unfold w0. now rewrite peek_alloc, of_to_val.
Qed.

Section CollectSliceAgain.
Context {T : Type} `{ST : Storable T}.

Lemma Collect_ToSlice_run (a x : loc) (args acc : list T) (w : Base) :
  a <> x ->
  of_val (peek a w) = acc ->
  of_val (peek x w) = acc ->
  exists w',
    (_ <- From args (Collect_obs a x); lift (get (A := list T) x)) w
    = Ok (acc ++ args, w') /\
    of_val (peek a w') = acc ++ args /\
    of_val (peek x w') = acc ++ args.
Proof.
  intros Hax Ha Hx.
  destruct (Collect_loop args Hax w Ha) as (w' & Hrun & Ha' & Hnil & Hcons).
  exists w'. unfold From.
  erewrite bind_run; cycle 1.
  { erewrite bind_run by (rewrite lift_run; exact Hrun).
    erewrite bind_run by (rewrite lift_run; reflexivity).
    reflexivity. }
  rewrite lift_run, get_run.
  assert (Hx' : of_val (peek x w') = acc ++ args).
  { destruct args as [|t rest].
    - rewrite Hnil by reflexivity. now rewrite app_nil_r.
    - apply Hcons. congruence. }
  rewrite Hx'. repeat split; assumption.
Qed.
End CollectSliceAgain.

(** X13.  The function [Collect(ToSlice())] returns keeps its slice between
    calls: applied to a second source it returns the values of the first
    source followed by those of the second. *)
Theorem Collect_ToSlice_accumulates_across_sources {T} `{Storable T}
    (args1 args2 : list T) (w : Base) :
  result_of ((fn <- ToSlice; collect <- Collect fn;
              _ <- collect (From args1); collect (From args2)) w)
  = Some (args1 ++ args2).
Proof.
  unfold ToSlice, Collect.
  erewrite bind_run; cycle 1.
  { erewrite bind_run by apply new_run. reflexivity. }
  erewrite bind_run; cycle 1.
  { erewrite bind_run by apply new_run. reflexivity. }
  set (a := next_loc w).
  set (w1 := mkBase (<[a := to_val (zero : list T)]> (heap w)) (S a) (trace w)).
  set (w2 := mkBase (<[S a := to_val (zero : list T)]> (heap w1)) (S (S a)) (trace w1)).
  assert (Hax : a <> S a) by lia.
  destruct (@Collect_ToSlice_run T _ a (S a) args1 [] w2 Hax)
    as (w3 & Hrun1 & Ha3 & Hx3).
  { unfold peek, w2, w1; simpl.
    rewrite lookup_insert_ne by lia. now rewrite lookup_insert_eq. }
  { unfold peek, w2; simpl. now rewrite lookup_insert_eq. }
  erewrite bind_run by exact Hrun1.
  destruct (@Collect_ToSlice_run T _ a (S a) args2 _ w3 Hax Ha3 Hx3)
    as (w4 & Hrun2 & _ & _).
  unfold Collect_obs, ToSlice_fn in Hrun2.
  change (next_loc w1) with (S a). rewrite Hrun2. reflexivity.
Qed.

Lemma pushes_accepted {T} (o : Observer Base T) (obs : nat) (vs : list T) :
  (forall v b, exists b', call1 (Next o) v b = Ok (true, b')) ->
  forall w : Layer (Observer Base T) Base,
    slots w !! obs = Some o ->
    exists b', pushes (Accept_push obs) vs w
               = Ok (repeat true (length vs), mkLayer (slots w) (next_slot w) b').
Proof.
  intros Ho. induction vs as [|v rest IH]; intros w Hobs.
  - exists (below w). now destruct w.
  - destruct (Ho v (below w)) as (b1 & Hrun1).
    destruct (IH (mkLayer (slots w) (next_slot w) b1) Hobs) as (b' & Hrun).
    exists b'. cbn [pushes length repeat].
    erewrite bind_run; cycle 1.
    { unfold Accept_push.
      erewrite bind_run by (rewrite lift_refl_run; reflexivity).
      rewrite Hobs. unfold lift_accept. rewrite lift_comp_below_run, Hrun1. reflexivity. }
    erewrite bind_run by exact Hrun. reflexivity.
Qed.

(** X14.  [Collect] reads its variable as soon as the activation of the source
    returns, and drops the Subscription.  Over a source that delivers
    later, such as an Accept stream, it returns the zero value; the
    values pushed afterwards are all accepted, and nobody sees them. *)
Theorem Collect_returns_before_pushed_values {T} `{Storable T} (vs : list T) (b : Base) :
  result_of (Collect_Accept vs (empty_layer b)) = Some ([], repeat true (length vs)).
Proof.
  unfold Collect_Accept, Accept, ToSlice, Collect.
  erewrite bind_run; cycle 1.
  { erewrite bind_run by (rewrite lift_refl_run; reflexivity). reflexivity. }
  cbn [empty_layer slots next_slot below].
  erewrite bind_run; cycle 1.
  { rewrite lift_below_run. cbn [below].
    erewrite bind_run by apply new_run. reflexivity. }
  cbn [under slots next_slot].
  erewrite bind_run; cycle 1.
  { rewrite lift_below_run. cbn [below].
    erewrite bind_run by apply new_run. reflexivity. }
  cbn [under slots next_slot next_loc].
  erewrite bind_run; cycle 1.
  { erewrite bind_run; cycle 1.
    { unfold Accept_stream.
      erewrite bind_run by (rewrite lift_refl_run; reflexivity). reflexivity. }
    rewrite lift_below_run. cbn [below slots next_slot].
    rewrite get_run. unfold peek. cbn [heap].
    rewrite lookup_insert_eq. cbn [default from_option id under].
    rewrite of_to_val. reflexivity. }
  cbn [slots next_slot below].
  match goal with
  | |- context [bind (pushes (Accept_push ?k) vs) _ (mkLayer (<[?k := ?o]> ?sl) ?n ?b0)] =>
      assert (Ho : forall v b1, exists b', call1 (Next o) v b1 = Ok (true, b'));
      [| destruct (@pushes_accepted T o k vs Ho (mkLayer (<[k := o]> sl) n b0)
                     (lookup_insert_eq _ _ _)) as (b' & Hrun) ]
  end.
  { intros v b1. cbn [Next call1].
    erewrite bind_run; cycle 1.
    { erewrite bind_run by apply get_run.
      erewrite bind_run by apply set_run.
      apply get_run. }
    erewrite bind_run by apply set_run.
    eexists. reflexivity. }
  erewrite bind_run by exact Hrun. reflexivity.
Qed.

(** ** The ticks of Periodic *)

Section PeriodicRun.
Variable pol : list event -> Z -> bool.
Variables e c : bool.
Variable g : nat.

Local Abbreviation PW := (Layer (PeriodicVars Base) Base).
Local Abbreviation obs := (probe pol e c).

Lemma Periodic_unsub_live (i : Z) (w : PW) :
  slots w !! g = Some (mkPeriodicVars obs i false false) ->
  exists w',
    Periodic_unsub obs g w = Ok (tt, w') /\
    slots w' !! g = Some (mkPeriodicVars obs i true true) /\
    trace (below w') = trace (below w) ++ EvTickerStop :: (if c then [EvComplete] else []).
Proof.
  intros Hg. unfold Periodic_unsub, Once_Do.
  erewrite bind_run by apply var_run.
  rewrite Hg. cbn [default from_option id p_closeCh].
  erewrite bind_run; cycle 1.
  { erewrite bind_run; cycle 1.
    { unfold lift_goroutine. rewrite lift_comp_below_run, emit_run. reflexivity. }
    cbn [slots next_slot below].
    erewrite bind_run; cycle 1.
    { unfold close_done. erewrite bind_run by apply var_run.
      cbn [slots]. rewrite Hg. cbn [default from_option id p_done].
      rewrite assign_run. cbn [slots]. rewrite Hg. reflexivity. }
    unfold lift_goroutine. rewrite lift_comp_below_run. cbn [below slots next_slot].
    rewrite (probe_complete_run pol). reflexivity. }
  rewrite assign_run. cbn [slots]. rewrite lookup_insert_eq.
  eexists. split; [reflexivity|]. cbn [slots below]. split.
  - rewrite lookup_insert_eq. reflexivity.
  - rewrite !trace_log, <- app_assoc. reflexivity.
Qed.

Lemma tick_live (i : Z) (w : PW) :
  slots w !! g = Some (mkPeriodicVars obs i false false) ->
  let ok := pol (trace (below w)) i in
  exists w',
    tick g w = Ok (tt, w') /\
    slots w' !! g = Some (mkPeriodicVars obs (int_wrap (i + 1)) (negb ok) (negb ok)) /\
    trace (below w')
    = trace (below w)
      ++ EvNext (VInt i) ok
         :: (if ok then [] else EvTickerStop :: (if c then [EvComplete] else [])).
Proof.
  intros Hg ok. unfold tick.
  erewrite bind_run by (rewrite lift_refl_run; reflexivity).
  rewrite Hg. cbn [p_observer]. unfold Periodic_loop.
  erewrite bind_run by apply var_run.
  rewrite Hg. cbn [default from_option id p_done].
  erewrite bind_run by apply var_run.
  rewrite Hg. cbn [default from_option id p_i].
  erewrite bind_run; cycle 1.
  { unfold lift_goroutine. rewrite lift_comp_below_run.
    cbn [probe Next call1]. rewrite probe_next_run. reflexivity. }
  fold ok. cbn [under].
  set (w1 := mkLayer _ _ _).
  assert (Hg1 : slots w1 !! g = Some (mkPeriodicVars obs i false false)) by exact Hg.
  destruct ok eqn:Hok; cbn [negb].
  - erewrite bind_run by reflexivity.
    erewrite bind_run by apply var_run.
    rewrite Hg1. cbn [default from_option id p_i].
    rewrite assign_run, Hg1.
    eexists. split; [reflexivity|]. cbn [slots below]. split.
    + now rewrite lookup_insert_eq.
    + unfold w1. cbn [below]. now rewrite trace_log.
  - destruct (@Periodic_unsub_live i w1 Hg1) as (w2 & Hrun2 & Hg2 & Htr2).
    erewrite bind_run by exact Hrun2.
    erewrite bind_run by apply var_run.
    rewrite Hg2. cbn [default from_option id p_i].
    rewrite assign_run, Hg2.
    eexists. split; [reflexivity|]. cbn [slots below]. split.
    + now rewrite lookup_insert_eq.
    + rewrite Htr2. unfold w1. cbn [below]. rewrite trace_log, <- app_assoc.
      reflexivity.
Qed.

Lemma tick_returned (v : PeriodicVars Base) (w : PW) :
  slots w !! g = Some v -> p_done v = true -> tick g w = Ok (tt, w).
Proof.
  intros Hg Hdone. unfold tick.
  erewrite bind_run by (rewrite lift_refl_run; reflexivity).
  rewrite Hg. unfold Periodic_loop.
  erewrite bind_run by apply var_run.
  rewrite Hg. cbn [default from_option id]. now rewrite Hdone.
Qed.

Lemma ticks_returned (v : PeriodicVars Base) (w : PW) (k : nat) :
  slots w !! g = Some v -> p_done v = true -> times k (tick g) w = Ok (tt, w).
Proof.
  intros Hg Hdone. induction k as [|k IH]; [reflexivity|]. cbn [times].
  erewrite bind_run by (eapply tick_returned; eassumption). exact IH.
Qed.

Lemma cancels_fired (v : PeriodicVars Base) (w : PW) (n : nat) :
  slots w !! g = Some v -> p_closeCh v = true ->
  times n (Periodic_unsub obs g) w = Ok (tt, w).
Proof.
  intros Hg Hfired. induction n as [|n IH]; [reflexivity|]. cbn [times].
  erewrite bind_run; [exact IH|].
  apply Periodic_unsub_fired. now rewrite Hg.
Qed.

Lemma ticks_live (k : nat) : forall (i : Z) (w : PW),
  slots w !! g = Some (mkPeriodicVars obs i false false) ->
  let told := ticked pol c (trace (below w)) i k in
  exists w' i',
    times k (tick g) w = Ok (tt, w') /\
    slots w' !! g = Some (mkPeriodicVars obs i' (negb (forallb answer told))
                                         (negb (forallb answer told))) /\
    trace (below w') = trace (below w) ++ told.
Proof.
  induction k as [|k IH]; intros i w Hg told.
  - exists w, i. split; [reflexivity|]. split; [exact Hg|]. unfold told. simpl.
    now rewrite app_nil_r.
  - destruct (@tick_live i w Hg) as (w1 & Hrun1 & Hg1 & Htr1).
    cbn [times]. erewrite bind_run by exact Hrun1.
    unfold told. cbn [ticked].
    destruct (pol (trace (below w)) i) eqn:Hok; cbn [negb] in Hg1.
    + destruct (IH _ w1 Hg1) as (w' & i' & Hrun & Hg' & Htr).
      rewrite Htr1 in Hg', Htr.
      exists w', i'. split; [exact Hrun|]. cbn [forallb answer andb]. split; [exact Hg'|].
      rewrite Htr, <- app_assoc. reflexivity.
    + exists w1, (int_wrap (i + 1)).
      split; [eapply ticks_returned; [exact Hg1 | reflexivity]|].
      cbn [forallb answer andb negb]. split; [exact Hg1|]. exact Htr1.
Qed.
End PeriodicRun.

(** X15.  Activated with a recording observer, [Periodic] sends the value of
    its counter at every tick, starting with 0 and adding one each time;
    the first refusal stops the ticker, closes [done] and calls
    [Complete] when it is set, and from then on a tick reaches nobody. *)
Theorem Periodic_counts_ticks_until_refused (pol : list event -> Z -> bool) (e c : bool)
    (ticks : nat) (b : Base) :
  trace_of (Periodic_life pol e c ticks 0 0 (empty_layer b))
  = Some (trace b ++ ticked pol c (trace b) 0 ticks).
Proof.
  unfold Periodic_life, Periodic.
  erewrite bind_run; cycle 1.
  { erewrite bind_run by (rewrite lift_refl_run; reflexivity). reflexivity. }
  cbn [empty_layer slots next_slot below].
  set (w0 := mkLayer _ _ _).
  destruct (@ticks_live pol e c 0%nat ticks 0 w0 (lookup_insert_eq _ _ _))
    as (w' & i' & Hrun & _ & Htr).
  erewrite bind_run by exact Hrun.
  cbn [times]. erewrite bind_run by reflexivity.
  cbn [trace_of view lens_below ret]. rewrite Htr. reflexivity.
Qed.

(** X16.  Once its Subscription was called, whether once or several times,
    [Periodic] sends nothing more, whatever the number of ticks that
    follow; over the whole activation the ticker is stopped once and
    [Complete] called once: by the first refusal if there was one before
    the Subscription was called, by the Subscription otherwise. *)
Theorem Periodic_cancel_ends_the_ticks (pol : list event -> Z -> bool) (e c : bool)
    (ticks n later : nat) (b : Base) :
  let told := ticked pol c (trace b) 0 ticks in
  trace_of (Periodic_life pol e c ticks (S n) later (empty_layer b))
  = Some (trace b ++ told
          ++ (if forallb answer told
              then EvTickerStop :: (if c then [EvComplete] else [])
              else [])).
Proof.
  intros told. unfold Periodic_life, Periodic.
  erewrite bind_run; cycle 1.
  { erewrite bind_run by (rewrite lift_refl_run; reflexivity). reflexivity. }
  cbn [empty_layer slots next_slot below].
  set (w0 := mkLayer _ _ _).
  destruct (@ticks_live pol e c 0%nat ticks 0 w0 (lookup_insert_eq _ _ _))
    as (w' & i' & Hrun & Hg & Htr).
  erewrite bind_run by exact Hrun.
  change (ticked pol c (trace (below w0)) 0 ticks) with told in Hg, Htr.
  change (trace (below w0)) with (trace b) in Htr.
  destruct (forallb answer told); cbn [negb] in Hg.
  - destruct (@Periodic_unsub_live pol e c 0%nat i' w' Hg) as (w2 & Hrun2 & Hg2 & Htr2).
    cbn [times].
    erewrite bind_run; cycle 1.
    { erewrite bind_run by exact Hrun2.
      eapply cancels_fired; [exact Hg2 | reflexivity]. }
    erewrite ticks_returned by (first [exact Hg2 | reflexivity]).
    cbn [trace_of view lens_below]. rewrite Htr2, Htr, <- app_assoc. reflexivity.
  - erewrite bind_run by (eapply cancels_fired; [exact Hg | reflexivity]).
    erewrite ticks_returned by (first [exact Hg | reflexivity]).
    cbn [trace_of view lens_below]. rewrite Htr, app_nil_r. reflexivity.
Qed.

Lemma ticked_accept_all (c : bool) (k : nat) : forall (h : list event) (i : Z),
  0 <= i -> i + Z.of_nat k <= max_int ->
  ticked accept_all c h i k
  = List.map (fun j => EvNext (VInt (i + Z.of_nat j)) true) (seq 0 k).
Proof.
  induction k as [|k IH]; intros h i Hi Hmax; [reflexivity|].
  cbn [ticked accept_all seq List.map]. rewrite Z.add_0_r. f_equal.
  rewrite int_wrap_small by (unfold max_int in *; lia).
  rewrite IH by lia. rewrite <- seq_shift, map_map.
  apply map_ext. intros j. do 2 f_equal. lia.
Qed.

(** X17.  As long as the observer accepts, the values [Periodic] sends are the
    tick numbers 0, 1, 2, ... *)
Theorem Periodic_sends_tick_numbers (e c : bool) (ticks : nat) (b : Base) :
  Z.of_nat ticks <= max_int ->
  trace_of (Periodic_life accept_all e c ticks 0 0 (empty_layer b))
  = Some (trace b ++ List.map (fun j => EvNext (VInt (Z.of_nat j)) true) (seq 0 ticks)).
Proof.
  intros Hmax.
  unfold Periodic_life, Periodic.
  erewrite bind_run; cycle 1.
  { erewrite bind_run by (rewrite lift_refl_run; reflexivity). reflexivity. }
  cbn [empty_layer slots next_slot below].
  set (w0 := mkLayer _ _ _).
  destruct (@ticks_live accept_all e c 0%nat ticks 0 w0 (lookup_insert_eq _ _ _))
    as (w' & i' & Hrun & _ & Htr).
  erewrite bind_run by exact Hrun.
  cbn [times]. erewrite bind_run by reflexivity.
  cbn [trace_of view lens_below ret]. rewrite Htr.
  rewrite ticked_accept_all by lia. reflexivity.
Qed.

Lemma Periodic_sends_tick_numbers_witness :
  trace_of (Periodic_life accept_all false true 3 0 0 (empty_layer empty_base))
  = Some [EvNext (VInt 0) true; EvNext (VInt 1) true; EvNext (VInt 2) true].
Proof.
  refine (eq_trans (Periodic_sends_tick_numbers false true 3 empty_base _) _).
  - vm_compute. discriminate.
  - reflexivity.
Defined.

(** ** An Accept stream has one registration *)

(** X18.  The Stream [Accept] returns keeps one observer.  A second activation
    replaces the first observer: the values pushed from then on reach
    the second observer only.  The Subscription of the first activation
    then calls the [Complete] of the first observer and clears the
    registration, so that the second observer, which was never
    completed, receives nothing more. *)
Theorem Accept_second_activation_replaces_first {T} `{Storable T}
    (pol1 pol2 : list event -> T -> bool) (c1 c2 : bool)
    (first second after : list T) (b : Base) :
  let r := Accept_twice pol1 pol2 c1 c2 first second after (empty_layer b) in
  let told1 := forwarded pol1 (trace b) first in
  let told2 := forwarded pol2 (trace b ++ told1) second in
  result_of r = Some (List.map answer told1, List.map answer told2,
                      repeat false (length after))
  /\ trace_of r = Some (trace b ++ told1 ++ told2 ++ (if c1 then [EvComplete] else [])).
Proof.
  intros r told1 told2.
  assert (Hr : exists w',
             r = Ok ((List.map answer told1, List.map answer told2,
                      repeat false (length after)), w') /\
             trace (below w') = trace b ++ told1 ++ told2
                                ++ (if c1 then [EvComplete] else [])).
  { unfold r, Accept_twice, Accept.
    erewrite bind_run; cycle 1.
    { erewrite bind_run by (rewrite lift_refl_run; reflexivity). reflexivity. }
    cbn [empty_layer next_slot slots below].
    unfold Accept_stream at 1.
    erewrite bind_run; cycle 1.
    { erewrite bind_run by (rewrite lift_refl_run; reflexivity). reflexivity. }
    cbn [slots next_slot below].
    erewrite bind_run by (eapply pushes_active; apply lookup_insert_eq).
    cbn [slots next_slot below]. fold told1.
    unfold Accept_stream at 1.
    erewrite bind_run; cycle 1.
    { erewrite bind_run by (rewrite lift_refl_run; reflexivity). reflexivity. }
    cbn [slots next_slot below].
    erewrite bind_run by (eapply pushes_active; apply lookup_insert_eq).
    cbn [slots next_slot below]. rewrite trace_log. fold told2.
    erewrite bind_run; cycle 1.
    { erewrite bind_run by (rewrite lift_refl_run; reflexivity).
      cbn [slots next_slot below].
      erewrite bind_run; cycle 1.
      { unfold lift_accept. rewrite lift_comp_below_run. cbn [below].
        rewrite (probe_complete_run pol1). reflexivity. }
      unfold lift_accept. rewrite lift_comp_below_run. reflexivity. }
    cbn [under slots next_slot below call_if_not_nil ret].
    erewrite bind_run
      by (apply pushes_nil; cbn [slots]; apply lookup_delete_eq).
    eexists. split; [reflexivity|].
    cbn [below]. rewrite !trace_log, <- !app_assoc. reflexivity. }
  destruct Hr as (w' & -> & Htr). cbn [result_of trace_of view lens_below].
  split; [reflexivity|]. now rewrite Htr.
Qed.

(** ** The Subscription of Flatten *)

Section FlattenCancel.
Context {T : Type} `{ST : Storable T}.
Variable pol : list event -> T -> bool.
Variables e c : bool.
Variables innerSub outerCompleted : loc.
Hypothesis cells_differ : innerSub <> outerCompleted.

Local Abbreviation Flatten_cancel :=
  (do noop;
   h <- lift (L := lens_comp (lens_refl FW) (lens_comp (lens_below _ _) (lens_refl _)))
          (get innerSub);
   if bool_decide (is_Some (h : option nat))
   then lift (L := lens_refl FW) (call_closure h) else ret tt).

Lemma Flatten_inner_complete_late (b : Base) :
  peek outerCompleted b = VBool true ->
  Flatten_inner_complete (probe pol e c) innerSub outerCompleted b
  = Ok (tt, log (if c then [EvComplete] else []) (poke innerSub (VFunc None) b)).
Proof.
  intros Hoc. unfold Flatten_inner_complete.
  erewrite bind_run by apply set_run.
  erewrite bind_run by apply get_run.
  rewrite peek_poke_ne by exact cells_differ. rewrite Hoc.
  change (of_val (VBool true)) with true. cbn [andb].
  destruct c; cbn [probe Complete].
  - rewrite bool_decide_eq_true_2 by (now eexists). reflexivity.
  - rewrite bool_decide_eq_false_2 by (intros [x Hx]; discriminate).
    unfold ret. now rewrite log_nil.
Qed.

Lemma Flatten_cancel_nil (w : FW) :
  peek innerSub (below w) = VFunc None -> Flatten_cancel w = Ok (tt, w).
Proof.
  intros Hh. destruct w as [sl n b]. cbn [below] in *.
  erewrite bind_run by reflexivity.
  erewrite bind_run by (rewrite lift_refl_below_refl_run, get_run; reflexivity).
  cbn [below]. rewrite Hh. reflexivity.
Qed.

Lemma Flatten_cancel_Spy (p : nat * bool) (k : nat) (w : FW) :
  peek innerSub (below w) = VFunc (Some k) ->
  slots w !! k = Some (Spy_cancel (fst p) (snd p)
                         (Flatten_inner_obs pol e c innerSub outerCompleted)) ->
  peek outerCompleted (below w) = VBool true ->
  Flatten_cancel w
  = Ok (tt, mkLayer (slots w) (next_slot w)
                    (if snd p
                     then log (if c then [EvComplete] else [])
                              (poke innerSub (VFunc None) (log [EvCancel (fst p)] (below w)))
                     else log [EvCancel (fst p)] (below w))).
Proof.
  intros Hh Hslot Hoc. destruct w as [sl n b]. cbn [below slots next_slot] in *.
  erewrite bind_run by reflexivity.
  erewrite bind_run by (rewrite lift_refl_below_refl_run, get_run; reflexivity).
  cbn [below]. rewrite Hh. change (of_val (VFunc (Some k))) with (Some k).
  rewrite bool_decide_eq_true_2 by (now eexists).
  rewrite lift_refl_run. unfold call_closure.
  erewrite bind_run by reflexivity. cbn [slots]. rewrite Hslot.
  cbn [default from_option id]. rewrite lift_below_run. cbn [below].
  unfold Spy_cancel.
  erewrite bind_run by (rewrite lift_refl_run; apply emit_run).
  destruct (snd p).
  - rewrite lift_refl_run. cbn [Flatten_inner_obs Complete call_if_not_nil].
    rewrite Flatten_inner_complete_late by (now rewrite peek_log).
    reflexivity.
  - reflexivity.
Qed.

Lemma Flatten_cancel_Spy_times (p : nat * bool) (k : nat) (n : nat) : forall w : FW,
  peek innerSub (below w) = VFunc (Some k) ->
  slots w !! k = Some (Spy_cancel (fst p) (snd p)
                         (Flatten_inner_obs pol e c innerSub outerCompleted)) ->
  peek outerCompleted (below w) = VBool true ->
  exists w',
    times (S n) Flatten_cancel w = Ok (tt, w') /\
    trace (below w')
    = trace (below w)
      ++ (if snd p
          then EvCancel (fst p) :: (if c then [EvComplete] else [])
          else repeat (EvCancel (fst p)) (S n)).
Proof.
  destruct p as [id fin]. cbn [fst snd]. destruct fin.
  - intros w Hh Hslot Hoc. cbn [times].
    erewrite bind_run by (eapply (Flatten_cancel_Spy (id, true)); eassumption).
    cbn [fst snd].
    set (w1 := mkLayer _ _ _).
    assert (Hnil : forall m, times m Flatten_cancel w1 = Ok (tt, w1)).
    { induction m as [|m IH]; [reflexivity|]. cbn [times].
      erewrite bind_run; [exact IH|].
      apply Flatten_cancel_nil. unfold w1. cbn [below].
      now rewrite peek_log, peek_poke. }
    exists w1. split; [apply Hnil|].
    unfold w1. cbn [below]. rewrite trace_log, trace_poke, trace_log, <- app_assoc.
    reflexivity.
  - induction n as [|n IH]; intros w Hh Hslot Hoc.
    + cbn [times].
      erewrite bind_run by (eapply (Flatten_cancel_Spy (id, false)); eassumption).
      cbn [fst snd]. eexists. split; [reflexivity|]. cbn [below repeat].
      now rewrite trace_log.
    + cbn [times].
      erewrite bind_run by (eapply (Flatten_cancel_Spy (id, false)); eassumption).
      cbn [fst snd].
      edestruct IH as (w' & Hrun & Htr); cycle 3.
      { cbn [times] in Hrun. exists w'. split; [exact Hrun|].
        rewrite Htr. cbn [below]. rewrite trace_log, <- app_assoc. reflexivity. }
      { cbn [below]. rewrite peek_log. exact Hh. }
      { exact Hslot. }
      { cbn [below]. rewrite peek_log. exact Hoc. }
Qed.
End FlattenCancel.

(** X19.  After the outer Stream has completed, the Subscription of [Flatten]
    calls the Subscription of the inner Stream activated last.  When
    that completes the inner Stream, the inner completion comes after
    the outer one: the downstream [Complete] is called, once, and later
    calls of the Subscription do nothing.  When it does not, [innerSub]
    is left as it is: every call of the Subscription cancels the same
    inner Stream again, and nothing completes. *)
Theorem Flatten_cancel_reaches_last_inner {T} `{Storable T}
    (pol : list event -> T -> bool) (e c : bool)
    (spies : list (nat * bool)) (p : nat * bool) (n : nat) (b : Base) :
  trace_of (Flatten_From (List.map Spy (spies ++ [p])) pol e c (S n) (empty_layer b))
  = Some (trace b ++ switching None (spies ++ [p])
          ++ (if snd p
              then EvCancel (fst p) :: (if c then [EvComplete] else [])
              else repeat (EvCancel (fst p)) (S n))).
Proof.
  unfold Flatten_From, cancel_times, Flatten.
  assert (Hcells : next_loc b <> S (next_loc b)) by lia.
  destruct (Flatten_outer_loop_Spies Hcells (spies ++ [p])
              (Flatten_started_switched pol e c b))
    as (w1 & Hrun1 & Hsw1 & Htr1).
  assert (Hlast : match spies ++ [p] with
                  | [] => None
                  | _ => List.last (List.map Some (spies ++ [p])) None
                  end = Some p).
  { destruct (spies ++ [p]) eqn:Happ; [now destruct spies|].
    rewrite <- Happ, map_app. apply last_last. }
  rewrite Hlast in Hsw1. destruct Hsw1 as (_ & k & Hh & Hslot).
  erewrite bind_run; cycle 1.
  { erewrite bind_run by (rewrite lift_refl_below_refl_run, new_run; reflexivity).
    erewrite bind_run by (rewrite lift_refl_below_refl_run, new_run; reflexivity).
    cbn [empty_layer slots next_slot below next_loc heap trace under].
    change (mkBase _ _ _) with (Flatten_started b).
    erewrite bind_run; cycle 1.
    { unfold From.
      erewrite bind_run by (rewrite lift_refl_run; exact Hrun1).
      erewrite bind_run; cycle 1.
      { rewrite lift_refl_run. cbn [call_if_not_nil Complete].
        rewrite lift_below_refl_run, set_run. reflexivity. }
      reflexivity. }
    reflexivity. }
  edestruct (@Flatten_cancel_Spy_times T _ pol e c (next_loc b) (S (next_loc b)) Hcells
               p k n) as (w' & Hrun & Htr); cycle 3.
  { rewrite Hrun. cbn [trace_of view lens_below]. rewrite Htr.
    cbn [below]. rewrite trace_poke, Htr1. cbn [below Flatten_started trace].
    rewrite <- app_assoc. reflexivity. }
  { cbn [below]. rewrite peek_poke_ne by lia. exact Hh. }
  { exact Hslot. }
  { cbn [below]. apply peek_poke. }
Qed.

(** ** Collect over a function that accumulates *)

Section CollectFold.
Context {T X : Type} `{SX : Storable X}.
Variable step : X -> T -> X.

Lemma Collect_fold_loop (a x : loc) (args : list T) :
  a <> x ->
  forall (w : Base) (acc : X),
    of_val (peek a w) = acc ->
    exists w',
      From_loop {| Next := Some (fun t => r <- (a0 <- get a; do set a (step a0 t); get a);
                                          do set x r; ret true);
                   Error := None; Complete := None |} args w = Ok (tt, w') /\
      of_val (peek x w') = match args with
                           | [] => of_val (peek x w)
                           | _ => fold_left step args acc
                           end.
Proof.
  intros Hax. induction args as [|t rest IH]; intros w acc Hacc.
  - exists w. split; reflexivity.
  - cbn [From_loop Next call1].
    erewrite bind_run; cycle 1.
    { erewrite bind_run; cycle 1.
      { erewrite bind_run by apply get_run.
        erewrite bind_run by apply set_run.
        rewrite get_run, Hacc, peek_poke, of_to_val. reflexivity. }
      erewrite bind_run by apply set_run. reflexivity. }
    cbn [negb].
    destruct (IH (poke x (to_val (step acc t)) (poke a (to_val (step acc t)) w))
                (step acc t)) as (w' & Hrun & Hx).
    { rewrite peek_poke_ne by congruence. now rewrite peek_poke, of_to_val. }
    exists w'. split; [exact Hrun|].
    rewrite Hx, peek_poke, of_to_val. cbn [fold_left].
    destruct rest; reflexivity.
Qed.
End CollectFold.

Lemma fold_insert_true {K} {EK : EqDecision K} {CK : Countable K} (args : list K) :
  forall S : gset K,
  fold_left (fun (m : gmap K bool) t => <[t := true]> m) args (gset_to_gmap true S)
  = gset_to_gmap true (list_to_set args ∪ S).
Proof.
  induction args as [|t rest IH]; intros S; cbn [fold_left].
  - now rewrite list_to_set_nil, (left_id_L ∅ (∪)).
  - rewrite <- gset_to_gmap_union_singleton, IH, list_to_set_cons.
    now rewrite (assoc_L (∪)), (comm_L (∪) (list_to_set rest)).
Qed.

(** X21.  [Collect(ToSet())] over [From args] returns the map that sends
    exactly the values of [args] to true: a value that occurs several
    times is one key, and no value gives the empty map. *)
Theorem Collect_ToSet_From_is_the_set_of_args {T} {ST : Storable T}
    {ET : EqDecision T} {CT : Countable T} (args : list T) (w : Base) :
  result_of ((fn <- ToSet; collect <- Collect fn; collect (From args)) w)
  = Some (gset_to_gmap true (list_to_set args)).
Proof.
  unfold ToSet, Collect.
  erewrite bind_run; cycle 1.
  { erewrite bind_run by apply new_run. reflexivity. }
  erewrite bind_run; cycle 1.
  { erewrite bind_run by apply new_run. reflexivity. }
  set (a := next_loc w).
  set (w1 := mkBase (<[a := to_val (∅ : gmap T bool)]> (heap w)) (S a) (trace w)).
  set (w2 := mkBase (<[S a := to_val (zero : gmap T bool)]> (heap w1)) (S (S a)) (trace w1)).
  assert (Hax : a <> S a) by lia.
  destruct (@Collect_fold_loop T (gmap T bool) _ (fun m t => <[t := true]> m)
              a (S a) args Hax w2 ∅) as (w' & Hrun & Hx).
  { unfold peek, w2, w1; cbn [heap].
    rewrite lookup_insert_ne by lia. rewrite lookup_insert_eq.
    cbn [default from_option id]. apply of_to_val. }
  unfold From.
  erewrite bind_run; cycle 1.
  { erewrite bind_run by (rewrite lift_run; exact Hrun).
    erewrite bind_run by (rewrite lift_run; reflexivity).
    reflexivity. }
  rewrite lift_run, get_run. cbn [result_of]. f_equal.
  change (next_loc w1) with (S a). rewrite Hx.
  destruct args as [|t rest].
  - unfold peek, w2; cbn [heap]. rewrite lookup_insert_eq.
    cbn [default from_option id]. rewrite of_to_val.
    symmetry. apply gset_to_gmap_empty.
  - rewrite <- (gset_to_gmap_empty (K := T) true), fold_insert_true.
    now rewrite (right_id_L ∅ (∪)).
Qed.

(** ** Take over Periodic *)

Section PeriodicWrapped.
Variable pol : list event -> Z -> bool.
Variables e c : bool.
Variable g : nat.
Variable o : Observer Base Z.
Hypothesis same_Complete : Complete o = Complete (probe pol e c).

Local Abbreviation PW := (Layer (PeriodicVars Base) Base).

Lemma Periodic_unsub_wrapped (i : Z) (w : PW) :
  slots w !! g = Some (mkPeriodicVars o i false false) ->
  exists w',
    Periodic_unsub o g w = Ok (tt, w') /\
    slots w' !! g = Some (mkPeriodicVars o i true true) /\
    below w' = log (EvTickerStop :: (if c then [EvComplete] else [])) (below w).
Proof.
  intros Hg. unfold Periodic_unsub, Once_Do.
  erewrite bind_run by apply var_run.
  rewrite Hg. cbn [default from_option id p_closeCh].
  erewrite bind_run; cycle 1.
  { erewrite bind_run; cycle 1.
    { unfold lift_goroutine. rewrite lift_comp_below_run, emit_run. reflexivity. }
    cbn [slots next_slot below].
    erewrite bind_run; cycle 1.
    { unfold close_done. erewrite bind_run by apply var_run.
      cbn [slots]. rewrite Hg. cbn [default from_option id p_done].
      rewrite assign_run. cbn [slots]. rewrite Hg. reflexivity. }
    unfold lift_goroutine. rewrite lift_comp_below_run. cbn [below slots next_slot].
    rewrite same_Complete, (probe_complete_run pol). reflexivity. }
  rewrite assign_run. cbn [slots]. rewrite lookup_insert_eq.
  eexists. split; [reflexivity|]. cbn [slots below]. split.
  - rewrite lookup_insert_eq. reflexivity.
  - rewrite log_log. reflexivity.
Qed.

Lemma tick_wrapped (i : Z) (w : PW) (ok : bool) (b1 : Base) :
  slots w !! g = Some (mkPeriodicVars o i false false) ->
  call1 (Next o) i (below w) = Ok (ok, b1) ->
  exists w',
    tick g w = Ok (tt, w') /\
    slots w' !! g = Some (mkPeriodicVars o (int_wrap (i + 1)) (negb ok) (negb ok)) /\
    below w' = (if ok then b1
                else log (EvTickerStop :: (if c then [EvComplete] else [])) b1).
Proof.
  intros Hg Hnext. unfold tick.
  erewrite bind_run by (rewrite lift_refl_run; reflexivity).
  rewrite Hg. cbn [p_observer]. unfold Periodic_loop.
  erewrite bind_run by apply var_run.
  rewrite Hg. cbn [default from_option id p_done].
  erewrite bind_run by apply var_run.
  rewrite Hg. cbn [default from_option id p_i].
  erewrite bind_run; cycle 1.
  { unfold lift_goroutine. rewrite lift_comp_below_run, Hnext. reflexivity. }
  cbn [under].
  set (w1 := mkLayer _ _ _).
  assert (Hg1 : slots w1 !! g = Some (mkPeriodicVars o i false false)) by exact Hg.
  destruct ok; cbn [negb].
  - erewrite bind_run by reflexivity.
    erewrite bind_run by apply var_run.
    rewrite Hg1. cbn [default from_option id p_i].
    rewrite assign_run, Hg1.
    eexists. split; [reflexivity|]. cbn [slots below]. split; [|reflexivity].
    now rewrite lookup_insert_eq.
  - destruct (@Periodic_unsub_wrapped i w1 Hg1) as (w2 & Hrun2 & Hg2 & Hb2).
    erewrite bind_run by exact Hrun2.
    erewrite bind_run by apply var_run.
    rewrite Hg2. cbn [default from_option id p_i].
    rewrite assign_run, Hg2.
    eexists. split; [reflexivity|]. cbn [slots below]. split; [|exact Hb2].
    now rewrite lookup_insert_eq.
Qed.
End PeriodicWrapped.

Section TakePeriodic.
Variables e c : bool.
Variable n : Z.
Variable g : nat.
Variable cnt : loc.
Hypothesis n_positive : 1 <= n <= max_int.

Local Abbreviation PW := (Layer (PeriodicVars Base) Base).
Local Abbreviation obs := (Take_obs accept_all e c n cnt).

Lemma ticks_Take (k : nat) : forall (i : Z) (w : PW),
  slots w !! g = Some (mkPeriodicVars obs i false false) ->
  peek cnt (below w) = VInt i ->
  0 <= i < n ->
  exists w',
    times k (tick g) w = Ok (tt, w') /\
    trace (below w')
    = trace (below w)
      ++ List.map (fun j => EvNext (VInt (i + Z.of_nat j)) true)
                  (seq 0 (Nat.min k (Z.to_nat (n - i))))
      ++ (if n - i <=? Z.of_nat k
          then EvTickerStop :: (if c then [EvComplete] else [])
          else []).
Proof.
  induction k as [|k IH]; intros i w Hg Hcnt Hi.
  - exists w. split; [reflexivity|]. cbn [Nat.min seq List.map app].
    replace (n - i <=? Z.of_nat 0) with false by Zbool. now rewrite app_nil_r.
  - destruct (@tick_wrapped accept_all e c g obs eq_refl i w
                (negb (i + 1 =? n))
                (poke cnt (VInt (i + 1)) (log [EvNext (VInt i) true] (below w))) Hg)
      as (w1 & Hrun1 & Hg1 & Hb1).
    { cbn [Take_obs Next call1]. rewrite Take_next_probe, Hcnt.
      change (of_val (VInt i)) with i.
      rewrite int_wrap_small by (unfold max_int in *; lia). reflexivity. }
    cbn [times]. erewrite bind_run by exact Hrun1.
    rewrite int_wrap_small in Hg1 by (unfold max_int in *; lia).
    destruct (Z.eqb_spec (i + 1) n) as [Hlast | Hmore]; cbn [negb] in Hg1, Hb1.
    + erewrite ticks_returned by (first [exact Hg1 | reflexivity]).
      exists w1. split; [reflexivity|].
      rewrite Hb1, trace_log, trace_poke, trace_log.
      replace (Z.to_nat (n - i)) with 1%nat by lia.
      replace (Nat.min (S k) 1) with 1%nat by lia.
      replace (n - i <=? Z.of_nat (S k)) with true by Zbool.
      cbn [seq List.map app]. rewrite Z.add_0_r, <- app_assoc. reflexivity.
    + destruct (IH (i + 1) w1 Hg1) as (w' & Hrun & Htr).
      { rewrite Hb1. apply peek_poke. }
      { lia. }
      exists w'. split; [exact Hrun|].
      rewrite Htr, Hb1, trace_poke, trace_log, <- app_assoc. f_equal.
      replace (Z.to_nat (n - i)) with (S (Z.to_nat (n - (i + 1)))) by lia.
      cbn [Nat.min seq List.map app]. rewrite Z.add_0_r. f_equal.
      rewrite <- seq_shift, map_map.
      replace (n - (i + 1) <=? Z.of_nat k) with (n - i <=? Z.of_nat (S k)) by Zbool.
      f_equal. apply map_ext. intros j. do 2 f_equal. lia.
Qed.
End TakePeriodic.

(** X22.  [Take n] over [Periodic], for [1 <= n], with an observer that
    accepts: the observer receives the tick numbers 0 to [n - 1] and no
    more; the answer false that [Take] gives to the [n]th value makes
    [Periodic] stop its ticker and call [Complete], and the ticks that
    follow reach nobody. *)
Theorem Take_Periodic_stops_the_ticker (e c : bool) (n : Z) (ticks : nat) (b : Base) :
  1 <= n <= max_int ->
  trace_of (Take_Periodic n e c ticks (empty_layer b))
  = Some (trace b
          ++ List.map (fun j => EvNext (VInt (Z.of_nat j)) true)
                      (seq 0 (Nat.min ticks (Z.to_nat n)))
          ++ (if n <=? Z.of_nat ticks
              then EvTickerStop :: (if c then [EvComplete] else [])
              else [])).
Proof.
  intros Hn. unfold Take_Periodic, Take, Periodic.
  erewrite bind_run; cycle 1.
  { erewrite bind_run by (rewrite lift_below_run, new_run; reflexivity).
    cbn [empty_layer slots next_slot below under].
    erewrite bind_run by (rewrite lift_refl_run; reflexivity). reflexivity. }
  cbn [slots next_slot below].
  set (w0 := mkLayer _ _ _).
  destruct (@ticks_Take e c n 0%nat (next_loc b) Hn ticks 0 w0) as (w' & Hrun & Htr).
  { apply lookup_insert_eq. }
  { apply peek_alloc. }
  { lia. }
  rewrite Hrun. cbn [trace_of view lens_below]. rewrite Htr.
  rewrite Z.sub_0_r. reflexivity.
Qed.

Lemma Take_Periodic_stops_the_ticker_witness :
  trace_of (Take_Periodic 2 false true 5 (empty_layer empty_base))
  = Some [EvNext (VInt 0) true; EvNext (VInt 1) true; EvTickerStop; EvComplete].
Proof.
  refine (eq_trans (Take_Periodic_stops_the_ticker false true (n := 2) 5 empty_base _) _).
  - unfold max_int. lia.
  - reflexivity.
Defined.

(** ** The Error callback *)

